(** * lifecycling: sequential queue, state machine and lifecycle controller

    A shallow embedding of [src/index.js] and the properties of its three
    classes.

    Conventions of the embedding.

    - A JS object used as a dictionary ([#transitions],
      [#transitionPromises], [#transitionResolvers]) is a [gmap] keyed by
      the property name; a lookup reads own properties only.  So does
      the lookup [#operations[operator]] in the table of the handlers.
      The code does the same for every name but the few that an object
      inherits ([object_prototype_names]); state and operator names are
      taken not to be among these.
    - A promise is a natural number (its identity).  The promises made by
      [StateMachine.until] live in a [Heap] that records which of them are
      resolved; the completion promises made by [Queue.enqueue] are
      recorded, in the order in which they are settled, in the [settled]
      log of the queue.
    - An [async] function runs synchronously up to its first [await]; what
      is left of it is kept as a suspended activation and is resumed by an
      event.  Everything that user code or the JS scheduler can do to the
      objects (calling the public methods, settling the promise of a user
      callback, running a continuation) is an [event]; a behaviour of the
      program is a list of events.  A method called from inside a handler
      or the observer is an event like any other.
    - The promise of an [async] method that only returns or awaits another
      promise ([enqueue], [#enqueue], [open], ..., [Lifecycle.until]) is
      identified with that promise: it settles when and as the other
      does. *)

From stdpp Require Import gmap strings list.

(** ** Errors and outcomes *)

(** The two errors the library constructs itself, and the values thrown by
    user code (callbacks and the observer). *)
Inductive error :=
  | InvalidTransition (from to : string)
  | UnknownOperator (operator : string)
  | Thrown (v : string).

(** The message of the JS [Error] object. *)
Definition message (e : error) : string :=
  match e with
  | InvalidTransition from to =>
      "Invalid transition from " +:+ from +:+ " to " +:+ to
  | UnknownOperator operator => "Unknown operator name: " +:+ operator
  | Thrown v => v
  end.

(** How a promise is settled. *)
Inductive outcome (E : Type) :=
  | Ok
  | Err (e : E).
Arguments Ok {E}.
Arguments Err {E} e.

(** ** Names that every object inherits *)

(** The property names that a JS object has from [Object.prototype]
    without having them itself.  A lookup [obj[name]] finds a value for
    them in an object literal, so [obj[name]] tests for a property of the
    object itself only when [name] is none of them. *)
Definition object_prototype_names : list string :=
  ["constructor"; "hasOwnProperty"; "isPrototypeOf"; "propertyIsEnumerable";
   "toLocaleString"; "toString"; "valueOf"; "__proto__";
   "__defineGetter__"; "__defineSetter__"; "__lookupGetter__";
   "__lookupSetter__"].

(** ** StateMachine *)

(** Promises created by [until]: [next_promise] is the next fresh identity,
    [resolved] the promises that have been resolved. *)
Record Heap := mkHeap {
  next_promise : nat;
  resolved : gset nat;
}.

Definition empty_heap : Heap := mkHeap 0 ∅.

(** [new Promise(...)]: a fresh pending promise. *)
Definition new_promise (h : Heap) : nat * Heap :=
  (next_promise h, mkHeap (S (next_promise h)) (resolved h)).

(** Calling the [resolve] function of promise [p]. *)
Definition resolve_promise (p : nat) (h : Heap) : Heap :=
  mkHeap (next_promise h) ({[p]} ∪ resolved h).

(** [Promise.resolve()]: a fresh promise that is already resolved. *)
Definition promise_resolve (h : Heap) : nat * Heap :=
  let '(p, h1) := new_promise h in (p, resolve_promise p h1).

Module StateMachine.

(** The private fields of the class.  A resolver is identified with the
    promise it resolves. *)
Record t := mk {
  current : string;
  transitions : gmap string (list string);
  transitionPromises : gmap string nat;
  transitionResolvers : gmap string nat;
}.

(** [constructor (transitions)] *)
Definition new (transitions : gmap string (list string)) : t :=
  mk "init" transitions ∅ ∅.

(** [get state ()] *)
Definition state (m : t) : string := current m.

(** [allows (toState)].  [this.#transitions[this.#current]] is read as a
    property of the graph itself, which it is when the current state is
    not one of [object_prototype_names] (or the graph has an entry for
    it). *)
Definition allows (m : t) (toState : string) : bool :=
  let allowed := default [] (transitions m !! current m) in
  bool_decide (toState ∈ allowed).

(** [until (queryState)]: the promise returned, and the new machine and
    heap.  [this.#transitionPromises[queryState]] is read as a slot of
    the table itself, which it is when [queryState] is not one of
    [object_prototype_names]; the theorems about the promise returned
    say so. *)
Definition until (queryState : string) (m : t) (h : Heap)
  : nat * t * Heap :=
  if bool_decide (current m = queryState) then
    let '(p, h1) := promise_resolve h in (p, m, h1)
  else
    match transitionPromises m !! queryState with
    | None =>
        let '(p, h1) := new_promise h in
        (p,
         mk (current m) (transitions m)
            (<[queryState := p]> (transitionPromises m))
            (<[queryState := p]> (transitionResolvers m)),
         h1)
    | Some p => (p, m, h)
    end.

(** [transition (toState)]: [inl e] when it throws [e].
    [this.#transitionResolvers[toState]] is read as a slot of the table
    itself, which it is when [toState] is not one of
    [object_prototype_names]. *)
Definition transition (toState : string) (m : t) (h : Heap)
  : (error + unit) * t * Heap :=
  if negb (allows m toState) then
    (inl (InvalidTransition (current m) toState), m, h)
  else
    let m1 := mk toState (transitions m)
                 (transitionPromises m) (transitionResolvers m) in
    match transitionResolvers m1 !! toState with
    | Some p =>
        (inr tt,
         mk toState (transitions m1)
            (delete toState (transitionPromises m1))
            (delete toState (transitionResolvers m1)),
         resolve_promise p h)
    | None => (inr tt, m1, h)
    end.

(** The calls that can be made on a machine. *)
Inductive op :=
  | Until (queryState : string)
  | Transition (toState : string).

Definition step (s : t * Heap) (o : op) : t * Heap :=
  match o with
  | Until q => let '(_, m, h) := until q s.1 s.2 in (m, h)
  | Transition x => let '(_, m, h) := transition x s.1 s.2 in (m, h)
  end.

Definition exec (ops : list op) (s : t * Heap) : t * Heap :=
  foldl step s ops.

(** The invariant of the heap and of the two tables: a resolved promise
    exists; the tables hold the same promises; a promise in them waits
    for a state other than the current one, exists, is pending, and waits
    for one state only. *)
Record wf (m : t) (h : Heap) : Prop := Wf {
  wf_heap : ∀ p, p ∈ resolved h → p < next_promise h;
  wf_same : transitionResolvers m = transitionPromises m;
  wf_pending : ∀ q p,
    transitionPromises m !! q = Some p →
    q ≠ current m ∧ p < next_promise h ∧ p ∉ resolved h;
  wf_inj : ∀ q1 q2 p,
    transitionPromises m !! q1 = Some p →
    transitionPromises m !! q2 = Some p → q1 = q2;
}.


End StateMachine.

(** ** Queue *)

Module Queue.
Section Queue.

(** [P]: the items; [X]: the state the processor works on; [K]: what a
    suspended processor call remembers; [R]: what the thing it awaits
    delivers; [E]: the errors. *)
Context {P X K R E : Type}.

(** The processor, an async function, in its two halves: the call, which
    runs until the processor suspends at an [await] ([inl]) or finishes
    without suspending ([inr]), and the rest of a suspended call, which
    runs when what it awaits settles.  Either way the call returns a
    promise (the constructor requires it), so the drain loop suspends at
    its [await] even when that promise is settled already.  A processor
    that throws before it has returned a promise is not one of these; the
    processor of the controller, an arrow function around the async
    [#run], always returns a promise. *)
Variable processor : P → X → X * (K + outcome E).
Variable processor_resume : K → R → X → X * outcome E.

(** An element of [#items].  [resolve] and [reject] are the two functions
    of one promise, which [handle] names. *)
Record entry := Entry {
  item : P;
  handle : nat;
}.

(** The private fields ([#processor] is the section variable). *)
Record t := mk {
  items : list entry;
  processing : bool;
}.

(** A call of [#processQueue] suspended at [await this.#processor(item)]:
    the element it took from the head of [#items], and the processor call
    it awaits, still suspended ([inl]) or settled ([inr]). *)
Record activation := Activation {
  taken : entry;
  awaited : K + outcome E;
}.

(** The queue and what surrounds it.  [started], [enqueued] and [settled]
    are logs: the processor calls, the items pushed, and the completion
    promises settled, each in order of occurrence. *)
Record world := World {
  queue : t;
  env : X;
  loops : list activation;
  next_handle : nat;
  enqueued : list entry;
  started : list entry;
  settled : list (nat * outcome E);
}.

(** [constructor (processor)] *)
Definition new (x : X) : world :=
  World (mk [] false) x [] 0 [] [] [].

Definition set_queue (q : t) (w : world) : world :=
  World q (env w) (loops w) (next_handle w)
        (enqueued w) (started w) (settled w).

Definition set_env (x : X) (w : world) : world :=
  World (queue w) x (loops w) (next_handle w)
        (enqueued w) (started w) (settled w).

Definition set_loops (l : list activation) (w : world) : world :=
  World (queue w) (env w) l (next_handle w)
        (enqueued w) (started w) (settled w).

(** [resolve()] or [reject(error)] of the promise [h]. *)
Definition settle_handle (h : nat) (o : outcome E) (w : world) : world :=
  World (queue w) (env w) (loops w) (next_handle w)
        (enqueued w) (started w) (settled w ++ [(h, o)]).

(** The [while] loop of [#processQueue], from its test to the [await] of
    the next iteration, or to the [finally] block when [#items] is
    empty. *)
Definition drain (w : world) : world :=
  match items (queue w) with
  | e :: _ =>
      let '(x, a) := processor (item e) (env w) in
      World (queue w) x (loops w ++ [Activation e a]) (next_handle w)
            (enqueued w) (started w ++ [e]) (settled w)
  | [] => set_queue (mk (items (queue w)) false) w
  end.

(** [#processQueue ()] *)
Definition processQueue (w : world) : world :=
  if processing (queue w) || (length (items (queue w)) =? 0)
  then w
  else drain (set_queue (mk (items (queue w)) true) w).

(** [enqueue (item)]: the promise returned and the new world. *)
Definition enqueue (i : P) (w : world) : nat * world :=
  let p := next_handle w in
  let e := Entry i p in
  let w1 := World (mk (items (queue w) ++ [e]) (processing (queue w)))
                  (env w) (loops w) (S p)
                  (enqueued w ++ [e]) (started w) (settled w) in
  (p, if negb (processing (queue w1)) then processQueue w1 else w1).

(** What the processor call awaited by the [k]-th suspended loop was
    waiting for settles with [r]: the processor runs to its end. *)
Definition settle (k : nat) (r : R) (w : world) : world :=
  match loops w !! k with
  | Some (Activation e (inl s)) =>
      let '(x, o) := processor_resume s r (env w) in
      set_loops (<[k := Activation e (inr o)]> (loops w)) (set_env x w)
  | _ => w
  end.

(** The [k]-th suspended loop resumes after its [await], the processor
    call having settled: it settles the promise of the element it had
    taken, shifts [#items] and goes round the loop. *)
Definition continue (k : nat) (w : world) : world :=
  match loops w !! k with
  | Some (Activation e (inr o)) =>
      let w1 := set_loops (delete k (loops w)) w in
      let w2 := settle_handle (handle e) o w1 in
      let w3 := set_queue (mk (tail (items (queue w2)))
                              (processing (queue w2))) w2 in
      drain w3
  | _ => w
  end.

(** What can happen to a queue. *)
Inductive event :=
  | Enqueue (i : P)
  | Settle (k : nat) (r : R)
  | Continue (k : nat).

Definition step (w : world) (ev : event) : world :=
  match ev with
  | Enqueue i => (enqueue i w).2
  | Settle k r => settle k r w
  | Continue k => continue k w
  end.

Definition exec (evs : list event) (w : world) : world :=
  foldl step w evs.

(** The items of the [enqueue] calls of a behaviour, in the order of the
    calls. *)
Definition arrivals (evs : list event) : list P :=
  omap (λ ev, match ev with Enqueue i => Some i | _ => None end) evs.

(** [n] times in a row: what the processor call in flight awaits settles,
    the [k]-th time with [rs k], and the drain loop resumes. *)
Definition deliveries (rs : nat → R) (from n : nat) : list event :=
  flat_map (λ k, [Settle 0 (rs k); Continue 0]) (seq from n).

(** The processor calls that have been made and whose drain loop has not
    yet gone past them. *)
Definition in_flight (w : world) : nat :=
  length (started w) - length (settled w).

(** No drain loop is active. *)
Definition idle (w : world) : Prop :=
  loops w = [] ∧ processing (queue w) = false ∧ items (queue w) = [].

(** One drain loop is active and awaits the processor on the head of
    [#items]. *)
Definition busy (w : world) : Prop :=
  ∃ e a rest,
    loops w = [Activation e a] ∧ processing (queue w) = true
    ∧ items (queue w) = e :: rest.

(** The invariant of the queue: its shape, the handles given out, and the
    items pushed so far split into those done with and those still in
    [#items]. *)
Record inv (w : world) : Prop := Inv {
  inv_shape : idle w ∨ busy w;
  inv_handles : map handle (enqueued w) = seq 0 (next_handle w);
  inv_order : ∃ finished,
    enqueued w = finished ++ items (queue w)
    ∧ map handle finished = map fst (settled w)
    ∧ started w = finished ++ map taken (loops w);
}.

(** A property [Φ] of the state of the processor and a property [Ψ] of
    the outcomes hold throughout a world. *)
Definition sound (Φ : X → Prop) (Ψ : outcome E → Prop) (w : world) : Prop :=
  Φ (env w)
  ∧ Forall (λ a, ∀ o, awaited a = inr o → Ψ o) (loops w)
  ∧ Forall (λ s, Ψ s.2) (settled w).

End Queue.
End Queue.

(** A queue on its own: the processor is an async function of the user,
    known by what its promise settles to, which the event [Settle] says. *)
Module UserQueue.
Section UserQueue.

Context {P E : Type}.

Definition processor (i : P) (x : unit) : unit * (unit + outcome E) :=
  (x, inl ()).

Definition processor_resume (s : unit) (r : outcome E) (x : unit)
  : unit * outcome E :=
  (x, r).

Definition world : Type := @Queue.world P unit unit E.

Definition new : world := Queue.new ().

Definition exec (evs : list (@Queue.event P (outcome E))) (w : world)
  : world :=
  Queue.exec processor processor_resume evs w.

(** The elements that [enqueue] makes of the items [l] when the next
    handle is [n]. *)
Fixpoint entries_from (n : nat) (l : list P) : list (@Queue.entry P) :=
  match l with
  | [] => []
  | i :: l => Queue.Entry i n :: entries_from (S n) l
  end.

(** The processor settles with [r], then the drain loop resumes, for each
    [r] of [rs] in turn. *)
Definition deliveries (rs : list (outcome E))
  : list (@Queue.event P (outcome E)) :=
  flat_map (λ r, [Queue.Settle 0 r; Queue.Continue 0]) rs.

End UserQueue.
End UserQueue.

(** ** Lifecycle *)

Module Lifecycle.

(** A lifecycle handler: [noop], or a function supplied by the user, which
    the model knows by a name only. *)
Inductive callback :=
  | noop
  | user (f : string).

(** What a piece of user code does when it is run. *)
Inductive result :=
  | Returns
  | Throws (v : string).

(** The transition callback registered with [on]. *)
Definition observer : Type := string → result.

(** The argument of the constructor: each handler is optional. *)
Record handlers := Handlers {
  h_open : option string;
  h_close : option string;
  h_suspend : option string;
  h_resume : option string;
}.

(** The object stored in [#operations]. *)
Record operations_table := Operations {
  op_open : callback;
  op_close : callback;
  op_suspend : callback;
  op_resume : callback;
}.

(** [this.#operations[operator]], read as a property of the table itself,
    which it is when [operator] is not one of [object_prototype_names]. *)
Definition lookup_operation (ops : operations_table) (operator : string)
  : option callback :=
  if bool_decide (operator = "open") then Some (op_open ops)
  else if bool_decide (operator = "close") then Some (op_close ops)
  else if bool_decide (operator = "suspend") then Some (op_suspend ops)
  else if bool_decide (operator = "resume") then Some (op_resume ops)
  else None.

(** The frozen object stored in [#transitions]. *)
Definition lifecycle_transitions : gmap string (list string) :=
  list_to_map [
    ("init", ["opening"]);
    ("opening", ["opened"]);
    ("opened", ["suspending"; "closing"]);
    ("suspending", ["suspended"; "closing"]);
    ("suspended", ["resuming"; "closing"]);
    ("resuming", ["resumed"]);
    ("resumed", ["suspending"; "closing"]);
    ("closing", ["closed"]);
    ("closed", [])
  ].

(** The private fields of the class, except [#queue], which wraps this
    record (see [world] below), then the heap of the promises of the state
    machines and two logs: the handlers called and the states passed to
    the observer, in order. *)
Record t := mk {
  stateMachine : StateMachine.t;
  operations : operations_table;
  transitions : gmap string (list string);
  onTransition : observer;
  heap : Heap;
  calls : list callback;
  notified : list string;
}.

Global Arguments lifecycle_transitions : simpl never.

(** An item of the queue. *)
Record descriptor := Descriptor {
  operation : callback;
  interimState : string;
  toState : string;
}.

Definition set_machine (m : StateMachine.t) (h : Heap) (l : t) : t :=
  mk m (operations l) (transitions l) (onTransition l) h
     (calls l) (notified l).

(** [this.#stateMachine.transition(toState)] *)
Definition machine_transition (toState : string) (l : t)
  : (error + unit) * t :=
  let '(r, m, h) :=
    StateMachine.transition toState (stateMachine l) (heap l) in
  (r, set_machine m h l).

(** [this.#onTransition(state)] *)
Definition notify (state : string) (l : t) : result * t :=
  (onTransition l state,
   mk (stateMachine l) (operations l) (transitions l) (onTransition l)
      (heap l) (calls l) (notified l ++ [state])).

(** [operation()], up to the promise it returns. *)
Definition call_operation (f : callback) (l : t) : t :=
  mk (stateMachine l) (operations l) (transitions l) (onTransition l)
     (heap l) (calls l ++ [f]) (notified l).

(** [#run (operation, interimState, toState)] up to
    [await operation()]. *)
Definition run (d : descriptor) (l : t)
  : t * (descriptor + outcome error) :=
  if negb (StateMachine.allows (stateMachine l) (interimState d)) then
    (l, inr Ok)
  else
    match machine_transition (interimState d) l with
    | (inl e, l1) => (l1, inr (Err e))
    | (inr _, l1) =>
        match notify (interimState d) l1 with
        | (Throws v, l2) => (l2, inr (Err (Thrown v)))
        | (Returns, l2) => (call_operation (operation d) l2, inl d)
        end
    end.

(** What the promise of a handler settles to: [noop] always resolves, a
    user function does what the event says. *)
Definition operation_result (f : callback) (r : result) : result :=
  match f with
  | noop => Returns
  | user _ => r
  end.

(** [#run] from [await operation()] on, the promise of the handler having
    settled with [r]. *)
Definition run_resume (d : descriptor) (r : result) (l : t)
  : t * outcome error :=
  match operation_result (operation d) r with
  | Throws v => (l, Err (Thrown v))
  | Returns =>
      if bool_decide (StateMachine.state (stateMachine l) = interimState d)
         && StateMachine.allows (stateMachine l) (toState d)
      then
        match machine_transition (toState d) l with
        | (inl e, l1) => (l1, Err e)
        | (inr _, l1) =>
            match notify (toState d) l1 with
            | (Throws v, l2) => (l2, Err (Thrown v))
            | (Returns, l2) => (l2, Ok)
            end
        end
      else (l, Ok)
  end.

(** The controller with its queue, whose processor is [#run]. *)
Definition world : Type :=
  @Queue.world descriptor t descriptor error.

(** [constructor (operations)] *)
Definition new (o : handlers) : world :=
  let ops :=
    Operations (from_option user noop (h_open o))
               (from_option user noop (h_close o))
               (from_option user noop (h_suspend o))
               (from_option user noop (h_resume o)) in
  Queue.new
    (mk (StateMachine.new lifecycle_transitions) ops lifecycle_transitions
        (λ _, Returns) empty_heap [] []).

(** [get state ()] *)
Definition state (w : world) : string :=
  StateMachine.state (stateMachine (Queue.env w)).

(** [#enqueue (operation, interimState, toState)] *)
Definition enqueue (f : callback) (interimState toState : string)
    (w : world) : nat * world :=
  Queue.enqueue run (Descriptor f interimState toState) w.

(** [transition (operator, interimState, toState)]: [inl e] when the
    promise returned is rejected with [e] at once, [inr p] when it settles
    as the promise [p] of the queue does. *)
Definition transition (operator interimState toState : string) (w : world)
  : (error + nat) * world :=
  match lookup_operation (operations (Queue.env w)) operator with
  | None => (inl (UnknownOperator operator), w)
  | Some f =>
      let '(p, w1) := enqueue f interimState toState w in (inr p, w1)
  end.

(** [open ()] *)
Definition open (w : world) : nat * world :=
  enqueue (op_open (operations (Queue.env w))) "opening" "opened" w.

(** [close ()] *)
Definition close (w : world) : nat * world :=
  enqueue (op_close (operations (Queue.env w))) "closing" "closed" w.

(** [suspend ()] *)
Definition suspend (w : world) : nat * world :=
  enqueue (op_suspend (operations (Queue.env w)))
          "suspending" "suspended" w.

(** [resume ()] *)
Definition resume (w : world) : nat * world :=
  enqueue (op_resume (operations (Queue.env w))) "resuming" "resumed" w.

(** [until (queryState)]: the promise of the state machine that the
    promise returned follows. *)
Definition until (queryState : string) (w : world) : nat * world :=
  let l := Queue.env w in
  let '(p, m, h) :=
    StateMachine.until queryState (stateMachine l) (heap l) in
  (p, Queue.set_env (set_machine m h l) w).

(** [on (onTransition)] *)
Definition on (f : observer) (w : world) : world :=
  let l := Queue.env w in
  Queue.set_env
    (mk (stateMachine l) (operations l) (transitions l) f
        (heap l) (calls l) (notified l)) w.

(** [is (...queryStates)] ([is] is reserved) *)
Definition is_ (queryStates : list string) (w : world) : bool :=
  bool_decide (state w ∈ queryStates).

(** [not (...queryStates)] *)
Definition not (queryStates : list string) (w : world) : bool :=
  negb (bool_decide (state w ∈ queryStates)).

(** [reset ()] *)
Definition reset (w : world) : world :=
  let l := Queue.env w in
  Queue.set_env
    (set_machine (StateMachine.new (transitions l)) (heap l) l) w.

(** The calls of the public methods that change something. *)
Inductive call :=
  | CallOpen
  | CallClose
  | CallSuspend
  | CallResume
  | CallTransition (operator interimState toState : string)
  | CallUntil (queryState : string)
  | CallOn (f : observer)
  | CallReset.

(** What can happen to a controller: a method is called; the promise of
    the handler awaited by the [k]-th suspended [#run] settles; the
    [k]-th suspended [#processQueue] resumes. *)
Inductive event :=
  | Call (c : call)
  | OperationSettles (k : nat) (r : result)
  | Continue (k : nat).

Definition do_call (c : call) (w : world) : world :=
  match c with
  | CallOpen => (open w).2
  | CallClose => (close w).2
  | CallSuspend => (suspend w).2
  | CallResume => (resume w).2
  | CallTransition o i t => (transition o i t w).2
  | CallUntil q => (until q w).2
  | CallOn f => on f w
  | CallReset => reset w
  end.

Definition step (w : world) (ev : event) : world :=
  match ev with
  | Call c => do_call c w
  | OperationSettles k r => Queue.settle run_resume k r w
  | Continue k => Queue.continue run k w
  end.

Definition exec (evs : list event) (w : world) : world :=
  foldl step w evs.

(** The nine states of the lifecycle. *)
Definition labels : list string :=
  ["init"; "opening"; "opened"; "suspending"; "suspended";
   "resuming"; "resumed"; "closing"; "closed"].

(** The outcomes that come from user code only: success, or a value
    thrown by a handler or by the observer. *)
Definition user_outcome (o : outcome error) : Prop :=
  match o with
  | Ok | Err (Thrown _) => True
  | Err _ => False
  end.

(** A property of the state machine and its heap holds in a controller
    built on the lifecycle graph. *)
Definition holds (Θ : StateMachine.t → Heap → Prop) (l : t) : Prop :=
  Θ (stateMachine l) (heap l) ∧ transitions l = lifecycle_transitions.

(** The machine of a controller: the lifecycle graph, one of the nine
    states, well-formed tables. *)
Definition machine_ok (m : StateMachine.t) (h : Heap) : Prop :=
  StateMachine.transitions m = lifecycle_transitions
  ∧ StateMachine.current m ∈ labels
  ∧ StateMachine.wf m h.

(** The promise [p] exists. *)
Definition created (p : nat) (m : StateMachine.t) (h : Heap) : Prop :=
  p < next_promise h.

(** The promise [p] exists, is pending, and is in neither table of the
    machine: nothing can resolve it, and [until] cannot return it. *)
Definition forgotten (p : nat) (m : StateMachine.t) (h : Heap) : Prop :=
  p < next_promise h
  ∧ (p ∉ resolved h)
  ∧ ∀ q, StateMachine.transitionResolvers m !! q ≠ Some p
         ∧ StateMachine.transitionPromises m !! q ≠ Some p.

End Lifecycle.

(** ** Sample inputs *)

(** The graph of a small machine. *)
Definition sample_transitions : gmap string (list string) :=
  list_to_map [("init", ["started"]); ("started", ["stopped"]);
               ("stopped", [])].

(** A controller with an open handler only. *)
Definition sample_handlers : Lifecycle.handlers :=
  Lifecycle.Handlers (Some "f") None None None.

(** The graph of the waiting test of the repository. *)
Definition processing_transitions : gmap string (list string) :=
  list_to_map [("init", ["processing"; "error"]);
               ("processing", ["complete"; "error"]);
               ("error", ["init"]); ("complete", [])].

(** A controller with an open and a close handler. *)
Definition open_close_handlers : Lifecycle.handlers :=
  Lifecycle.Handlers (Some "open") (Some "close") None None.

(** [await] of a call: the handler succeeds, then the drain loop resumes. *)
Definition succeeds : list Lifecycle.event :=
  [Lifecycle.OperationSettles 0 Lifecycle.Returns; Lifecycle.Continue 0].

(** ** The lifecycle graph and the calls that enqueue *)

Module Protocol.

(** [b] is in the array that [#transitions] has for [a]. *)
Definition edge (a b : string) : bool :=
  bool_decide (b ∈ default [] (Lifecycle.lifecycle_transitions !! a)).

(** The states of [l], in order, are reached from [c] one edge at a
    time. *)
Fixpoint walk (c : string) (l : list string) : Prop :=
  match l with
  | [] => True
  | n :: l => edge c n = true ∧ walk n l
  end.

(** How far a state is along the graph; only the four states of the
    suspend/resume cycle share a rank. *)
Definition rank (s : string) : nat :=
  if bool_decide (s = "init") then 0
  else if bool_decide (s = "opening") then 1
  else if bool_decide (s = "opened") then 2
  else if bool_decide (s = "closing") then 4
  else if bool_decide (s = "closed") then 5
  else 3.

(** The descriptor that a call of [open], [close], [suspend], [resume] or
    [transition] passes to [#enqueue]; [None] for the other calls and for
    an unknown operator. *)
Definition descriptor_of (ops : Lifecycle.operations_table)
    (c : Lifecycle.call) : option Lifecycle.descriptor :=
  match c with
  | Lifecycle.CallOpen =>
      Some (Lifecycle.Descriptor (Lifecycle.op_open ops) "opening" "opened")
  | Lifecycle.CallClose =>
      Some (Lifecycle.Descriptor (Lifecycle.op_close ops) "closing" "closed")
  | Lifecycle.CallSuspend =>
      Some (Lifecycle.Descriptor (Lifecycle.op_suspend ops)
              "suspending" "suspended")
  | Lifecycle.CallResume =>
      Some (Lifecycle.Descriptor (Lifecycle.op_resume ops)
              "resuming" "resumed")
  | Lifecycle.CallTransition o i x =>
      (λ f, Lifecycle.Descriptor f i x)
        <$> Lifecycle.lookup_operation ops o
  | _ => None
  end.

(** The state in which [open], [close], [suspend] or [resume], called in
    state [s] on a controller at rest and with a handler that succeeds,
    leaves the controller; [s] for the other calls. *)
Definition effect (c : Lifecycle.call) (s : string) : string :=
  match c with
  | Lifecycle.CallOpen =>
      if bool_decide (s = "init") then "opened" else s
  | Lifecycle.CallClose =>
      if bool_decide (s ∈ ["opened"; "suspending"; "suspended"; "resumed"])
      then "closed" else s
  | Lifecycle.CallSuspend =>
      if bool_decide (s ∈ ["opened"; "resumed"]) then "suspended" else s
  | Lifecycle.CallResume =>
      if bool_decide (s = "suspended") then "resumed" else s
  | _ => s
  end.

(** The events other than a call of [reset]. *)
Definition no_reset (ev : Lifecycle.event) : Prop :=
  ev ≠ Lifecycle.Call Lifecycle.CallReset.

(** The observer of [l] returns whatever state it is given. *)
Definition quiet (l : Lifecycle.t) : Prop :=
  ∀ s, Lifecycle.onTransition l s = Lifecycle.Returns.

(** The log of the observer follows the graph from [init], and the state
    is where it ends. *)
Definition on_track (l : Lifecycle.t) : Prop :=
  StateMachine.transitions (Lifecycle.stateMachine l)
  = Lifecycle.lifecycle_transitions
  ∧ walk "init" (Lifecycle.notified l)
  ∧ StateMachine.current (Lifecycle.stateMachine l)
    = default "init" (last (Lifecycle.notified l)).

End Protocol.

(** * Properties *)

(** ** The queue *)

Section QueueFacts.

Context {P X K R E : Type}.
Variable processor : P → X → X * (K + outcome E).
Variable processor_resume : K → R → X → X * outcome E.

Abbreviation world := (@Queue.world P X K E).
Implicit Types w : world.

Lemma inv_new (x : X) : Queue.inv (Queue.new x : world).
Proof.
  split.
  - left. by repeat split.
  - done.
  - by exists [].
Qed.

Lemma inv_set_env w (x : X) : Queue.inv w → Queue.inv (Queue.set_env x w).
Proof. intros [Hs Hh Ho]. by split. Qed.

Lemma inv_enqueue w (i : P) :
  Queue.inv w → Queue.inv (Queue.enqueue processor i w).2.
Proof.
  intros [Hs Hh (fin & He & Hf & Hst)].
  unfold Queue.enqueue; cbn [snd Queue.queue Queue.processing].
  destruct Hs as [(Hl & Hp & Hi) | (e & a & rest & Hl & Hp & Hi)];
    rewrite Hp; cbn [negb].
  - unfold Queue.processQueue; cbn.
    rewrite Hi. cbn.
    unfold Queue.drain; cbn.
    destruct (processor i (Queue.env w)) as [x a] eqn:Hproc.
    rewrite Hi in He. rewrite app_nil_r in He. subst fin.
    split; cbn -[seq].
    + right. exists (Queue.Entry i (Queue.next_handle w)), a, [].
      cbn. by rewrite Hl.
    + by rewrite map_app, Hh, seq_S.
    + exists (Queue.enqueued w). rewrite Hl in *. cbn in *.
      rewrite app_nil_r in Hst. by rewrite Hst.
  - split; cbn -[seq].
    + right. exists e, a, (rest ++ [Queue.Entry i (Queue.next_handle w)]).
      by rewrite Hi.
    + by rewrite map_app, Hh, seq_S.
    + exists fin. by rewrite He, <- app_assoc.
Qed.

Lemma inv_settle w (k : nat) (r : R) :
  Queue.inv w → Queue.inv (Queue.settle processor_resume k r w).
Proof.
  intros Hinv. unfold Queue.settle.
  destruct (Queue.loops w !! k) as [[e [s | o]] |] eqn:Hk; try done.
  destruct (processor_resume s r (Queue.env w)) as [x o].
  destruct Hinv as [Hs Hh (fin & He & Hf & Hst)].
  destruct Hs as [(Hl & Hp & Hi) | (e' & a & rest & Hl & Hp & Hi)].
  { by rewrite Hl in Hk. }
  rewrite Hl in Hk. destruct k; [| done]. simplify_eq/=.
  split; cbn.
  - right. exists e, (inr o), rest. by rewrite Hl.
  - done.
  - exists fin. by rewrite Hl in *.
Qed.

Lemma inv_continue w (k : nat) :
  Queue.inv w → Queue.inv (Queue.continue processor k w).
Proof.
  intros Hinv. unfold Queue.continue.
  destruct (Queue.loops w !! k) as [[e [s | o]] |] eqn:Hk; try done.
  destruct Hinv as [Hs Hh (fin & He & Hf & Hst)].
  destruct Hs as [(Hl & Hp & Hi) | (e' & a & rest & Hl & Hp & Hi)].
  { by rewrite Hl in Hk. }
  rewrite Hl in Hk. destruct k; [| done]. simplify_eq/=.
  unfold Queue.drain; cbn. rewrite Hi, Hl. cbn.
  destruct rest as [| e2 rest].
  - split; cbn.
    + left. by repeat split.
    + done.
    + exists (fin ++ [e]). rewrite He, Hi, Hst, Hl.
      rewrite !map_app, Hf. cbn. by rewrite !app_nil_r.
  - destruct (processor (Queue.item e2) (Queue.env w)) as [x a].
    split; cbn.
    + right. by exists e2, a, rest.
    + done.
    + exists (fin ++ [e]). rewrite He, Hi, Hst, Hl.
      rewrite !map_app, Hf. cbn. by rewrite <- !app_assoc.
Qed.

Lemma inv_step w (ev : Queue.event) :
  Queue.inv w → Queue.inv (Queue.step processor processor_resume w ev).
Proof.
  intros Hw. destruct ev as [i | k r | k]; cbn [Queue.step].
  - by apply inv_enqueue.
  - by apply inv_settle.
  - by apply inv_continue.
Qed.

Lemma inv_exec (evs : list Queue.event) w :
  Queue.inv w → Queue.inv (Queue.exec processor processor_resume evs w).
Proof.
  revert w. induction evs as [| ev evs IH]; intros w Hw; [done |].
  apply IH, inv_step, Hw.
Qed.

(** What the invariant says about the logs. *)
Lemma inv_single_flight w :
  Queue.inv w → length (Queue.loops w) ≤ 1 ∧ Queue.in_flight w ≤ 1.
Proof.
  intros [Hs _ (fin & He & Hf & Hst)]. unfold Queue.in_flight.
  assert (length (Queue.settled w) = length fin) as Hlen.
  { by rewrite <- (length_map fst), <- Hf, length_map. }
  rewrite Hst, length_app, length_map, Hlen.
  destruct Hs as [(Hl & _) | (e & a & rest & Hl & _)]; rewrite Hl; cbn; lia.
Qed.

Lemma inv_settled_prefix w :
  Queue.inv w →
  map fst (Queue.settled w) `prefix_of` map Queue.handle (Queue.enqueued w).
Proof.
  intros [_ _ (fin & He & Hf & _)].
  rewrite He, map_app, Hf. by eexists.
Qed.

Lemma inv_started_prefix w :
  Queue.inv w → Queue.started w `prefix_of` Queue.enqueued w.
Proof.
  intros [Hs _ (fin & He & _ & Hst)]. rewrite He, Hst.
  destruct Hs as [(Hl & _ & Hi) | (e & a & rest & Hl & _ & Hi)];
    rewrite Hl, Hi; cbn.
  - done.
  - exists rest. by rewrite <- app_assoc.
Qed.

Lemma inv_handles_NoDup w :
  Queue.inv w → NoDup (map Queue.handle (Queue.enqueued w)).
Proof. intros [_ Hh _]. rewrite Hh. apply NoDup_seq. Qed.

(** The log of the items pushed grows by [enqueue] only. *)
Lemma enqueued_drain w :
  Queue.enqueued (Queue.drain processor w) = Queue.enqueued w.
Proof.
  unfold Queue.drain. destruct (Queue.items (Queue.queue w)); [done |].
  by destruct (processor _ _).
Qed.

Lemma enqueued_enqueue w (i : P) :
  Queue.enqueued (Queue.enqueue processor i w).2
  = Queue.enqueued w ++ [Queue.Entry i (Queue.enqueue processor i w).1].
Proof.
  unfold Queue.enqueue; cbn. destruct (negb _); [| done].
  unfold Queue.processQueue. destruct (_ || _); [done |].
  by rewrite enqueued_drain.
Qed.

Lemma sound_weaken (Φ Φ' : X → Prop) (Ψ : outcome E → Prop) w :
  Φ' (Queue.env w) → Queue.sound Φ Ψ w → Queue.sound Φ' Ψ w.
Proof. intros Hx (_ & Hl & Hs). by repeat split. Qed.

(** Properties of the processor carry over to the worlds of the queue. *)
Section Sound.

Variable Φ : X → Prop.
Variable Ψ : outcome E → Prop.
Hypothesis processor_sound : ∀ p x,
  Φ x → Φ (processor p x).1 ∧ ∀ o, (processor p x).2 = inr o → Ψ o.
Hypothesis resume_sound : ∀ s r x,
  Φ x → Φ (processor_resume s r x).1 ∧ Ψ (processor_resume s r x).2.

Lemma sound_new (x : X) : Φ x → Queue.sound Φ Ψ (Queue.new x : world).
Proof. intros Hx. by repeat split. Qed.

Lemma sound_set_env w (x : X) :
  Φ x → Queue.sound Φ Ψ w → Queue.sound Φ Ψ (Queue.set_env x w).
Proof. intros Hx (_ & Hl & Hs). by repeat split. Qed.

Lemma sound_drain w :
  Queue.sound Φ Ψ w → Queue.sound Φ Ψ (Queue.drain processor w).
Proof.
  intros (Hx & Hl & Hs). unfold Queue.drain.
  destruct (Queue.items (Queue.queue w)) as [| e rest]; [done |].
  pose proof (processor_sound (Queue.item e) _ Hx) as [Hx' Ho].
  destruct (processor (Queue.item e) (Queue.env w)) as [x a].
  repeat split; cbn; [done | | done].
  apply Forall_app. split; [done |].
  apply Forall_singleton. cbn. intros o ->. by apply Ho.
Qed.

Lemma sound_enqueue w (i : P) :
  Queue.sound Φ Ψ w → Queue.sound Φ Ψ (Queue.enqueue processor i w).2.
Proof.
  intros Hw. unfold Queue.enqueue; cbn.
  destruct (Queue.processing (Queue.queue w)) eqn:Hp; cbn; [done |].
  unfold Queue.processQueue; cbn.
  rewrite length_app, Nat.add_comm. cbn.
  by apply sound_drain.
Qed.

Lemma sound_settle w (k : nat) (r : R) :
  Queue.sound Φ Ψ w →
  Queue.sound Φ Ψ (Queue.settle processor_resume k r w).
Proof.
  intros (Hx & Hl & Hs). unfold Queue.settle.
  destruct (Queue.loops w !! k) as [[e [s | o]] |] eqn:Hk; try done.
  pose proof (resume_sound s r _ Hx) as [Hx' Ho].
  destruct (processor_resume s r (Queue.env w)) as [x o].
  repeat split; cbn; [done | | done].
  apply Forall_insert; [done |]. cbn. by intros ? [= <-].
Qed.

Lemma sound_continue w (k : nat) :
  Queue.sound Φ Ψ w → Queue.sound Φ Ψ (Queue.continue processor k w).
Proof.
  intros (Hx & Hl & Hs). unfold Queue.continue.
  destruct (Queue.loops w !! k) as [[e [s | o]] |] eqn:Hk; try done.
  apply sound_drain. repeat split; cbn; [done | |].
  - by apply Forall_delete.
  - apply Forall_app. split; [done |]. apply Forall_singleton. cbn.
    by apply (proj1 (Forall_lookup _ _) Hl _ _ Hk).
Qed.

End Sound.

(** The log of the items pushed is the [enqueue] calls of the behaviour. *)
Lemma enqueued_settle w (k : nat) (r : R) :
  Queue.enqueued (Queue.settle processor_resume k r w) = Queue.enqueued w.
Proof.
  unfold Queue.settle.
  destruct (Queue.loops w !! k) as [[e [s | o]] |]; try done.
  by destruct (processor_resume s r (Queue.env w)).
Qed.

Lemma enqueued_continue w (k : nat) :
  Queue.enqueued (Queue.continue processor k w) = Queue.enqueued w.
Proof.
  unfold Queue.continue.
  destruct (Queue.loops w !! k) as [[e [s | o]] |]; try done.
  by rewrite enqueued_drain.
Qed.

Lemma arrivals_exec (evs : list Queue.event) w :
  map Queue.item
    (Queue.enqueued (Queue.exec processor processor_resume evs w))
  = map Queue.item (Queue.enqueued w) ++ Queue.arrivals evs.
Proof.
  revert w. induction evs as [| ev evs IH]; intros w.
  { cbn. by rewrite app_nil_r. }
  change (Queue.exec processor processor_resume (ev :: evs) w)
    with (Queue.exec processor processor_resume evs
            (Queue.step processor processor_resume w ev)).
  rewrite IH. destruct ev as [i | k r | k]; cbn [Queue.step].
  - rewrite enqueued_enqueue, map_app. cbn. by rewrite <- app_assoc.
  - by rewrite enqueued_settle.
  - by rewrite enqueued_continue.
Qed.

(** What is enqueued is settled, in order, or still in [#items], in
    order. *)
Lemma inv_pending w :
  Queue.inv w →
  map Queue.handle (Queue.enqueued w)
  = map fst (Queue.settled w)
    ++ map Queue.handle (Queue.items (Queue.queue w)).
Proof.
  intros [_ _ (fin & He & Hf & _)]. by rewrite He at 1; rewrite map_app, Hf.
Qed.

(** At rest every processor call made belongs to a settled promise. *)
Lemma inv_idle_started w :
  Queue.inv w → Queue.idle w → Queue.started w = Queue.enqueued w.
Proof.
  intros [_ _ (fin & He & _ & Hst)] (Hl & _ & Hi).
  rewrite He, Hst, Hl, Hi. cbn. done.
Qed.

(** One round: the call in flight settles and the drain loop resumes.  The
    promise of the head of [#items] is settled, the head is shifted, and
    nothing else is settled. *)
Lemma delivery_round w (e : Queue.entry) (rest : list Queue.entry) (r : R) :
  Queue.inv w →
  Queue.items (Queue.queue w) = e :: rest →
  let w1 :=
    Queue.exec processor processor_resume
      [Queue.Settle 0 r; Queue.Continue 0] w in
  Queue.items (Queue.queue w1) = rest
  ∧ (∃ o, Queue.settled w1 = Queue.settled w ++ [(Queue.handle e, o)])
  ∧ Queue.enqueued w1 = Queue.enqueued w.
Proof.
  intros [Hs _ _] Hi. cbn.
  destruct Hs as [(_ & _ & Hi') | (e' & a & rest' & Hl & Hp & Hi')];
    [congruence |].
  rewrite Hi in Hi'. injection Hi' as <- <-.
  rewrite enqueued_continue, enqueued_settle.
  assert (∃ x o,
            Queue.loops (Queue.settle processor_resume 0 r w)
            = [Queue.Activation e (inr o)]
            ∧ Queue.items (Queue.queue (Queue.settle processor_resume 0 r w))
              = e :: rest
            ∧ Queue.settled (Queue.settle processor_resume 0 r w)
              = Queue.settled w
            ∧ Queue.env (Queue.settle processor_resume 0 r w) = x)
    as (x & o & Hl1 & Hi1 & Hs1 & _).
  { unfold Queue.settle. rewrite Hl. cbn.
    destruct a as [s | o].
    - destruct (processor_resume s r (Queue.env w)) as [x o].
      by exists x, o.
    - by exists (Queue.env w), o. }
  set (w0 := Queue.settle processor_resume 0 r w) in *.
  unfold Queue.continue. rewrite Hl1. cbn.
  unfold Queue.drain. cbn. rewrite Hi1. cbn.
  destruct rest as [| e2 rest]; cbn.
  - rewrite Hs1. split; [done |]. split; [by exists o | done].
  - destruct (processor (Queue.item e2) (Queue.env w0)) as [x' a']. cbn.
    rewrite Hs1. split; [done |]. split; [by exists o | done].
Qed.

(** As many rounds as there are elements in [#items] bring the queue to
    rest, with nothing enqueued lost and no settlement undone. *)
Lemma deliveries_complete (rs : nat → R) (n from : nat) w :
  Queue.inv w →
  length (Queue.items (Queue.queue w)) = n →
  let w' :=
    Queue.exec processor processor_resume (Queue.deliveries rs from n) w in
  Queue.idle w'
  ∧ Queue.enqueued w' = Queue.enqueued w
  ∧ Queue.settled w `prefix_of` Queue.settled w'.
Proof.
  revert from w. induction n as [| n IH]; intros from w Hinv Hn.
  - cbn. destruct (Queue.items (Queue.queue w)) as [| e rest] eqn:Hi;
      [| done].
    destruct Hinv as [[Hidle | (e & a & rest & _ & _ & Hi')] _ _];
      [done | congruence].
  - destruct (Queue.items (Queue.queue w)) as [| e rest] eqn:Hi; [done |].
    injection Hn as Hn.
    unfold Queue.deliveries. cbn [seq flat_map].
    unfold Queue.exec. rewrite foldl_app.
    fold (Queue.exec processor processor_resume
            [Queue.Settle 0 (rs from); Queue.Continue 0] w).
    destruct (delivery_round w e rest (rs from) Hinv Hi)
      as (Hi1 & (o & Hs1) & He1).
    set (w1 := Queue.exec processor processor_resume
                 [Queue.Settle 0 (rs from); Queue.Continue 0] w) in *.
    assert (Queue.inv w1) as Hinv1 by by apply inv_exec.
    rewrite <- Hi1 in Hn.
    destruct (IH (S from) w1 Hinv1 Hn) as (Hidle & He & Hs).
    split; [done |]. split; [by rewrite <- He1 |].
    etrans; [| exact Hs]. rewrite Hs1. by eexists.
Qed.

End QueueFacts.

(** A queue on its own runs to the end: once the processor has settled
    for each item, every promise is settled with the outcome of its item
    and the queue is idle again. *)
Section UserQueueFacts.

Context {P E : Type}.
Implicit Types w : @UserQueue.world P E.

Lemma handle_entries_from (n : nat) (l : list P) :
  map Queue.handle (UserQueue.entries_from n l) = seq n (length l).
Proof.
  revert n. induction l as [| i l IH]; intros n; [done |].
  cbn. by rewrite IH.
Qed.

Lemma enqueue_busy (i : P) w :
  Queue.processing (Queue.queue w) = true →
  (Queue.enqueue UserQueue.processor i w).2
  = Queue.World
      (Queue.mk (Queue.items (Queue.queue w)
                 ++ [Queue.Entry i (Queue.next_handle w)]) true)
      (Queue.env w) (Queue.loops w) (S (Queue.next_handle w))
      (Queue.enqueued w ++ [Queue.Entry i (Queue.next_handle w)])
      (Queue.started w) (Queue.settled w).
Proof. intros Hp. unfold Queue.enqueue. cbn. by rewrite Hp. Qed.

Lemma enqueue_while_busy (l : list P) w :
  Queue.processing (Queue.queue w) = true →
  let w' := UserQueue.exec (map Queue.Enqueue l) w in
  Queue.items (Queue.queue w')
  = Queue.items (Queue.queue w)
    ++ UserQueue.entries_from (Queue.next_handle w) l
  ∧ Queue.processing (Queue.queue w') = true
  ∧ Queue.loops w' = Queue.loops w
  ∧ Queue.settled w' = Queue.settled w.
Proof.
  revert w. induction l as [| i l IH]; intros w Hp w'; subst w'.
  { cbn. by rewrite app_nil_r. }
  change (UserQueue.exec (map Queue.Enqueue (i :: l)) w)
    with (UserQueue.exec (map Queue.Enqueue l)
            (Queue.enqueue UserQueue.processor i w).2).
  rewrite (enqueue_busy i w Hp).
  match goal with |- context [UserQueue.exec _ ?w1] =>
    destruct (IH w1 eq_refl) as (Hi & Hp' & Hl & Hs) end.
  rewrite Hi, Hp', Hl, Hs. cbn. by rewrite <- app_assoc.
Qed.

Lemma deliver_one w e rest (r : outcome E) :
  Queue.items (Queue.queue w) = e :: rest →
  Queue.loops w = [Queue.Activation e (inl ())] →
  let w' := UserQueue.exec [Queue.Settle 0 r; Queue.Continue 0] w in
  Queue.settled w' = Queue.settled w ++ [(Queue.handle e, r)]
  ∧ Queue.items (Queue.queue w') = rest
  ∧ match rest with
    | [] => Queue.loops w' = [] ∧ Queue.processing (Queue.queue w') = false
    | e2 :: _ => Queue.loops w' = [Queue.Activation e2 (inl ())]
    end.
Proof.
  intros Hi Hl. cbn.
  unfold Queue.settle. rewrite Hl. cbn.
  unfold Queue.continue. cbn. unfold Queue.drain. cbn. rewrite Hi. cbn.
  by destruct rest.
Qed.

Lemma deliver_all (rs : list (outcome E)) w e rest :
  Queue.items (Queue.queue w) = e :: rest →
  Queue.loops w = [Queue.Activation e (inl ())] →
  length rs = length (e :: rest) →
  let w' := UserQueue.exec (UserQueue.deliveries rs) w in
  Queue.settled w'
  = Queue.settled w ++ zip (map Queue.handle (e :: rest)) rs
  ∧ Queue.items (Queue.queue w') = []
  ∧ Queue.loops w' = []
  ∧ Queue.processing (Queue.queue w') = false.
Proof.
  revert w e rs. induction rest as [| e2 rest IH]; intros w e rs Hi Hl Hlen.
  - destruct rs as [| r [| ? ?]]; try done.
    destruct (deliver_one w e [] r Hi Hl) as (Hs & Hi' & Hl' & Hp).
    done.
  - destruct rs as [| r rs]; [done |].
    destruct (deliver_one w e (e2 :: rest) r Hi Hl) as (Hs & Hi' & Hl').
    injection Hlen as Hlen.
    change (UserQueue.exec (UserQueue.deliveries (r :: rs)) w)
      with (UserQueue.exec (UserQueue.deliveries rs)
              (UserQueue.exec [Queue.Settle 0 r; Queue.Continue 0] w)).
    destruct (IH _ e2 rs Hi' Hl' Hlen) as (Hs2 & Hrest).
    split; [| done]. rewrite Hs2, Hs, <- app_assoc. done.
Qed.

Lemma user_queue_completes (l : list P) (rs : list (outcome E)) :
  length rs = length l →
  let w :=
    UserQueue.exec (map Queue.Enqueue l ++ UserQueue.deliveries rs)
      UserQueue.new in
  Queue.settled w = zip (seq 0 (length l)) rs
  ∧ Queue.items (Queue.queue w) = []
  ∧ Queue.loops w = []
  ∧ Queue.processing (Queue.queue w) = false.
Proof.
  intros Hlen. unfold UserQueue.exec, Queue.exec. rewrite foldl_app.
  destruct l as [| i l].
  { by destruct rs. }
  cbn [map foldl]. set (w1 := Queue.step _ _ UserQueue.new (Queue.Enqueue i)).
  destruct (enqueue_while_busy l w1 eq_refl) as (Hi & Hp & Hl & Hs).
  unfold UserQueue.exec, Queue.exec in *.
  set (w2 := foldl _ w1 _) in *.
  destruct (deliver_all rs w2 (Queue.Entry i 0)
              (UserQueue.entries_from 1 l) Hi Hl) as (Hs2 & Hrest).
  { cbn. rewrite Hlen. f_equal.
    by rewrite <- (length_map Queue.handle), handle_entries_from,
      length_seq. }
  unfold UserQueue.exec, Queue.exec in *.
  split; [| done]. rewrite Hs2, Hs. cbn. by rewrite handle_entries_from.
Qed.

End UserQueueFacts.

(** ** The state machine *)

Section StateMachineFacts.

Import StateMachine.
Implicit Types (m : StateMachine.t) (h : Heap).

Lemma allows_elem_of m x :
  allows m x = true ↔ x ∈ default [] (transitions m !! current m).
Proof. unfold allows. apply bool_decide_eq_true. Qed.

(** [transition], case by case. *)
Lemma transition_refused m h x :
  allows m x = false →
  transition x m h = (inl (InvalidTransition (current m) x), m, h).
Proof. intros Ha. unfold transition. by rewrite Ha. Qed.

Lemma transition_allowed m h x :
  allows m x = true →
  transition x m h =
    match transitionResolvers m !! x with
    | Some p =>
        (inr (),
         mk x (transitions m) (delete x (transitionPromises m))
            (delete x (transitionResolvers m)),
         resolve_promise p h)
    | None =>
        (inr (),
         mk x (transitions m) (transitionPromises m)
            (transitionResolvers m), h)
    end.
Proof. intros Ha. unfold transition. by rewrite Ha. Qed.

(** On a well-formed machine the slot of the target is cleared in both
    tables, whether it was filled or not. *)
Lemma transition_allowed_wf m h x :
  wf m h → allows m x = true →
  transition x m h =
    (inr (),
     mk x (transitions m) (delete x (transitionPromises m))
        (delete x (transitionPromises m)),
     match transitionPromises m !! x with
     | Some p => resolve_promise p h
     | None => h
     end).
Proof.
  intros [_ Hsame _ _] Ha. rewrite (transition_allowed _ _ _ Ha), Hsame.
  destruct (transitionPromises m !! x) as [p |] eqn:Hp; [done |].
  by rewrite (delete_id _ _ Hp).
Qed.

Lemma until_current m h q :
  current m = q →
  until q m h = (next_promise h, m,
                 mkHeap (S (next_promise h))
                        ({[next_promise h]} ∪ resolved h)).
Proof.
  intros Hc. unfold until. by rewrite bool_decide_eq_true_2.
Qed.

Lemma until_registered m h q p :
  current m ≠ q → transitionPromises m !! q = Some p →
  until q m h = (p, m, h).
Proof.
  intros Hc Hp. unfold until.
  rewrite bool_decide_eq_false_2 by done. by rewrite Hp.
Qed.

Lemma until_fresh m h q :
  current m ≠ q → transitionPromises m !! q = None →
  until q m h =
    (next_promise h,
     mk (current m) (transitions m)
        (<[q := next_promise h]> (transitionPromises m))
        (<[q := next_promise h]> (transitionResolvers m)),
     mkHeap (S (next_promise h)) (resolved h)).
Proof.
  intros Hc Hp. unfold until.
  rewrite bool_decide_eq_false_2 by done. by rewrite Hp.
Qed.

Lemma wf_new tr h :
  (∀ p, p ∈ resolved h → p < next_promise h) → wf (new tr) h.
Proof.
  intros Hh. split; [done | done | |]; unfold new; cbn.
  - intros q p. by rewrite lookup_empty.
  - intros q1 q2 p. by rewrite lookup_empty.
Qed.

Lemma wf_empty_heap p : p ∈ resolved empty_heap → p < next_promise empty_heap.
Proof. cbn. set_solver. Qed.

Lemma wf_until m h q :
  wf m h → wf (until q m h).1.2 (until q m h).2.
Proof.
  intros [Hheap Hsame Hpend Hinj].
  destruct (decide (current m = q)) as [Hc | Hc].
  { rewrite (until_current _ _ _ Hc). cbn. split; [| done | | done]; cbn.
    - intros p [->%elem_of_singleton | Hp%Hheap]%elem_of_union; lia.
    - intros q' p Hp. destruct (Hpend _ _ Hp) as (? & ? & ?).
      repeat split; [done | lia |].
      intros [->%elem_of_singleton | ?]%elem_of_union; [lia | done]. }
  destruct (transitionPromises m !! q) as [p |] eqn:Hq.
  { by rewrite (until_registered _ _ _ _ Hc Hq). }
  rewrite (until_fresh _ _ _ Hc Hq). cbn. split; cbn.
  - intros p Hp%Hheap. lia.
  - by rewrite Hsame.
  - intros q' p. rewrite lookup_insert. case_decide as Hqq.
    + intros [= <-]. subst q'. repeat split; [done | lia |].
      intros Hin%Hheap. lia.
    + intros Hp. destruct (Hpend _ _ Hp) as (? & ? & ?).
      repeat split; [done | lia | done].
  - intros q1 q2 p. rewrite !lookup_insert.
    repeat case_decide; intros H1 H2; simplify_eq; try done.
    + destruct (Hpend _ _ H2) as (_ & ? & _). lia.
    + destruct (Hpend _ _ H1) as (_ & ? & _). lia.
    + eauto.
Qed.

Lemma wf_transition m h x :
  wf m h → wf (transition x m h).1.2 (transition x m h).2.
Proof.
  intros Hwf. destruct (allows m x) eqn:Ha.
  2: { by rewrite (transition_refused _ _ _ Ha). }
  rewrite (transition_allowed_wf _ _ _ Hwf Ha). cbn.
  destruct Hwf as [Hheap Hsame Hpend Hinj].
  split; cbn.
  - destruct (transitionPromises m !! x) as [p |] eqn:Hp; [| done].
    destruct (Hpend _ _ Hp) as (_ & ? & _). cbn.
    intros p' [->%elem_of_singleton | ?%Hheap]%elem_of_union; lia.
  - done.
  - intros q p. rewrite lookup_delete. case_decide as Hq; [done |].
    intros Hp. destruct (Hpend _ _ Hp) as (? & ? & ?).
    repeat split; [done | |].
    + by destruct (transitionPromises m !! x).
    + destruct (transitionPromises m !! x) as [p' |] eqn:Hp'; [| done].
      cbn. intros [->%elem_of_singleton | ?]%elem_of_union; [| done].
      apply Hq. eauto.
  - intros q1 q2 p. rewrite !lookup_delete.
    repeat case_decide; try done. eauto.
Qed.

Lemma wf_step s (o : op) : wf s.1 s.2 → wf (step s o).1 (step s o).2.
Proof.
  intros Hwf. destruct s as [m h], o as [q | x]; cbn.
  - pose proof (wf_until m h q Hwf) as H.
    by destruct (until q m h) as [[? ?] ?].
  - pose proof (wf_transition m h x Hwf) as H.
    by destruct (transition x m h) as [[? ?] ?].
Qed.

Lemma wf_exec (ops : list op) s :
  wf s.1 s.2 → wf (exec ops s).1 (exec ops s).2.
Proof.
  revert s. induction ops as [| o ops IH]; intros s Hs; [done |].
  apply IH, wf_step, Hs.
Qed.



End StateMachineFacts.

(** ** The lifecycle *)

Section LifecycleFacts.

Import Lifecycle.
Implicit Types (l : Lifecycle.t) (w : Lifecycle.world) (d : descriptor).

(** [#run], case by case. *)
Lemma run_refused d l :
  StateMachine.allows (stateMachine l) (interimState d) = false →
  run d l = (l, inr Ok).
Proof. intros Ha. unfold run. by rewrite Ha. Qed.

Lemma machine_transition_allowed x l :
  StateMachine.allows (stateMachine l) x = true →
  ∃ m h,
    StateMachine.transition x (stateMachine l) (heap l) = (inr (), m, h)
    ∧ machine_transition x l = (inr (), set_machine m h l)
    ∧ StateMachine.current m = x.
Proof.
  intros Ha. unfold machine_transition.
  rewrite (transition_allowed _ _ _ Ha).
  destruct (StateMachine.transitionResolvers (stateMachine l) !! x);
    eauto.
Qed.

(** Every edge of the lifecycle graph leads to one of the nine states. *)
Lemma lifecycle_edges (c x : string) :
  c ∈ labels → x ∈ default [] (lifecycle_transitions !! c) → x ∈ labels.
Proof.
  unfold labels. intros Hc.
  repeat (apply elem_of_cons in Hc as [-> | Hc]);
    [.. | by apply elem_of_nil in Hc];
    vm_compute (lifecycle_transitions !! _); cbn; intros Hx;
    repeat (apply elem_of_cons in Hx as [-> | Hx]);
    try (by apply elem_of_nil in Hx);
    apply list_elem_of_In; cbn; tauto.
Qed.

(** Lifting a property of the machine to the runner. *)
Section Lift.

Variable Θ : StateMachine.t → Heap → Prop.
Hypothesis Θ_until : ∀ q m h,
  Θ m h → Θ (StateMachine.until q m h).1.2 (StateMachine.until q m h).2.
Hypothesis Θ_transition : ∀ x m h,
  Θ m h →
  Θ (StateMachine.transition x m h).1.2
    (StateMachine.transition x m h).2.
Hypothesis Θ_new : ∀ m h,
  Θ m h → Θ (StateMachine.new lifecycle_transitions) h.

Lemma holds_machine_transition x l :
  holds Θ l → holds Θ (machine_transition x l).2.
Proof.
  intros [Hm Ht]. unfold machine_transition.
  pose proof (Θ_transition x _ _ Hm) as H.
  destruct (StateMachine.transition _ _ _) as [[r m] h]. by split.
Qed.

Lemma holds_run d l :
  holds Θ l →
  holds Θ (run d l).1 ∧ ∀ o, (run d l).2 = inr o → user_outcome o.
Proof.
  intros Hl. unfold run.
  destruct (StateMachine.allows _ _) eqn:Ha; cbn.
  2: { split; [done |]. by intros ? [= <-]. }
  pose proof (holds_machine_transition (interimState d) l Hl) as Hl1.
  destruct (machine_transition_allowed _ _ Ha) as (m & h & _ & Heq & _).
  rewrite Heq in Hl1 |- *. unfold notify. cbn.
  destruct (onTransition l (interimState d)); cbn.
  - split; [done |]. by intros.
  - split; [done |]. by intros ? [= <-].
Qed.

Lemma holds_run_resume d r l :
  holds Θ l →
  holds Θ (run_resume d r l).1 ∧ user_outcome (run_resume d r l).2.
Proof.
  intros Hl. unfold run_resume.
  destruct (operation_result _ _); [| done].
  destruct (bool_decide _ && StateMachine.allows _ _) eqn:Hc; [| done].
  apply andb_prop in Hc as [_ Ha].
  pose proof (holds_machine_transition (toState d) l Hl) as Hl1.
  destruct (machine_transition_allowed _ _ Ha) as (m & h & _ & Heq & _).
  rewrite Heq in Hl1 |- *. unfold notify. cbn.
  by destruct (onTransition l (toState d)).
Qed.

Lemma holds_do_call (c : call) w :
  Queue.sound (holds Θ) user_outcome w →
  Queue.sound (holds Θ) user_outcome (do_call c w).
Proof.
  intros Hw.
  assert (∀ f i x, Queue.sound (holds Θ) user_outcome
                     (enqueue f i x w).2) as Henq.
  { intros. by apply sound_enqueue; [apply holds_run |]. }
  destruct c as [| | | | o i x | q | f |]; cbn [do_call];
    try apply Henq.
  - unfold transition. destruct (lookup_operation _ _) as [f |]; [| done].
    specialize (Henq f i x).
    by destruct (enqueue f i x w) as [p w1].
  - unfold until.
    pose proof Hw as ([Hm Ht] & _).
    pose proof (Θ_until q _ _ Hm) as H.
    destruct (StateMachine.until _ _ _) as [[p m] h]. cbn.
    by apply sound_set_env.
  - destruct Hw as ([Hm Ht] & Hl & Hs). by repeat split.
  - pose proof Hw as ([Hm Ht] & _). apply sound_set_env; [| done].
    split; cbn; [| done]. rewrite Ht. by eapply Θ_new.
Qed.

Lemma holds_step w (ev : event) :
  Queue.sound (holds Θ) user_outcome w →
  Queue.sound (holds Θ) user_outcome (step w ev).
Proof.
  intros Hw. destruct ev as [c | k r | k]; cbn [step].
  - by apply holds_do_call.
  - by apply sound_settle; [apply holds_run_resume |].
  - by apply sound_continue; [apply holds_run |].
Qed.

Lemma holds_exec (evs : list event) w :
  Queue.sound (holds Θ) user_outcome w →
  Queue.sound (holds Θ) user_outcome (exec evs w).
Proof.
  revert w. induction evs as [| ev evs IH]; intros w Hw; [done |].
  apply IH, holds_step, Hw.
Qed.

End Lift.

(** The three properties that are lifted. *)
Lemma machine_ok_until q m h :
  machine_ok m h →
  machine_ok (StateMachine.until q m h).1.2 (StateMachine.until q m h).2.
Proof.
  intros (Ht & Hc & Hwf). pose proof (wf_until m h q Hwf) as Hwf1.
  unfold StateMachine.until in *.
  case_bool_decide; [done |].
  by destruct (StateMachine.transitionPromises m !! q).
Qed.

Lemma machine_ok_transition x m h :
  machine_ok m h →
  machine_ok (StateMachine.transition x m h).1.2
             (StateMachine.transition x m h).2.
Proof.
  intros (Ht & Hc & Hwf). pose proof (wf_transition m h x Hwf) as Hwf1.
  destruct (StateMachine.allows m x) eqn:Ha.
  2: { by rewrite (transition_refused _ _ _ Ha). }
  rewrite (transition_allowed_wf _ _ _ Hwf Ha) in Hwf1 |- *.
  split; [done |]. split; [| done]. cbn.
  apply allows_elem_of in Ha. rewrite Ht in Ha.
  by apply (lifecycle_edges (StateMachine.current m)).
Qed.

Lemma machine_ok_new m h :
  machine_ok m h → machine_ok (StateMachine.new lifecycle_transitions) h.
Proof.
  intros (_ & _ & Hwf). split; [done |]. split.
  - apply list_elem_of_In. cbn. tauto.
  - apply wf_new, (StateMachine.wf_heap _ _ Hwf).
Qed.

Lemma created_until p q m h :
  created p m h →
  created p (StateMachine.until q m h).1.2 (StateMachine.until q m h).2.
Proof.
  unfold created, StateMachine.until. intros Hp.
  case_bool_decide; cbn; [lia |].
  destruct (StateMachine.transitionPromises m !! q); cbn; lia.
Qed.

Lemma created_transition p x m h :
  created p m h →
  created p (StateMachine.transition x m h).1.2
            (StateMachine.transition x m h).2.
Proof.
  unfold created, StateMachine.transition. intros Hp.
  destruct (negb _); [done |]. cbn.
  by destruct (StateMachine.transitionResolvers m !! x).
Qed.

Lemma forgotten_until p q m h :
  forgotten p m h →
  forgotten p (StateMachine.until q m h).1.2 (StateMachine.until q m h).2.
Proof.
  intros (Hlt & Hres & Htab). unfold StateMachine.until.
  case_bool_decide; cbn.
  - split; [cbn; lia |]. split; [| done]. cbn.
    intros [->%elem_of_singleton | ?]%elem_of_union; [lia | done].
  - destruct (StateMachine.transitionPromises m !! q); cbn; [done |].
    split; [cbn; lia |]. split; [done |]. intros q'. cbn. split.
    + rewrite lookup_insert. case_decide; [| apply Htab].
      intros [= Heq]. lia.
    + rewrite lookup_insert. case_decide; [| apply Htab].
      intros [= Heq]. lia.
Qed.

Lemma forgotten_transition p x m h :
  forgotten p m h →
  forgotten p (StateMachine.transition x m h).1.2
              (StateMachine.transition x m h).2.
Proof.
  intros (Hlt & Hres & Htab). unfold StateMachine.transition.
  destruct (negb _); [done |]. cbn.
  destruct (StateMachine.transitionResolvers m !! x) as [p' |] eqn:Hp';
    cbn; [| done].
  split; [done |]. split; [| intros q; cbn; split].
  - cbn. intros [->%elem_of_singleton | ?]%elem_of_union; [| done].
    by apply (proj1 (Htab x)).
  - rewrite lookup_delete. case_decide; [done | apply Htab].
  - rewrite lookup_delete. case_decide; [done | apply Htab].
Qed.

Lemma forgotten_new p m h :
  forgotten p m h → forgotten p (StateMachine.new lifecycle_transitions) h.
Proof.
  intros (Hlt & Hres & _). split; [done |]. split; [done |].
  intros q. cbn. by rewrite !lookup_empty.
Qed.

(** A fresh controller. *)
Lemma sound_fresh (o : handlers) :
  Queue.sound (holds machine_ok) user_outcome (new o).
Proof.
  apply sound_new. split; [| done]. split; [done |]. split.
  - apply list_elem_of_In. cbn. tauto.
  - apply wf_new, wf_empty_heap.
Qed.

Lemma reachable_sound (o : handlers) (evs : list event) :
  Queue.sound (holds machine_ok) user_outcome (exec evs (new o)).
Proof.
  apply holds_exec.
  - intros. by apply machine_ok_until.
  - intros. by apply machine_ok_transition.
  - intros. by eapply machine_ok_new.
  - apply sound_fresh.
Qed.

Lemma exec_app (evs1 evs2 : list event) w :
  exec (evs1 ++ evs2) w = exec evs2 (exec evs1 w).
Proof. apply foldl_app. Qed.

(** The promise that [until] returns exists afterwards. *)
Lemma until_created q m h :
  StateMachine.wf m h →
  created (StateMachine.until q m h).1.1
          (StateMachine.until q m h).1.2 (StateMachine.until q m h).2.
Proof.
  intros Hwf. unfold created, StateMachine.until.
  case_bool_decide; cbn; [lia |].
  destruct (StateMachine.transitionPromises m !! q) as [p |] eqn:Hp;
    cbn; [| lia].
  by destruct (StateMachine.wf_pending _ _ Hwf _ _ Hp) as (_ & ? & _).
Qed.

(** A promise that is in neither table is not the one [until] returns. *)
Lemma until_not_forgotten p q m h :
  forgotten p m h → (StateMachine.until q m h).1.1 ≠ p.
Proof.
  intros (Hlt & _ & Htab). unfold StateMachine.until.
  case_bool_decide; cbn; [lia |].
  destruct (StateMachine.transitionPromises m !! q) as [p' |] eqn:Hp;
    cbn; [| lia].
  intros ->. by apply (Htab q).
Qed.

(** After [reset()] a pending promise is out of reach for good. *)
Lemma forgotten_after_reset p (evs : list event) w :
  Queue.sound (holds machine_ok) user_outcome w →
  created p (stateMachine (Queue.env w)) (heap (Queue.env w)) →
  p ∉ resolved (heap (Queue.env w)) →
  let w' := exec (Call CallReset :: evs) w in
  forgotten p (stateMachine (Queue.env w')) (heap (Queue.env w')).
Proof.
  intros Hw Hc Hp w'.
  change w' with (exec evs (reset w)) in *. clear w'.
  assert (Queue.sound (holds (forgotten p)) user_outcome
            (exec evs (reset w))) as Hw'.
  { apply holds_exec.
    - intros. by apply forgotten_until.
    - intros. by apply forgotten_transition.
    - intros. by eapply forgotten_new.
    - destruct Hw as ([_ Ht] & Hl & Hs).
      split; [| done]. split; [| done]. cbn.
      split; [done |]. split; [done |].
      intros q. cbn. by rewrite !lookup_empty. }
  by destruct Hw' as ([? _] & _).
Qed.

End LifecycleFacts.

(** ** The tests of the repository, run on the model *)

Section RepositoryTests.

Import Lifecycle.

(** basic open/close flow works *)
Example test_open_close :
  let w1 := exec (Call CallOpen :: succeeds) (new open_close_handlers) in
  let w2 := exec (Call CallClose :: succeeds) w1 in
  state (new open_close_handlers) = "init"
  ∧ state w1 = "opened" ∧ calls (Queue.env w1) = [user "open"]
  ∧ state w2 = "closed"
  ∧ calls (Queue.env w2) = [user "open"; user "close"]
  ∧ Queue.settled w2 = [(0, Ok); (1, Ok)].
Proof. vm_compute. repeat split. Qed.

(** cannot suspend before opening; cannot resume before suspending *)
Example test_suspend_resume_too_early :
  let w1 := exec [Call CallSuspend; Continue 0] (new open_close_handlers) in
  let w2 :=
    exec (Call CallOpen :: succeeds ++ [Call CallResume; Continue 0])
      (new open_close_handlers) in
  state w1 = "init" ∧ Queue.settled w1 = [(0, Ok)]
  ∧ state w2 = "opened" ∧ Queue.settled w2 = [(0, Ok); (1, Ok)]
  ∧ calls (Queue.env w2) = [user "open"].
Proof. vm_compute. repeat split. Qed.

(** handles concurrent state changes *)
Example test_concurrent_state_changes :
  let log : observer := λ _, Returns in
  let w :=
    exec (Call (CallOn log) :: Call CallOpen :: succeeds
          ++ Call CallSuspend :: Call CallClose :: succeeds ++ succeeds)
      (new open_close_handlers) in
  notified (Queue.env w)
  = ["opening"; "opened"; "suspending"; "suspended"; "closing"; "closed"]
  ∧ state w = "closed" ∧ Queue.loops w = [].
Proof. vm_compute. repeat split. Qed.

(** can close while suspending *)
Example test_close_while_suspending :
  let w1 :=
    exec (Call CallOpen :: succeeds ++ [Call CallSuspend])
      (new (Handlers (Some "open") (Some "close") (Some "suspend") None)) in
  let w2 := exec (Call CallClose :: succeeds ++ succeeds) w1 in
  state w1 = "suspending" ∧ state w2 = "closed"
  ∧ Queue.settled w2 = [(0, Ok); (1, Ok); (2, Ok)].
Proof. vm_compute. repeat split. Qed.

(** Queue handles errors properly *)
Example test_queue_errors :
  let await r : list (@Queue.event string (outcome string)) :=
    [Queue.Settle 0 r; Queue.Continue 0] in
  let w :=
    UserQueue.exec
      (Queue.Enqueue "success" :: await Ok
       ++ Queue.Enqueue "error" :: await (Err "test error")
       ++ Queue.Enqueue "continue" :: await Ok)
      UserQueue.new in
  Queue.settled w = [(0, Ok); (1, Err "test error"); (2, Ok)]
  ∧ map Queue.item (Queue.started w) = ["success"; "error"; "continue"].
Proof. vm_compute. repeat split. Qed.

(** StateMachine handles invalid transitions *)
Example test_invalid_transition :
  let m := StateMachine.new sample_transitions in
  StateMachine.state m = "init"
  ∧ StateMachine.allows m "started" = true
  ∧ StateMachine.allows m "stopped" = false
  ∧ StateMachine.transition "stopped" m empty_heap
    = (inl (InvalidTransition "init" "stopped"), m, empty_heap)
  ∧ message (InvalidTransition "init" "stopped")
    = "Invalid transition from init to stopped".
Proof. vm_compute. repeat split. Qed.

(** StateMachine waits for state changes *)
Example test_waiters :
  let s0 := (StateMachine.new processing_transitions, empty_heap) in
  let waiter1 := (StateMachine.until "complete" s0.1 s0.2).1.1 in
  let s1 :=
    StateMachine.exec [StateMachine.Until "complete";
                       StateMachine.Until "error";
                       StateMachine.Transition "processing";
                       StateMachine.Transition "error"] s0 in
  let s2 :=
    StateMachine.exec [StateMachine.Transition "init";
                       StateMachine.Transition "processing";
                       StateMachine.Transition "complete"] s1 in
  waiter1 = 0
  ∧ StateMachine.state s1.1 = "error" ∧ resolved s1.2 = {[1]}
  ∧ StateMachine.state s2.1 = "complete" ∧ resolved s2.2 = {[0; 1]}.
Proof. vm_compute. repeat split. Qed.

End RepositoryTests.



(** C9.  Whatever is done to a controller (calls of [open], [suspend],
    [resume], [close], [reset], [on], [until] and of [transition] with any
    operator name and any two state labels, handlers that succeed or fail,
    continuations run in any order), its state is one of the nine labels of
    the lifecycle graph. *)
Theorem C9_state_is_a_lifecycle_label
    (o : Lifecycle.handlers) (evs : list Lifecycle.event) :
  Lifecycle.state (Lifecycle.exec evs (Lifecycle.new o)) ∈ Lifecycle.labels.
Proof.
  destruct (reachable_sound o evs) as ([(_ & Hc & _) _] & _). exact Hc.
Qed.

(** C7.  When the handler has succeeded, the rest of the runner makes the
    final transition and tells the observer exactly when the state is still
    the interim state and the graph has an edge from it to the final state:
    then the machine makes [transition(toState)] and the observer is called
    once, with [toState], and the runner succeeds unless the observer
    throws; otherwise nothing at all changes and the runner succeeds. *)
Theorem C7_final_transition_iff
    (d : Lifecycle.descriptor) (r : Lifecycle.result) (l : Lifecycle.t) :
  Lifecycle.operation_result (Lifecycle.operation d) r = Lifecycle.Returns →
  let still :=
    StateMachine.state (Lifecycle.stateMachine l) = Lifecycle.interimState d
    ∧ StateMachine.allows (Lifecycle.stateMachine l) (Lifecycle.toState d)
      = true in
  let '(l', out) := Lifecycle.run_resume d r l in
  (still ↔
     Lifecycle.notified l' = Lifecycle.notified l ++ [Lifecycle.toState d])
  ∧ (still →
       StateMachine.transition (Lifecycle.toState d)
         (Lifecycle.stateMachine l) (Lifecycle.heap l)
       = (inr (), Lifecycle.stateMachine l', Lifecycle.heap l')
       ∧ StateMachine.state (Lifecycle.stateMachine l') = Lifecycle.toState d
       ∧ Lifecycle.calls l' = Lifecycle.calls l
       ∧ out = match Lifecycle.onTransition l (Lifecycle.toState d) with
               | Lifecycle.Returns => Ok
               | Lifecycle.Throws v => Err (Thrown v)
               end)
  ∧ (¬ still → l' = l ∧ out = Ok).
Proof.
  intros Hr still. unfold Lifecycle.run_resume. rewrite Hr.
  destruct (bool_decide _ && StateMachine.allows _ _) eqn:Hc.
  - apply andb_prop in Hc as [Hs%bool_decide_eq_true Ha].
    assert still as Hstill by done.
    destruct (machine_transition_allowed _ _ Ha) as (m & h & Ht & Heq & Hm).
    rewrite Heq. unfold Lifecycle.notify. cbn.
    destruct (Lifecycle.onTransition l (Lifecycle.toState d)) eqn:Ho;
      cbn; (split; [done |]); (split; [done | tauto]).
  - assert (¬ still) as Hn.
    { intros [Hs Ha]. rewrite Ha, andb_true_r in Hc.
      by apply bool_decide_eq_false in Hc. }
    split; [| split; [done | done]].
    split; [done |]. intros Heq.
    apply (f_equal length) in Heq. rewrite length_app in Heq. cbn in Heq. lia.
Qed.

(** C1.  A descriptor whose interim state the current state does not allow
    is a no-op of the runner: [#run] returns success at once, leaves the
    controller as it is (state, handlers called, observer calls), and the
    drain loop that took the descriptor resolves its promise.  Two [open()]
    calls in a row on a fresh controller call the open handler once,
    whatever it does; when it succeeds both calls succeed and the state ends
    at [opened]. *)
Theorem C1_disallowed_interim_is_noop :
  (∀ (d : Lifecycle.descriptor) (l : Lifecycle.t),
     StateMachine.allows (Lifecycle.stateMachine l) (Lifecycle.interimState d)
       = false →
     Lifecycle.run d l = (l, inr Ok))
  ∧ (∀ (w : Lifecycle.world) e rest,
       Queue.items (Queue.queue w) = e :: rest →
       Queue.loops w = [] →
       StateMachine.allows (Lifecycle.stateMachine (Queue.env w))
         (Lifecycle.interimState (Queue.item e)) = false →
       let w1 := Queue.drain Lifecycle.run w in
       Queue.env w1 = Queue.env w
       ∧ Queue.loops w1 = [Queue.Activation e (inr Ok)]
       ∧ Queue.settled (Queue.continue Lifecycle.run 0 w1)
         = Queue.settled w ++ [(Queue.handle e, Ok)])
  ∧ (∀ (o : Lifecycle.handlers) (r : Lifecycle.result),
       let w0 := Lifecycle.new o in
       let f := Lifecycle.op_open (Lifecycle.operations (Queue.env w0)) in
       let w2 :=
         Lifecycle.exec [Lifecycle.Call Lifecycle.CallOpen;
                         Lifecycle.Call Lifecycle.CallOpen] w0 in
       let w :=
         Lifecycle.exec [Lifecycle.OperationSettles 0 r;
                         Lifecycle.Continue 0; Lifecycle.Continue 0] w2 in
       Lifecycle.calls (Queue.env w2) = [f]
       ∧ Lifecycle.calls (Queue.env w) = [f]
       ∧ Queue.loops w = []
       ∧ (Lifecycle.operation_result f r = Lifecycle.Returns →
          Lifecycle.state w = "opened"
          ∧ Queue.settled w = [(0, Ok); (1, Ok)])).
Proof.
  split; [exact run_refused |]. split.
  - intros w e rest Hi Hl Ha. unfold Queue.drain. rewrite Hi.
    rewrite (run_refused _ _ Ha). cbn. rewrite Hl. cbn.
    split; [done |]. split; [done |].
    unfold Queue.drain. cbn. rewrite Hi. cbn.
    destruct rest as [| e2 rest]; [done |].
    by destruct (Lifecycle.run (Queue.item e2) (Queue.env w)).
  - intros [[f |] hc hs hr] [| v]; vm_compute; (repeat split; try done).
Qed.

(** C3.  On a fresh controller whose open handler throws ["boom"]: the
    [open()] call is rejected with ["boom"] and the state stays at
    [opening]; a second [open()] without [reset()] succeeds without calling
    the handler and the state stays at [opening]; [reset()] brings the state
    back to [init], and a further [open()] calls the handler again. *)
Theorem C3_failed_open_parks_at_opening
    (f : string) (hc hs hr : option string) :
  let w0 := Lifecycle.new (Lifecycle.Handlers (Some f) hc hs hr) in
  let w1 :=
    Lifecycle.exec [Lifecycle.Call Lifecycle.CallOpen;
                    Lifecycle.OperationSettles 0 (Lifecycle.Throws "boom");
                    Lifecycle.Continue 0] w0 in
  let w2 :=
    Lifecycle.exec [Lifecycle.Call Lifecycle.CallOpen;
                    Lifecycle.Continue 0] w1 in
  let w3 := Lifecycle.exec [Lifecycle.Call Lifecycle.CallReset] w2 in
  let w4 := Lifecycle.exec [Lifecycle.Call Lifecycle.CallOpen] w3 in
  ((Lifecycle.open w0).1 = 0
   ∧ Queue.settled w1 = [(0, Err (Thrown "boom"))]
   ∧ Lifecycle.state w1 = "opening"
   ∧ Lifecycle.calls (Queue.env w1) = [Lifecycle.user f])
  ∧ ((Lifecycle.open w1).1 = 1
     ∧ Queue.settled w2 = [(0, Err (Thrown "boom")); (1, Ok)]
     ∧ Lifecycle.state w2 = "opening"
     ∧ Lifecycle.calls (Queue.env w2) = [Lifecycle.user f])
  ∧ (Lifecycle.state w3 = "init"
     ∧ Lifecycle.calls (Queue.env w4) = [Lifecycle.user f; Lifecycle.user f]
     ∧ Lifecycle.state w4 = "opening").
Proof. vm_compute. repeat split. Qed.

(** C4, as stated, fails: on a fresh controller
    [transition("open", "closing", "closed")] finds its operator, and
    [closing] is not an edge from [init]; the call is not rejected with
    InvalidTransition but resolves, the handler is not called and the state
    stays at [init]. *)
Lemma C4_generic_transition_does_not_raise :
  let w0 := Lifecycle.new (Lifecycle.Handlers (Some "f") None None None) in
  let '(r, w1) := Lifecycle.transition "open" "closing" "closed" w0 in
  let w2 := Lifecycle.exec [Lifecycle.Continue 0] w1 in
  Lifecycle.lookup_operation (Lifecycle.operations (Queue.env w0)) "open"
    = Some (Lifecycle.user "f")
  ∧ StateMachine.allows (Lifecycle.stateMachine (Queue.env w0)) "closing"
    = false
  ∧ r = inr 0
  ∧ Queue.settled w2 = [(0, Ok)]
  ∧ Queue.loops w2 = []
  ∧ Lifecycle.state w2 = "init"
  ∧ Lifecycle.calls (Queue.env w2) = [].
Proof. vm_compute. repeat split. Qed.

(** C4, amended.  The generic [transition(operator, interimState, toState)],
    once the operator is found, only enqueues a descriptor, as [open()],
    [suspend()], [resume()] and [close()] do; when [interimState] is not an
    edge from the current state the runner is a no-op for it as for theirs;
    and no call of any of the five is ever rejected with InvalidTransition
    (or with any error of the library): a promise of the queue is resolved,
    or rejected with what user code threw. *)
Theorem C4_no_call_raises_invalid_transition
    (o : Lifecycle.handlers) (evs : list Lifecycle.event)
    (operator interimState toState : string) (f : Lifecycle.callback) :
  let w := Lifecycle.exec evs (Lifecycle.new o) in
  Lifecycle.lookup_operation (Lifecycle.operations (Queue.env w)) operator
    = Some f →
  let d := Lifecycle.Descriptor f interimState toState in
  (∃ p w1,
     Lifecycle.transition operator interimState toState w = (inr p, w1)
     ∧ w1 = (Queue.enqueue Lifecycle.run d w).2
     ∧ Queue.enqueued w1 = Queue.enqueued w ++ [Queue.Entry d p])
  ∧ (∀ l : Lifecycle.t,
       StateMachine.allows (Lifecycle.stateMachine l) interimState = false →
       Lifecycle.run d l = (l, inr Ok))
  ∧ (∀ (evs' : list Lifecycle.event) p e,
       (p, Err e) ∈ Queue.settled (Lifecycle.exec evs' w) →
       ∃ v, e = Thrown v).
Proof.
  intros w Hop d. split; [| split].
  - unfold Lifecycle.transition. rewrite Hop. unfold Lifecycle.enqueue.
    fold d. pose proof (enqueued_enqueue Lifecycle.run w d) as He.
    destruct (Queue.enqueue Lifecycle.run d w) as [p w1].
    by exists p, w1.
  - intros l Ha. by apply run_refused.
  - intros evs' p e Hin. subst w. rewrite <- exec_app in Hin.
    destruct (reachable_sound o (evs ++ evs')) as (_ & _ & Hs).
    apply (proj1 (Forall_forall _ _) Hs) in Hin. cbn in Hin.
    destruct e; [done | done | by eexists].
Qed.

(** C10.  A promise obtained from [until(S)] that is still pending when
    [reset()] is called (so [S] has not been reached since it was asked
    for) belongs to the machine that [reset()] discards: nothing that
    happens afterwards resolves it, whatever state the new machine reaches.
    An [until(S)] called afterwards returns another promise, which is
    resolved when the new machine is in [S] and otherwise waits in the new
    machine's slot for [S].  ([S] is not a name that the waiter tables
    inherit.) *)
Theorem C10_waiters_do_not_survive_reset
    (o : Lifecycle.handlers) (evs0 evs1 evs2 : list Lifecycle.event)
    (S : string) :
  let w0 := Lifecycle.exec evs0 (Lifecycle.new o) in
  let '(p, w1) := Lifecycle.until S w0 in
  let w2 := Lifecycle.exec evs1 w1 in
  let w3 := Lifecycle.exec (Lifecycle.Call Lifecycle.CallReset :: evs2) w2 in
  let '(p', w4) := Lifecycle.until S w3 in
  S ∉ object_prototype_names →
  p ∉ resolved (Lifecycle.heap (Queue.env w2)) →
  (p ∉ resolved (Lifecycle.heap (Queue.env w3)))
  ∧ (p ∉ resolved (Lifecycle.heap (Queue.env w4)))
  ∧ p' ≠ p
  ∧ (Lifecycle.state w3 = S →
       p' ∈ resolved (Lifecycle.heap (Queue.env w4)))
  ∧ (Lifecycle.state w3 ≠ S →
       StateMachine.transitionResolvers
         (Lifecycle.stateMachine (Queue.env w4)) !! S = Some p').
Proof.
  intros w0.
  pose proof (reachable_sound o
                (evs0 ++ [Lifecycle.Call (Lifecycle.CallUntil S)])) as Hw1.
  rewrite exec_app in Hw1. fold w0 in Hw1. cbn in Hw1.
  pose proof (reachable_sound o evs0) as ([(_ & _ & Hwf) _] & _).
  fold w0 in Hwf. pose proof (until_created S _ _ Hwf) as Hc.
  unfold Lifecycle.until at 1. unfold Lifecycle.until in Hw1.
  destruct (StateMachine.until S _ _) as [[p m] h]. cbn in Hc, Hw1.
  set (w1 := Queue.set_env _ w0) in *.
  set (w2 := Lifecycle.exec evs1 w1) in *.
  set (w3 := Lifecycle.exec _ w2) in *.
  assert (Queue.sound (Lifecycle.holds (Lifecycle.created p))
            Lifecycle.user_outcome w2) as Hw2.
  { apply holds_exec.
    - intros. by apply created_until.
    - intros. by apply created_transition.
    - done.
    - pose proof Hw1 as ([_ Ht] & _). eapply sound_weaken; [| exact Hw1].
      by split. }
  assert (Queue.sound (Lifecycle.holds Lifecycle.machine_ok)
            Lifecycle.user_outcome w2) as Hok2.
  { apply holds_exec; [| | | done].
    - intros. by apply machine_ok_until.
    - intros. by apply machine_ok_transition.
    - intros. by eapply machine_ok_new. }
  assert (Queue.sound (Lifecycle.holds Lifecycle.machine_ok)
            Lifecycle.user_outcome w3) as Hok3.
  { apply holds_exec; [| | | done].
    - intros. by apply machine_ok_until.
    - intros. by apply machine_ok_transition.
    - intros. by eapply machine_ok_new. }
  destruct Hw2 as ([Hc2 _] & _).
  destruct Hok3 as ([(_ & _ & Hwf3) _] & _).
  unfold Lifecycle.until, Lifecycle.state, StateMachine.state.
  set (m3 := Lifecycle.stateMachine (Queue.env w3)) in *.
  set (h3 := Lifecycle.heap (Queue.env w3)) in *.
  assert (p ∉ resolved (Lifecycle.heap (Queue.env w2)) →
          Lifecycle.forgotten p m3 h3) as Hf.
  { intros Hp. exact (forgotten_after_reset p evs2 w2 Hok2 Hc2 Hp). }
  pose proof (forgotten_until p S m3 h3) as Hf4.
  pose proof (until_not_forgotten p S m3 h3) as Hne.
  pose proof (wf_until _ _ S Hwf3) as Hwf4.
  assert (StateMachine.current m3 = S →
          (StateMachine.until S m3 h3).1.1
            ∈ resolved (StateMachine.until S m3 h3).2) as Hres.
  { intros Hs. rewrite (until_current _ _ _ Hs). cbn.
    by apply elem_of_union_l, elem_of_singleton. }
  assert (StateMachine.current m3 ≠ S →
          StateMachine.transitionPromises (StateMachine.until S m3 h3).1.2
            !! S = Some (StateMachine.until S m3 h3).1.1) as Hslot.
  { intros Hs.
    destruct (StateMachine.transitionPromises m3 !! S) as [p0 |] eqn:Hp0.
    - by rewrite (until_registered _ _ _ _ Hs Hp0).
    - rewrite (until_fresh _ _ _ Hs Hp0). cbn. apply lookup_insert_eq. }
  destruct (StateMachine.until S m3 h3) as [[p' m4] h4]. cbn in *.
  intros _ Hp. specialize (Hf Hp). specialize (Hf4 Hf). specialize (Hne Hf).
  split; [by destruct Hf as (_ & ? & _) |].
  split; [by destruct Hf4 as (_ & ? & _) |].
  split; [done |]. split; [done |].
  intros Hs. rewrite (StateMachine.wf_same _ _ Hwf4). by apply Hslot.
Qed.

(** C2.  In every behaviour of a queue, whatever its processor, whenever
    items are enqueued and however long each processor call takes.  At
    most one processor call is in flight: at most one drain loop exists,
    and the calls started exceed the promises settled by one at most.
    Every [enqueue] call of the behaviour has pushed its item and got a
    promise of its own, numbered in the order of the calls.  The promises
    settled so far are those of the first items enqueued, in the order of
    enqueueing, and the items whose promise is not settled are those in
    [#items], in that order; the processor has been called on the items in
    that order too.  And the queue goes on to settle them all: when the
    processor has settled for each pending item, every promise is settled,
    in the order of enqueueing, the processor has been called on every
    item, and the queue is at rest. *)
Theorem C2_queue_single_flight_in_order
    {P X K R E : Type}
    (processor : P → X → X * (K + outcome E))
    (processor_resume : K → R → X → X * outcome E)
    (x : X) (evs : list (@Queue.event P R)) (rs : nat → R) :
  let w := Queue.exec processor processor_resume evs (Queue.new x) in
  let n := length (Queue.arrivals evs) in
  let pending := Queue.items (Queue.queue w) in
  let w' :=
    Queue.exec processor processor_resume
      (Queue.deliveries rs 0 (length pending)) w in
  Queue.in_flight w ≤ 1
  ∧ length (Queue.loops w) ≤ 1
  ∧ map Queue.item (Queue.enqueued w) = Queue.arrivals evs
  ∧ map Queue.handle (Queue.enqueued w) = seq 0 n
  ∧ map Queue.handle (Queue.enqueued w)
    = map fst (Queue.settled w) ++ map Queue.handle pending
  ∧ map fst (Queue.settled w)
      `prefix_of` map Queue.handle (Queue.enqueued w)
  ∧ Queue.started w `prefix_of` Queue.enqueued w
  ∧ NoDup (map Queue.handle (Queue.enqueued w))
  ∧ map fst (Queue.settled w') = seq 0 n
  ∧ Queue.settled w `prefix_of` Queue.settled w'
  ∧ map Queue.item (Queue.started w') = Queue.arrivals evs
  ∧ Queue.idle w'.
Proof.
  intros w n pending w'.
  assert (Queue.inv w) as Hinv by apply inv_exec, inv_new.
  destruct (inv_single_flight w Hinv) as [Hl Hf].
  assert (map Queue.item (Queue.enqueued w) = Queue.arrivals evs) as Harr.
  { subst w. by rewrite arrivals_exec. }
  assert (map Queue.handle (Queue.enqueued w) = seq 0 n) as Hh.
  { rewrite (Queue.inv_handles _ Hinv). f_equal.
    pose proof (f_equal length (Queue.inv_handles _ Hinv)) as Hlen.
    rewrite length_map, length_seq in Hlen.
    subst n. by rewrite <- Harr, length_map. }
  destruct (deliveries_complete processor processor_resume rs
              (length pending) 0 w Hinv eq_refl) as (Hidle & He & Hs).
  fold w' in Hidle, He, Hs.
  assert (Queue.inv w') as Hinv' by by apply inv_exec.
  split; [done |]. split; [done |]. split; [done |]. split; [done |].
  split; [by apply inv_pending |].
  split; [by apply inv_settled_prefix |].
  split; [by apply inv_started_prefix |].
  split; [by apply inv_handles_NoDup |].
  split.
  { pose proof (inv_pending w' Hinv') as Hp'.
    destruct Hidle as (_ & _ & Hi'). rewrite Hi', app_nil_r in Hp'.
    by rewrite <- Hp', He. }
  split; [done |]. split; [| done].
  by rewrite (inv_idle_started w' Hinv' Hidle), He.
Qed.

(** C8.  In a queue whose processor is working on item [i] while item [i+1]
    waits: when the processor fails on [i] with an error, the promise of
    [i], and no other, is rejected with that error, the processor is then
    called on [i+1], and when it succeeds the promise of [i+1] is
    resolved. *)
Theorem C8_failure_does_not_stop_the_queue
    {P E : Type} (evs : list (@Queue.event P (outcome E)))
    (e1 e2 : @Queue.entry P) (rest : list (@Queue.entry P)) (er : E) :
  let w := UserQueue.exec evs UserQueue.new in
  Queue.items (Queue.queue w) = e1 :: e2 :: rest →
  Queue.loops w = [Queue.Activation e1 (inl ())] →
  let w1 := UserQueue.exec [Queue.Settle 0 (Err er); Queue.Continue 0] w in
  let w2 := UserQueue.exec [Queue.Settle 0 Ok; Queue.Continue 0] w1 in
  Queue.settled w1 = Queue.settled w ++ [(Queue.handle e1, Err er)]
  ∧ Queue.started w1 = Queue.started w ++ [e2]
  ∧ Queue.items (Queue.queue w1) = e2 :: rest
  ∧ Queue.loops w1 = [Queue.Activation e2 (inl ())]
  ∧ Queue.settled w2
    = Queue.settled w ++ [(Queue.handle e1, Err er); (Queue.handle e2, Ok)]
  ∧ Queue.items (Queue.queue w2) = rest.
Proof.
  intros w Hi Hl. cbn.
  unfold Queue.settle. rewrite Hl. cbn.
  unfold Queue.continue. cbn. unfold Queue.drain. cbn. rewrite Hi. cbn.
  unfold Queue.settle. cbn. unfold Queue.continue. cbn.
  unfold Queue.drain. cbn.
  repeat split; destruct rest; cbn; by rewrite <- ?app_assoc.
Qed.

(** ** The theorems at concrete inputs *)

(** [suspend()] on a fresh controller: [suspending] is not an edge from
    [init]. *)
Lemma C1_disallowed_interim_is_noop_witness :
  let l := Queue.env (Lifecycle.new sample_handlers) in
  let d := Lifecycle.Descriptor Lifecycle.noop "suspending" "suspended" in
  StateMachine.allows (Lifecycle.stateMachine l) (Lifecycle.interimState d)
    = false
  ∧ Lifecycle.run d l = (l, inr Ok).
Proof.
  intros l d.
  assert (StateMachine.allows (Lifecycle.stateMachine l)
            (Lifecycle.interimState d) = false) as H
    by (vm_compute; reflexivity).
  split; [exact H |].
  exact (proj1 C1_disallowed_interim_is_noop d l H).
Defined.

(** [transition("open", "closing", "closed")] on a fresh controller. *)
Lemma C4_no_call_raises_invalid_transition_witness :
  let w := Lifecycle.exec [] (Lifecycle.new sample_handlers) in
  Lifecycle.lookup_operation (Lifecycle.operations (Queue.env w)) "open"
    = Some (Lifecycle.user "f")
  ∧ ∀ (evs' : list Lifecycle.event) p e,
      (p, Err e) ∈ Queue.settled (Lifecycle.exec evs' w) →
      ∃ v, e = Thrown v.
Proof.
  intros w.
  assert (Lifecycle.lookup_operation
            (Lifecycle.operations (Queue.env w)) "open"
          = Some (Lifecycle.user "f")) as H
    by (vm_compute; reflexivity).
  split; [exact H |].
  exact (proj2 (proj2 (C4_no_call_raises_invalid_transition
                         sample_handlers [] "open" "closing" "closed"
                         (Lifecycle.user "f") H))).
Defined.



(** The open handler has succeeded and nothing else has happened. *)
Lemma C7_final_transition_iff_witness :
  let w :=
    Lifecycle.exec [Lifecycle.Call Lifecycle.CallOpen]
      (Lifecycle.new sample_handlers) in
  let d := Lifecycle.Descriptor (Lifecycle.user "f") "opening" "opened" in
  let '(l', out) := Lifecycle.run_resume d Lifecycle.Returns (Queue.env w) in
  Lifecycle.operation_result (Lifecycle.operation d) Lifecycle.Returns
    = Lifecycle.Returns
  ∧ StateMachine.state (Lifecycle.stateMachine (Queue.env w)) = "opening"
  ∧ StateMachine.state (Lifecycle.stateMachine l') = "opened"
  ∧ Lifecycle.notified l' = ["opening"; "opened"]
  ∧ out = Ok.
Proof.
  intros w d.
  pose proof (C7_final_transition_iff d Lifecycle.Returns (Queue.env w)
                eq_refl) as H.
  destruct (Lifecycle.run_resume _ _ _) as [l' out].
  destruct H as (Hiff & Hdo & _).
  assert (StateMachine.state (Lifecycle.stateMachine (Queue.env w))
            = Lifecycle.interimState d
          ∧ StateMachine.allows (Lifecycle.stateMachine (Queue.env w))
              (Lifecycle.toState d) = true) as Hstill
    by (split; vm_compute; reflexivity).
  destruct (Hdo Hstill) as (_ & Hs & _ & Hout).
  apply Hiff in Hstill.
  by repeat split.
Defined.

(** Two items are enqueued; the processor fails on the first. *)
Lemma C8_failure_does_not_stop_the_queue_witness :
  let evs : list (@Queue.event nat (outcome string)) :=
    [Queue.Enqueue 7; Queue.Enqueue 8] in
  let w := UserQueue.exec evs UserQueue.new in
  let w1 :=
    UserQueue.exec [Queue.Settle 0 (Err "test error"); Queue.Continue 0] w in
  let w2 := UserQueue.exec [Queue.Settle 0 Ok; Queue.Continue 0] w1 in
  Queue.items (Queue.queue w) = [Queue.Entry 7 0; Queue.Entry 8 1]
  ∧ Queue.loops w = [Queue.Activation (Queue.Entry 7 0) (inl ())]
  ∧ Queue.settled w2 = [(0, Err "test error"); (1, Ok)]
  ∧ Queue.items (Queue.queue w2) = [].
Proof.
  intros evs w w1 w2.
  assert (Queue.items (Queue.queue w) = [Queue.Entry 7 0; Queue.Entry 8 1])
    as Hi by reflexivity.
  assert (Queue.loops w = [Queue.Activation (Queue.Entry 7 0) (inl ())])
    as Hl by reflexivity.
  split; [exact Hi |]. split; [exact Hl |].
  destruct (C8_failure_does_not_stop_the_queue evs _ _ _ "test error" Hi Hl)
    as (_ & _ & _ & _ & Hs & Hr).
  split; [exact Hs | exact Hr].
Defined.

(** A caller waits for [opened] on a fresh controller, which is reset
    before it is ever opened, then opened: the new machine reaches
    [opened], the promise of the old one stays pending. *)
Lemma C10_waiters_do_not_survive_reset_witness :
  let w0 := Lifecycle.exec [] (Lifecycle.new sample_handlers) in
  let '(p, w1) := Lifecycle.until "opened" w0 in
  let w2 := Lifecycle.exec [] w1 in
  let w3 :=
    Lifecycle.exec [Lifecycle.Call Lifecycle.CallReset;
                    Lifecycle.Call Lifecycle.CallOpen;
                    Lifecycle.OperationSettles 0 Lifecycle.Returns;
                    Lifecycle.Continue 0] w2 in
  let '(p', w4) := Lifecycle.until "opened" w3 in
  ("opened" ∉ object_prototype_names)
  ∧ (p ∉ resolved (Lifecycle.heap (Queue.env w2)))
  ∧ Lifecycle.state w3 = "opened"
  ∧ (p ∉ resolved (Lifecycle.heap (Queue.env w3)))
  ∧ p' ≠ p
  ∧ p' ∈ resolved (Lifecycle.heap (Queue.env w4)).
Proof.
  intros w0.
  pose proof (C10_waiters_do_not_survive_reset sample_handlers [] []
                [Lifecycle.Call Lifecycle.CallOpen;
                 Lifecycle.OperationSettles 0 Lifecycle.Returns;
                 Lifecycle.Continue 0] "opened") as H.
  cbv zeta in H.
  change (Lifecycle.exec [] (Lifecycle.new sample_handlers)) with w0 in H.
  destruct (Lifecycle.until "opened" w0) as [p w1] eqn:Hu.
  intros w2 w3.
  change (Lifecycle.exec _ (Lifecycle.exec [] w1)) with w3 in H.
  destruct (Lifecycle.until "opened" w3) as [p' w4].
  assert (p ∉ resolved (Lifecycle.heap (Queue.env w2))) as Hp.
  { subst w2 w3. vm_compute in Hu. injection Hu as <- <-.
    apply not_elem_of_empty. }
  assert (Lifecycle.state w3 = "opened") as Hs.
  { subst w3 w2. vm_compute in Hu. injection Hu as <- <-.
    vm_compute. reflexivity. }
  assert ("opened" ∉ object_prototype_names) as Hown
    by (apply (bool_decide_unpack _); vm_compute; exact I).
  destruct (H Hown Hp) as (Hp3 & _ & Hne & Hres & _).
  split; [exact Hown |].
  split; [exact Hp |]. split; [exact Hs |]. split; [exact Hp3 |].
  split; [exact Hne | exact (Hres Hs)].
Defined.

(** * Further properties *)

(** ** The queue *)

Section QueueEquations.

Context {P X K R E : Type}.
Variable processor : P → X → X * (K + outcome E).
Variable processor_resume : K → R → X → X * outcome E.

Implicit Types w : @Queue.world P X K E.

(** [enqueue] on a queue at rest: the drain loop starts and calls the
    processor on the item at once. *)
Lemma enqueue_idle w (i : P) :
  Queue.idle w →
  Queue.enqueue processor i w
  = (Queue.next_handle w,
     let e := Queue.Entry i (Queue.next_handle w) in
     Queue.World (Queue.mk [e] true) (processor i (Queue.env w)).1
       [Queue.Activation e (processor i (Queue.env w)).2]
       (S (Queue.next_handle w)) (Queue.enqueued w ++ [e])
       (Queue.started w ++ [e]) (Queue.settled w)).
Proof.
  intros (Hl & Hp & Hi). unfold Queue.enqueue. cbn. rewrite Hp, Hi. cbn.
  unfold Queue.processQueue, Queue.drain. cbn. rewrite Hl.
  by destruct (processor i (Queue.env w)).
Qed.

(** [enqueue] while the drain loop is active only pushes. *)
Lemma enqueue_processing w (i : P) :
  Queue.processing (Queue.queue w) = true →
  Queue.enqueue processor i w
  = (Queue.next_handle w,
     let e := Queue.Entry i (Queue.next_handle w) in
     Queue.World (Queue.mk (Queue.items (Queue.queue w) ++ [e]) true)
       (Queue.env w) (Queue.loops w) (S (Queue.next_handle w))
       (Queue.enqueued w ++ [e]) (Queue.started w) (Queue.settled w)).
Proof. intros Hp. unfold Queue.enqueue. cbn. by rewrite Hp. Qed.

(** The processor call of the only loop settles. *)
Lemma settle_pending w e (s : K) (r : R) :
  Queue.loops w = [Queue.Activation e (inl s)] →
  Queue.settle processor_resume 0 r w
  = Queue.set_loops
      [Queue.Activation e (inr (processor_resume s r (Queue.env w)).2)]
      (Queue.set_env (processor_resume s r (Queue.env w)).1 w).
Proof.
  intros Hl. unfold Queue.settle. rewrite Hl. cbn.
  by destruct (processor_resume s r (Queue.env w)).
Qed.

(** A settlement that nothing waits for changes nothing. *)
Lemma settle_settled w e (o : outcome E) (r : R) :
  Queue.loops w = [Queue.Activation e (inr o)] →
  Queue.settle processor_resume 0 r w = w.
Proof. intros Hl. unfold Queue.settle. by rewrite Hl. Qed.

(** The only loop resumes on the last item: the queue comes to rest. *)
Lemma continue_last w e (o : outcome E) :
  Queue.loops w = [Queue.Activation e (inr o)] →
  Queue.items (Queue.queue w) = [e] →
  Queue.continue processor 0 w
  = Queue.World (Queue.mk [] false) (Queue.env w) [] (Queue.next_handle w)
      (Queue.enqueued w) (Queue.started w)
      (Queue.settled w ++ [(Queue.handle e, o)]).
Proof.
  intros Hl Hi. unfold Queue.continue. rewrite Hl. cbn.
  unfold Queue.drain. cbn. by rewrite Hi.
Qed.

End QueueEquations.

(** X1.  A queue never stalls: in every behaviour, for every processor,
    the flag [#processing] is false exactly when [#items] is empty and
    exactly when no drain loop exists; and when items are pending, the one
    drain loop is working on the head of [#items]. *)
Theorem queue_never_stalls
    {P X K R E : Type}
    (processor : P → X → X * (K + outcome E))
    (processor_resume : K → R → X → X * outcome E)
    (x : X) (evs : list (@Queue.event P R)) :
  let w := Queue.exec processor processor_resume evs (Queue.new x) in
  (Queue.processing (Queue.queue w) = false
   ↔ Queue.items (Queue.queue w) = [])
  ∧ (Queue.processing (Queue.queue w) = false ↔ Queue.loops w = [])
  ∧ (∀ e rest,
       Queue.items (Queue.queue w) = e :: rest →
       ∃ a, Queue.loops w = [Queue.Activation e a]).
Proof.
  intros w.
  assert (Queue.inv w) as [Hs _ _] by apply inv_exec, inv_new.
  destruct Hs as [(Hl & Hp & Hi) | (e & a & rest & Hl & Hp & Hi)];
    rewrite Hl, Hp, Hi.
  - repeat split; try done.
  - repeat split; try done. intros e' rest' [= <- <-]. by exists a.
Qed.

(** What [enqueue] does to a queue that satisfies the invariant: it
    returns a fresh promise and appends the item; it calls the processor
    on the item at once when the queue is at rest, and otherwise the item
    waits behind the others and nothing else changes. *)
Lemma enqueue_effect
    {P X K E : Type} (processor : P → X → X * (K + outcome E))
    (w : @Queue.world P X K E) (i : P) :
  Queue.inv w →
  let w' := (Queue.enqueue processor i w).2 in
  let e := Queue.Entry i (Queue.next_handle w) in
  (Queue.next_handle w ∉ map Queue.handle (Queue.enqueued w))
  ∧ Queue.enqueued w' = Queue.enqueued w ++ [e]
  ∧ Queue.settled w' = Queue.settled w
  ∧ Queue.processing (Queue.queue w') = true
  ∧ if Queue.processing (Queue.queue w) then
      Queue.started w' = Queue.started w
      ∧ Queue.env w' = Queue.env w
      ∧ Queue.loops w' = Queue.loops w
      ∧ Queue.items (Queue.queue w') = Queue.items (Queue.queue w) ++ [e]
    else
      Queue.started w' = Queue.started w ++ [e]
      ∧ Queue.env w' = (processor i (Queue.env w)).1
      ∧ Queue.loops w'
        = [Queue.Activation e (processor i (Queue.env w)).2]
      ∧ Queue.items (Queue.queue w') = [e].
Proof.
  intros [Hs Hh _].
  assert (Queue.next_handle w ∉ map Queue.handle (Queue.enqueued w)) as Hf.
  { rewrite Hh, elem_of_seq. lia. }
  destruct Hs as [Hidle | (e0 & a & rest & Hl & Hp & Hi)].
  - rewrite (enqueue_idle _ _ _ Hidle). destruct Hidle as (_ & -> & _).
    by cbn.
  - rewrite (enqueue_processing _ _ _ Hp), Hp. by cbn.
Qed.

(** X4.  The queue settles its promises with the outcomes of the
    processor and with nothing else: a property that every outcome of the
    processor has, every outcome in the settlement log has.  (So, with a
    processor that never fails, no promise is ever rejected.) *)
Theorem queue_outcomes_are_the_processor_s
    {P X K R E : Type}
    (processor : P → X → X * (K + outcome E))
    (processor_resume : K → R → X → X * outcome E)
    (Ψ : outcome E → Prop) (x : X) (evs : list (@Queue.event P R)) :
  (∀ p y o, (processor p y).2 = inr o → Ψ o) →
  (∀ s r y, Ψ (processor_resume s r y).2) →
  ∀ h o,
    (h, o) ∈ Queue.settled
               (Queue.exec processor processor_resume evs (Queue.new x)) →
    Ψ o.
Proof.
  intros Hcall Hres.
  assert (∀ w, Queue.sound (λ _, True) Ψ w →
               Queue.sound (λ _, True) Ψ
                 (Queue.exec processor processor_resume evs w)) as Hexec.
  { induction evs as [| ev evs' IH]; intros w Hw; [done |].
    apply IH. destruct ev as [i | k r | k]; cbn [Queue.step].
    - apply sound_enqueue; [| done]. intros p y _. split; [done |].
      apply Hcall.
    - apply (sound_settle processor_resume); [| done].
      intros s r' y _. split; [done | apply Hres].
    - apply sound_continue; [| done]. intros p y _. split; [done |].
      apply Hcall. }
  intros h o Hin.
  destruct (Hexec (Queue.new x)) as (_ & _ & Hs); [by repeat split |].
  by apply (proj1 (Forall_forall _ _) Hs) in Hin.
Qed.

(** ** The state machine *)

Section StateMachineMore.

Import StateMachine.
Implicit Types (m : StateMachine.t) (h : Heap).

(** [until] changes neither the state nor the graph. *)
Lemma until_frame q m h :
  current (until q m h).1.2 = current m
  ∧ transitions (until q m h).1.2 = transitions m.
Proof.
  unfold until. case_bool_decide; [done |].
  by destruct (transitionPromises m !! q).
Qed.

(** [transition] keeps the graph, and moves to its target or stays. *)
Lemma transition_frame x m h :
  transitions (transition x m h).1.2 = transitions m
  ∧ current (transition x m h).1.2
    = if allows m x then x else current m.
Proof.
  unfold transition. destruct (allows m x); cbn; [| done].
  by destruct (transitionResolvers m !! x).
Qed.

(** A promise that is resolved stays resolved. *)
Lemma resolved_step s (o : op) p :
  p ∈ resolved s.2 → p ∈ resolved (step s o).2.
Proof.
  destruct s as [m h], o as [q | x]; cbn; intros Hp.
  - unfold until. case_bool_decide; cbn.
    + by apply elem_of_union_r.
    + by destruct (transitionPromises m !! q).
  - unfold transition. destruct (negb _); cbn; [done |].
    destruct (transitionResolvers m !! x); cbn; [| done].
    by apply elem_of_union_r.
Qed.

Lemma resolved_exec (ops : list op) s p :
  p ∈ resolved s.2 → p ∈ resolved (exec ops s).2.
Proof.
  revert s. induction ops as [| o ops IH]; intros s Hp; [done |].
  by apply IH, resolved_step.
Qed.

End StateMachineMore.

(** X5.  The waiter tables of a state machine are consistent in every
    state it can be brought to, whatever its graph: the resolver table
    and the promise table are the same; there is no waiter for the current
    state; every promise in the tables is pending; and no promise waits
    for two states. *)
Theorem waiter_tables_are_consistent
    (tr : gmap string (list string)) (ops : list StateMachine.op) :
  let '(m, h) := StateMachine.exec ops (StateMachine.new tr, empty_heap) in
  StateMachine.transitionResolvers m = StateMachine.transitionPromises m
  ∧ StateMachine.transitionPromises m !! StateMachine.current m = None
  ∧ (∀ q p, StateMachine.transitionPromises m !! q = Some p →
            p ∉ resolved h)
  ∧ (∀ q1 q2 p,
       StateMachine.transitionPromises m !! q1 = Some p →
       StateMachine.transitionPromises m !! q2 = Some p → q1 = q2).
Proof.
  pose proof (wf_exec ops (StateMachine.new tr, empty_heap)
                (wf_new tr empty_heap wf_empty_heap)) as Hwf.
  destruct (StateMachine.exec _ _) as [m h]. cbn in Hwf.
  destruct Hwf as [_ Hsame Hpend Hinj].
  split; [done |]. split; [| split; [| done]].
  - destruct (StateMachine.transitionPromises m !! StateMachine.current m)
      as [p |] eqn:Hp; [| done].
    by destruct (Hpend _ _ Hp) as (? & _).
  - intros q p Hp. by destruct (Hpend _ _ Hp) as (_ & _ & ?).
Qed.

(** X6.  A state machine never changes its graph, and its state is always
    [init] or a state that the graph lists as a target: [transition] never
    moves to a state that is not in some array of the graph. *)
Theorem machine_state_is_a_listed_target
    (tr : gmap string (list string)) (ops : list StateMachine.op) :
  let '(m, h) := StateMachine.exec ops (StateMachine.new tr, empty_heap) in
  StateMachine.transitions m = tr
  ∧ (StateMachine.current m = "init"
     ∨ ∃ c l, tr !! c = Some l ∧ StateMachine.current m ∈ l).
Proof.
  assert (∀ s : StateMachine.t * Heap,
            StateMachine.transitions s.1 = tr
            ∧ (StateMachine.current s.1 = "init"
               ∨ ∃ c l, tr !! c = Some l ∧ StateMachine.current s.1 ∈ l) →
            let s' := StateMachine.exec ops s in
            StateMachine.transitions s'.1 = tr
            ∧ (StateMachine.current s'.1 = "init"
               ∨ ∃ c l, tr !! c = Some l ∧ StateMachine.current s'.1 ∈ l))
    as Hexec.
  { induction ops as [| o ops' IH]; intros s Hs; [done |].
    apply IH. destruct Hs as [Ht Hc]. destruct s as [m h], o as [q | x]; cbn.
    - destruct (until_frame q m h) as [Hc' Ht'].
      destruct (StateMachine.until q m h) as [[p m'] h']. cbn in *.
      by rewrite Hc', Ht'.
    - destruct (transition_frame x m h) as [Ht' Hc'].
      pose proof (allows_elem_of m x) as Ha.
      destruct (StateMachine.transition x m h) as [[r m'] h']. cbn in *.
      rewrite Ht', Hc'. split; [done |].
      destruct (StateMachine.allows m x); [| done].
      right. pose proof (proj1 Ha eq_refl) as Hx.
      rewrite Ht in Hx.
      destruct (tr !! StateMachine.current m) as [l |] eqn:Hl.
      + by exists (StateMachine.current m), l.
      + by apply elem_of_nil in Hx. }
  specialize (Hexec (StateMachine.new tr, empty_heap)).
  destruct (StateMachine.exec _ _) as [m h]. apply Hexec. by split; [| left].
Qed.

(** X7.  A state for which the graph has no entry, or an empty array, is a
    dead end: from then on every [transition] throws InvalidTransition and
    the state never changes, whatever is called.  (The state is not a name
    that the graph object inherits: for such a name
    [this.#transitions[this.#current]] is not a property of the graph.) *)
Theorem dead_end_state_is_final
    (m : StateMachine.t) (h : Heap) (ops : list StateMachine.op)
    (x : string) :
  StateMachine.current m ∉ object_prototype_names →
  default [] (StateMachine.transitions m !! StateMachine.current m) = [] →
  let '(m', h') := StateMachine.exec ops (m, h) in
  StateMachine.current m' = StateMachine.current m
  ∧ StateMachine.allows m' x = false
  ∧ StateMachine.transition x m' h'
    = (inl (InvalidTransition (StateMachine.current m) x), m', h').
Proof.
  intros _ Hdead.
  assert (∀ m0, StateMachine.transitions m0 = StateMachine.transitions m →
                StateMachine.current m0 = StateMachine.current m →
                ∀ y, StateMachine.allows m0 y = false) as Hno.
  { intros m0 Ht Hc y. unfold StateMachine.allows.
    rewrite Ht, Hc, Hdead. apply bool_decide_eq_false, not_elem_of_nil. }
  assert (∀ s : StateMachine.t * Heap,
            StateMachine.transitions s.1 = StateMachine.transitions m →
            StateMachine.current s.1 = StateMachine.current m →
            let s' := StateMachine.exec ops s in
            StateMachine.transitions s'.1 = StateMachine.transitions m
            ∧ StateMachine.current s'.1 = StateMachine.current m) as Hexec.
  { induction ops as [| o ops' IH]; intros s Ht Hc; [done |].
    destruct s as [m0 h0], o as [q | y]; cbn in *.
    - destruct (until_frame q m0 h0) as [Hc' Ht'].
      destruct (StateMachine.until q m0 h0) as [[p m1] h1]. cbn in *.
      apply (IH (m1, h1)); cbn; congruence.
    - rewrite (transition_refused _ _ _ (Hno m0 Ht Hc y)).
      by apply (IH (m0, h0)). }
  destruct (Hexec (m, h) eq_refl eq_refl) as [Ht Hc].
  destruct (StateMachine.exec ops (m, h)) as [m' h']. cbn in *.
  split; [done |]. split; [by apply Hno |].
  rewrite (transition_refused _ _ _ (Hno m' Ht Hc x)). by rewrite Hc.
Qed.

(** X8.  A waiter is for one arrival.  When a caller has waited for [S]
    and the machine has landed on [S], the promise is resolved and stays
    so; whatever happens next, an [until(S)] called when the machine is in
    another state returns another promise, pending, which waits in the
    slot of [S] for the next arrival.  ([S] is not a name that the waiter
    tables inherit.) *)
Theorem waiter_after_reentry
    (tr : gmap string (list string)) (ops0 ops1 : list StateMachine.op)
    (S : string) :
  let '(m, h) := StateMachine.exec ops0 (StateMachine.new tr, empty_heap) in
  let '(p, m1, h1) := StateMachine.until S m h in
  let '(r, m2, h2) := StateMachine.transition S m1 h1 in
  let '(m3, h3) := StateMachine.exec ops1 (m2, h2) in
  let '(p', m4, h4) := StateMachine.until S m3 h3 in
  S ∉ object_prototype_names →
  StateMachine.current m ≠ S →
  StateMachine.allows m1 S = true →
  StateMachine.current m3 ≠ S →
  p ∈ resolved h2
  ∧ p ∈ resolved h4
  ∧ p' ≠ p
  ∧ (p' ∉ resolved h4)
  ∧ StateMachine.transitionPromises m4 !! S = Some p'.
Proof.
  pose proof (wf_exec ops0 (StateMachine.new tr, empty_heap)
                (wf_new tr empty_heap wf_empty_heap)) as Hwf.
  destruct (StateMachine.exec ops0 _) as [m h]. cbn in Hwf.
  pose proof (wf_until m h S Hwf) as Hwf1.
  pose proof (until_registered m h S) as Hreg0.
  pose proof (until_fresh m h S) as Hfresh0.
  destruct (StateMachine.until S m h) as [[p m1] h1]. cbn in Hwf1.
  pose proof (wf_transition m1 h1 S Hwf1) as Hwf2.
  pose proof (transition_allowed_wf m1 h1 S Hwf1) as Ht.
  destruct (StateMachine.transition S m1 h1) as [[r m2] h2]. cbn in Hwf2.
  pose proof (wf_exec ops1 (m2, h2) Hwf2) as Hwf3.
  pose proof (resolved_exec ops1 (m2, h2) p) as Hmono.
  destruct (StateMachine.exec ops1 (m2, h2)) as [m3 h3]. cbn in Hwf3, Hmono.
  pose proof (wf_until m3 h3 S Hwf3) as Hwf4.
  pose proof (resolved_step (m3, h3) (StateMachine.Until S) p) as Hmono4.
  pose proof (until_registered m3 h3 S) as Hreg.
  pose proof (until_fresh m3 h3 S) as Hfresh.
  cbn in Hmono4.
  destruct (StateMachine.until S m3 h3) as [[p' m4] h4]. cbn in Hwf4, Hmono4.
  intros _ Hc Ha Hc3.
  assert (StateMachine.transitionPromises m1 !! S = Some p) as Hp1.
  { destruct (StateMachine.transitionPromises m !! S) as [p0 |] eqn:Hp0.
    - specialize (Hreg0 p0 Hc eq_refl). injection Hreg0 as Ep Em Eh.
      by rewrite Em, Ep.
    - specialize (Hfresh0 Hc eq_refl). injection Hfresh0 as Ep Em Eh.
      rewrite Em, Ep. cbn. apply lookup_insert_eq. }
  specialize (Ht Ha). rewrite Hp1 in Ht. injection Ht as _ _ Eh2.
  assert (p ∈ resolved h2) as Hp2.
  { rewrite Eh2. cbn. by apply elem_of_union_l, elem_of_singleton. }
  assert (StateMachine.transitionPromises m4 !! S = Some p') as Hslot.
  { destruct (StateMachine.transitionPromises m3 !! S) as [p0 |] eqn:Hp0.
    - specialize (Hreg p0 Hc3 eq_refl). injection Hreg as Ep Em Eh.
      by rewrite Em, Ep.
    - specialize (Hfresh Hc3 eq_refl). injection Hfresh as Ep Em Eh.
      rewrite Em, Ep. cbn. apply lookup_insert_eq. }
  destruct (StateMachine.wf_pending _ _ Hwf4 _ _ Hslot) as (_ & _ & Hpend).
  assert (p ∈ resolved h4) as Hp4 by auto.
  split; [done |]. split; [done |]. split; [| done].
  by intros ->.
Qed.

(** ** The lifecycle *)

Section LifecycleMore.

Import Lifecycle.
Implicit Types (l : Lifecycle.t) (w : Lifecycle.world) (d : descriptor).

(** A property of the controller that the runner keeps, and that the
    permitted calls of [until], [on] and [reset] keep, holds throughout. *)
Section Preserve.

Variable Φ : Lifecycle.t → Prop.
Variable ok : call → Prop.
Hypothesis Φ_run : ∀ d l, Φ l → Φ (run d l).1.
Hypothesis Φ_resume : ∀ d r l, Φ l → Φ (run_resume d r l).1.
Hypothesis Φ_until : ∀ q w,
  ok (CallUntil q) → Φ (Queue.env w) → Φ (Queue.env (until q w).2).
Hypothesis Φ_on : ∀ f w,
  ok (CallOn f) → Φ (Queue.env w) → Φ (Queue.env (on f w)).
Hypothesis Φ_reset : ∀ w,
  ok CallReset → Φ (Queue.env w) → Φ (Queue.env (reset w)).

Lemma sound_trivial w :
  Φ (Queue.env w) ↔ Queue.sound Φ (λ _, True) w.
Proof.
  split; [| by intros (? & _)].
  intros Hl. split; [done |]. split; by apply Forall_forall.
Qed.

Lemma preserved_step w (ev : event) :
  (∀ c, ev = Call c → ok c) →
  Φ (Queue.env w) → Φ (Queue.env (step w ev)).
Proof.
  intros Hok Hl. destruct ev as [c | k r | k]; cbn [step].
  - specialize (Hok c eq_refl).
    assert (∀ f i x, Φ (Queue.env (enqueue f i x w).2)) as Henq.
    { intros. apply sound_trivial, sound_enqueue; [| by apply sound_trivial].
      intros p y Hy. split; [by apply Φ_run | done]. }
    destruct c as [| | | | o i x | q | f |]; cbn [do_call];
      try apply Henq.
    + unfold transition. destruct (lookup_operation _ _) as [f |]; [| done].
      specialize (Henq f i x). by destruct (enqueue f i x w).
    + by apply Φ_until.
    + by apply Φ_on.
    + by apply Φ_reset.
  - apply sound_trivial, (sound_settle run_resume);
      [| by apply sound_trivial].
    intros s r' y Hy. split; [by apply Φ_resume | done].
  - apply sound_trivial, sound_continue; [| by apply sound_trivial].
    intros p y Hy. split; [by apply Φ_run | done].
Qed.

Lemma preserved_exec (evs : list event) w :
  Forall (λ ev, ∀ c, ev = Call c → ok c) evs →
  Φ (Queue.env w) → Φ (Queue.env (exec evs w)).
Proof.
  revert w. induction evs as [| ev evs IH]; intros w Hok Hl; [done |].
  apply Forall_cons in Hok as [Hev Hok].
  by apply IH, preserved_step.
Qed.

End Preserve.

(** The runner touches the machine, the heap and the two logs only. *)
Lemma run_frame d l :
  operations (run d l).1 = operations l
  ∧ transitions (run d l).1 = transitions l
  ∧ onTransition (run d l).1 = onTransition l.
Proof.
  unfold run. destruct (negb _); [done |].
  unfold machine_transition.
  destruct (StateMachine.transition _ _ _) as [[[e | []] m] h]; [done |].
  cbn. by destruct (onTransition l (interimState d)).
Qed.

Lemma run_resume_frame d r l :
  operations (run_resume d r l).1 = operations l
  ∧ transitions (run_resume d r l).1 = transitions l
  ∧ onTransition (run_resume d r l).1 = onTransition l.
Proof.
  unfold run_resume. destruct (operation_result _ _); [| done].
  destruct (_ && _); [| done].
  unfold machine_transition.
  destruct (StateMachine.transition _ _ _) as [[[e | []] m] h]; [done |].
  cbn. by destruct (onTransition l (toState d)).
Qed.

(** The table of the handlers is the one the constructor made. *)
Lemma operations_fixed (o : handlers) (evs : list event) :
  operations (Queue.env (exec evs (new o)))
  = operations (Queue.env (new o)).
Proof.
  apply (preserved_exec
           (λ l, operations l = operations (Queue.env (new o)))
           (λ _, True)); try done.
  - intros d l Hl. by rewrite (proj1 (run_frame d l)).
  - intros d r l Hl. by rewrite (proj1 (run_resume_frame d r l)).
  - intros q w _ Hl. unfold until.
    by destruct (StateMachine.until _ _ _) as [[? ?] ?].
  - by apply Forall_forall.
Qed.

(** The queue of a controller keeps the invariant of the queue. *)
Lemma lifecycle_queue_inv (o : handlers) (evs : list event) :
  Queue.inv (exec evs (new o)).
Proof.
  assert (∀ w, Queue.inv w → Queue.inv (exec evs w)) as Hexec.
  { induction evs as [| ev evs' IH]; intros w Hw; [done |].
    apply IH. destruct ev as [c | k r | k]; cbn [step].
    - assert (∀ f i x, Queue.inv (enqueue f i x w).2) as Henq.
      { intros. by apply inv_enqueue. }
      destruct c as [| | | | op i x | q | f |]; cbn [do_call];
        try apply Henq.
      + unfold transition. destruct (lookup_operation _ _) as [f |]; [| done].
        specialize (Henq f i x). by destruct (enqueue f i x w).
      + unfold until. destruct (StateMachine.until _ _ _) as [[? ?] ?].
        by apply inv_set_env.
      + by apply inv_set_env.
      + by apply inv_set_env.
    - by apply inv_settle.
    - by apply inv_continue. }
  apply Hexec, inv_new.
Qed.

(** The five calls that enqueue pass their descriptor to the queue. *)
Lemma do_call_enqueues (c : call) d w :
  Protocol.descriptor_of (operations (Queue.env w)) c = Some d →
  do_call c w = (Queue.enqueue run d w).2.
Proof.
  destruct c as [| | | | op i x | q | f |]; cbn; try done;
    try (by intros [= <-]).
  unfold transition, enqueue.
  destruct (lookup_operation _ _) as [f |]; cbn; [| done].
  intros [= <-]. by destruct (Queue.enqueue run (Descriptor f i x) w).
Qed.

(** On the lifecycle graph [allows] is the edge test. *)
Lemma allows_edge (m : StateMachine.t) x :
  StateMachine.transitions m = lifecycle_transitions →
  StateMachine.allows m x = Protocol.edge (StateMachine.current m) x.
Proof. intros Ht. unfold StateMachine.allows, Protocol.edge. by rewrite Ht. Qed.

End LifecycleMore.

Section OneOperation.

Import Lifecycle.
Implicit Types (l : Lifecycle.t) (w : Lifecycle.world) (d : descriptor).

(** [#run] when the interim state is allowed and the observer returns. *)
Lemma run_started d l :
  StateMachine.allows (stateMachine l) (interimState d) = true →
  onTransition l (interimState d) = Returns →
  ∃ m h,
    StateMachine.transition (interimState d) (stateMachine l) (heap l)
    = (inr (), m, h)
    ∧ StateMachine.current m = interimState d
    ∧ StateMachine.transitions m = StateMachine.transitions (stateMachine l)
    ∧ run d l
      = (mk m (operations l) (transitions l) (onTransition l) h
           (calls l ++ [operation d]) (notified l ++ [interimState d]),
         inl d).
Proof.
  intros Ha Ho.
  destruct (machine_transition_allowed _ _ Ha) as (m & h & Ht & Heq & Hc).
  exists m, h. split; [done |]. split; [done |].
  destruct (transition_frame (interimState d) (stateMachine l) (heap l))
    as [Hg _].
  rewrite Ht in Hg. split; [done |].
  unfold run. rewrite Ha, Heq. unfold notify. cbn. by rewrite Ho.
Qed.

(** [#run] when the interim state is allowed and the observer throws. *)
Lemma run_aborted d l v :
  StateMachine.allows (stateMachine l) (interimState d) = true →
  onTransition l (interimState d) = Throws v →
  ∃ m h,
    StateMachine.transition (interimState d) (stateMachine l) (heap l)
    = (inr (), m, h)
    ∧ StateMachine.current m = interimState d
    ∧ run d l
      = (mk m (operations l) (transitions l) (onTransition l) h
           (calls l) (notified l ++ [interimState d]),
         inr (Err (Thrown v))).
Proof.
  intros Ha Ho.
  destruct (machine_transition_allowed _ _ Ha) as (m & h & Ht & Heq & Hc).
  exists m, h. split; [done |]. split; [done |].
  unfold run. rewrite Ha, Heq. unfold notify. cbn. by rewrite Ho.
Qed.

(** The rest of [#run] when the handler has succeeded, the state is still
    the interim state, the final state is allowed and the observer
    returns. *)
Lemma run_resume_done d r l :
  operation_result (operation d) r = Returns →
  StateMachine.current (stateMachine l) = interimState d →
  StateMachine.allows (stateMachine l) (toState d) = true →
  onTransition l (toState d) = Returns →
  ∃ m h,
    StateMachine.transition (toState d) (stateMachine l) (heap l)
    = (inr (), m, h)
    ∧ StateMachine.current m = toState d
    ∧ run_resume d r l
      = (mk m (operations l) (transitions l) (onTransition l) h
           (calls l) (notified l ++ [toState d]),
         Ok).
Proof.
  intros Hr Hc Ha Ho.
  destruct (machine_transition_allowed _ _ Ha) as (m & h & Ht & Heq & Hm).
  exists m, h. split; [done |]. split; [done |].
  unfold run_resume, StateMachine.state. rewrite Hr, Ha, Heq.
  rewrite bool_decide_eq_true_2 by done. unfold notify. cbn. by rewrite Ho.
Qed.

Lemma run_resume_skipped d r l :
  operation_result (operation d) r = Returns →
  StateMachine.allows (stateMachine l) (toState d) = false →
  run_resume d r l = (l, Ok).
Proof.
  intros Hr Ha. unfold run_resume. rewrite Hr, Ha. by rewrite andb_false_r.
Qed.

Lemma run_resume_failed d r l v :
  operation_result (operation d) r = Throws v →
  run_resume d r l = (l, Err (Thrown v)).
Proof. intros Hr. unfold run_resume. by rewrite Hr. Qed.

(** A call that enqueues, on a controller at rest: the runner starts on
    its descriptor at once. *)
Lemma call_at_rest (c : call) d w :
  Queue.idle w →
  Protocol.descriptor_of (operations (Queue.env w)) c = Some d →
  do_call c w
  = (let e := Queue.Entry d (Queue.next_handle w) in
     Queue.World (Queue.mk [e] true) (run d (Queue.env w)).1
       [Queue.Activation e (run d (Queue.env w)).2]
       (S (Queue.next_handle w)) (Queue.enqueued w ++ [e])
       (Queue.started w ++ [e]) (Queue.settled w)).
Proof.
  intros Hidle Hd. rewrite (do_call_enqueues _ _ _ Hd).
  by rewrite (enqueue_idle run w d Hidle).
Qed.

(** The handler of the only operation in the queue settles, and the drain
    loop resumes: the queue comes to rest. *)
Lemma operation_finishes w e d (r : result) :
  Queue.loops w = [Queue.Activation e (inl d)] →
  Queue.items (Queue.queue w) = [e] →
  exec [OperationSettles 0 r; Continue 0] w
  = Queue.World (Queue.mk [] false) (run_resume d r (Queue.env w)).1 []
      (Queue.next_handle w) (Queue.enqueued w) (Queue.started w)
      (Queue.settled w
       ++ [(Queue.handle e, (run_resume d r (Queue.env w)).2)]).
Proof.
  intros Hl Hi. cbn. rewrite (settle_pending run_resume w e d r Hl).
  by rewrite (continue_last run _ e (run_resume d r (Queue.env w)).2).
Qed.

(** The same when the runner had finished without calling the handler. *)
Lemma operation_finished w e (o : outcome error) (r : result) :
  Queue.loops w = [Queue.Activation e (inr o)] →
  Queue.items (Queue.queue w) = [e] →
  exec [OperationSettles 0 r; Continue 0] w
  = Queue.World (Queue.mk [] false) (Queue.env w) []
      (Queue.next_handle w) (Queue.enqueued w) (Queue.started w)
      (Queue.settled w ++ [(Queue.handle e, o)]).
Proof.
  intros Hl Hi. cbn. rewrite (settle_settled run_resume w e o r Hl).
  by rewrite (continue_last run w e o).
Qed.

End OneOperation.

(** X2.  In every behaviour of a controller, a call that enqueues
    ([open], [close], [suspend], [resume], or [transition] with one of
    their names) gets a fresh promise and appends its descriptor to the
    queue.  The runner is started on the descriptor, at once, if and only
    if the queue is at rest, and then the drain loop is active on that
    descriptor; otherwise the descriptor waits behind the others and
    nothing else changes.  No promise is settled by the call itself: the
    runner is an async function, so the drain loop suspends on it. *)
Theorem call_starts_runner_iff_idle
    (o : Lifecycle.handlers) (evs : list Lifecycle.event)
    (c : Lifecycle.call) (d : Lifecycle.descriptor) :
  let w := Lifecycle.exec evs (Lifecycle.new o) in
  let w' := Lifecycle.do_call c w in
  let e := Queue.Entry d (Queue.next_handle w) in
  Protocol.descriptor_of (Lifecycle.operations (Queue.env w)) c = Some d →
  (Queue.next_handle w ∉ map Queue.handle (Queue.enqueued w))
  ∧ Queue.enqueued w' = Queue.enqueued w ++ [e]
  ∧ Queue.settled w' = Queue.settled w
  ∧ Queue.processing (Queue.queue w') = true
  ∧ if Queue.processing (Queue.queue w) then
      Queue.started w' = Queue.started w
      ∧ Queue.env w' = Queue.env w
      ∧ Queue.loops w' = Queue.loops w
      ∧ Queue.items (Queue.queue w') = Queue.items (Queue.queue w) ++ [e]
    else
      Queue.started w' = Queue.started w ++ [e]
      ∧ Queue.env w' = (Lifecycle.run d (Queue.env w)).1
      ∧ Queue.loops w'
        = [Queue.Activation e (Lifecycle.run d (Queue.env w)).2]
      ∧ Queue.items (Queue.queue w') = [e].
Proof.
  intros w w' e Hd. subst w'.
  rewrite (do_call_enqueues c d w Hd).
  apply (enqueue_effect Lifecycle.run w d), lifecycle_queue_inv.
Qed.

(** X9.  The generic [transition(operator, interimState, toState)] knows
    exactly the four operators [open], [close], [suspend] and [resume],
    whatever handlers the constructor was given and whatever has happened
    since: for one of them it enqueues the descriptor with that operator's
    handler and returns the promise of the queue; for any other name the
    call is rejected with the UnknownOperator error that names it, and
    nothing is enqueued or changed.  With the standard pairs of states it
    is [open()], [close()], [suspend()] and [resume()].  (The name is not
    one that the table of the handlers inherits: for such a name
    [this.#operations[operator]] is not one of the four handlers, and not
    undefined either.) *)
Theorem generic_transition_operator_lookup
    (o : Lifecycle.handlers) (evs : list Lifecycle.event)
    (operator interimState toState : string) :
  let w := Lifecycle.exec evs (Lifecycle.new o) in
  let ops := Lifecycle.operations (Queue.env (Lifecycle.new o)) in
  operator ∉ object_prototype_names →
  (if bool_decide (operator ∈ ["open"; "close"; "suspend"; "resume"]) then
     ∃ f,
       Lifecycle.lookup_operation ops operator = Some f
       ∧ Lifecycle.transition operator interimState toState w
         = (inr (Queue.next_handle w),
            (Queue.enqueue Lifecycle.run
               (Lifecycle.Descriptor f interimState toState) w).2)
   else
     Lifecycle.transition operator interimState toState w
     = (inl (UnknownOperator operator), w)
     ∧ message (UnknownOperator operator)
       = "Unknown operator name: " +:+ operator)
  ∧ Lifecycle.transition "open" "opening" "opened" w
    = (inr (Lifecycle.open w).1, (Lifecycle.open w).2)
  ∧ Lifecycle.transition "close" "closing" "closed" w
    = (inr (Lifecycle.close w).1, (Lifecycle.close w).2)
  ∧ Lifecycle.transition "suspend" "suspending" "suspended" w
    = (inr (Lifecycle.suspend w).1, (Lifecycle.suspend w).2)
  ∧ Lifecycle.transition "resume" "resuming" "resumed" w
    = (inr (Lifecycle.resume w).1, (Lifecycle.resume w).2).
Proof.
  intros w ops _. split.
  - unfold Lifecycle.transition. fold w.
    pose proof (operations_fixed o evs) as Hops. fold w ops in Hops.
    rewrite Hops. unfold Lifecycle.lookup_operation, Lifecycle.enqueue.
    case_bool_decide as Hin.
    + repeat (apply elem_of_cons in Hin as [-> | Hin]);
        [.. | by apply elem_of_nil in Hin];
        repeat (first [rewrite bool_decide_eq_true_2 by done
                      | rewrite bool_decide_eq_false_2 by done]);
        eexists; (split; [done |]); by unfold Queue.enqueue.
    + repeat (case_bool_decide;
                [exfalso; apply Hin; subst operator; apply list_elem_of_In;
                 cbn; tauto |]).
      done.
  - unfold Lifecycle.transition, Lifecycle.open, Lifecycle.close,
      Lifecycle.suspend, Lifecycle.resume, Lifecycle.enqueue. cbn.
    repeat split;
      match goal with
      | |- context [Queue.enqueue ?f ?x w] =>
          by destruct (Queue.enqueue f x w)
      end.
Qed.

(** X10.  A controller runs one operation at a time, in the order of the
    calls: whatever is called and whenever the handlers settle, at most one
    runner, so at most one handler, is in flight; the queue is at rest
    exactly when nothing is pending; the promises of the calls are settled
    in the order of the calls, and the runner takes the descriptors in that
    order. *)
Theorem lifecycle_runs_one_operation_at_a_time
    (o : Lifecycle.handlers) (evs : list Lifecycle.event) :
  let w := Lifecycle.exec evs (Lifecycle.new o) in
  (Queue.idle w ∨ Queue.busy w)
  ∧ length (Queue.loops w) ≤ 1
  ∧ Queue.in_flight w ≤ 1
  ∧ map fst (Queue.settled w)
      `prefix_of` map Queue.handle (Queue.enqueued w)
  ∧ Queue.started w `prefix_of` Queue.enqueued w.
Proof.
  intros w. pose proof (lifecycle_queue_inv o evs) as Hinv. fold w in Hinv.
  destruct (inv_single_flight w Hinv) as [Hl Hf].
  split; [by destruct Hinv |]. split; [done |]. split; [done |].
  split; [by apply inv_settled_prefix | by apply inv_started_prefix].
Qed.


(** An operation that starts at once and whose handler succeeds, on any
    controller at rest that has the lifecycle graph. *)
Lemma at_rest_success
    (w : Lifecycle.world) (c : Lifecycle.call) (d : Lifecycle.descriptor)
    (r : Lifecycle.result) :
  let l := Queue.env w in
  let w1 := Lifecycle.exec [Lifecycle.Call c] w in
  let w2 :=
    Lifecycle.exec [Lifecycle.OperationSettles 0 r; Lifecycle.Continue 0]
      w1 in
  let last_edge :=
    Protocol.edge (Lifecycle.interimState d) (Lifecycle.toState d) in
  StateMachine.transitions (Lifecycle.stateMachine l)
    = Lifecycle.lifecycle_transitions →
  Queue.idle w →
  Protocol.descriptor_of (Lifecycle.operations l) c = Some d →
  StateMachine.allows (Lifecycle.stateMachine l) (Lifecycle.interimState d)
    = true →
  Protocol.quiet l →
  Lifecycle.operation_result (Lifecycle.operation d) r = Lifecycle.Returns →
  (Lifecycle.state w1 = Lifecycle.interimState d
   ∧ Lifecycle.calls (Queue.env w1)
     = Lifecycle.calls l ++ [Lifecycle.operation d]
   ∧ Lifecycle.notified (Queue.env w1)
     = Lifecycle.notified l ++ [Lifecycle.interimState d]
   ∧ Queue.settled w1 = Queue.settled w)
  ∧ Lifecycle.state w2
    = (if last_edge then Lifecycle.toState d else Lifecycle.interimState d)
  ∧ Lifecycle.calls (Queue.env w2)
    = Lifecycle.calls l ++ [Lifecycle.operation d]
  ∧ Lifecycle.notified (Queue.env w2)
    = Lifecycle.notified l
      ++ Lifecycle.interimState d
         :: (if last_edge then [Lifecycle.toState d] else [])
  ∧ Queue.settled w2 = Queue.settled w ++ [(Queue.next_handle w, Ok)]
  ∧ Queue.idle w2
  ∧ StateMachine.exec
      (StateMachine.Transition (Lifecycle.interimState d)
       :: (if last_edge
           then [StateMachine.Transition (Lifecycle.toState d)] else []))
      (Lifecycle.stateMachine l, Lifecycle.heap l)
    = (Lifecycle.stateMachine (Queue.env w2), Lifecycle.heap (Queue.env w2)).
Proof.
  intros l w1 w2 last_edge Hg Hidle Hd Ha Hq Hr.
  destruct (run_started d l Ha (Hq _)) as (m & h & Ht & Hc & Hgm & Hrun).
  assert (w1
          = (let e := Queue.Entry d (Queue.next_handle w) in
             Queue.World (Queue.mk [e] true)
               (Lifecycle.mk m (Lifecycle.operations l)
                  (Lifecycle.transitions l) (Lifecycle.onTransition l) h
                  (Lifecycle.calls l ++ [Lifecycle.operation d])
                  (Lifecycle.notified l ++ [Lifecycle.interimState d]))
               [Queue.Activation e (inl d)]
               (S (Queue.next_handle w)) (Queue.enqueued w ++ [e])
               (Queue.started w ++ [e]) (Queue.settled w))) as Hw1.
  { subst w1. cbn [Lifecycle.exec foldl Lifecycle.step].
    rewrite (call_at_rest c d w Hidle Hd). fold l. by rewrite Hrun. }
  split; [by rewrite Hw1 |].
  subst w2. rewrite Hw1. cbn zeta.
  erewrite operation_finishes; [| reflexivity | reflexivity].
  cbn [Queue.env Queue.settled Queue.handle Queue.next_handle].
  set (l1 := Lifecycle.mk m _ _ _ h _ _).
  assert (StateMachine.allows (Lifecycle.stateMachine l1)
            (Lifecycle.toState d) = last_edge) as Hedge.
  { cbn. rewrite allows_edge by congruence. by rewrite Hc. }
  destruct last_edge eqn:He.
  - destruct (run_resume_done d r l1 Hr Hc Hedge (Hq _))
      as (m2 & h2 & Ht2 & Hc2 & ->).
    unfold Lifecycle.state, StateMachine.state. cbn.
    rewrite <- app_assoc, Ht. cbn. cbn in Ht2. rewrite Ht2.
    by repeat split.
  - rewrite (run_resume_skipped d r l1 Hr Hedge).
    unfold Lifecycle.state, StateMachine.state. cbn.
    rewrite Ht. by repeat split.
Qed.

(** An operation whose interim state the state does not allow, on any
    controller at rest: the call is resolved and nothing else changes. *)
Lemma at_rest_refused
    (w : Lifecycle.world) (c : Lifecycle.call) (d : Lifecycle.descriptor)
    (r : Lifecycle.result) :
  Queue.idle w →
  Protocol.descriptor_of (Lifecycle.operations (Queue.env w)) c = Some d →
  StateMachine.allows (Lifecycle.stateMachine (Queue.env w))
    (Lifecycle.interimState d) = false →
  Lifecycle.exec [Lifecycle.Call c; Lifecycle.OperationSettles 0 r;
                  Lifecycle.Continue 0] w
  = (let e := Queue.Entry d (Queue.next_handle w) in
     Queue.World (Queue.mk [] false) (Queue.env w) []
       (S (Queue.next_handle w)) (Queue.enqueued w ++ [e])
       (Queue.started w ++ [e])
       (Queue.settled w ++ [(Queue.next_handle w, Ok)])).
Proof.
  intros Hidle Hd Ha.
  change (Lifecycle.exec (Lifecycle.Call c :: ?evs') w)
    with (Lifecycle.exec [Lifecycle.OperationSettles 0 r;
                          Lifecycle.Continue 0]
            (Lifecycle.do_call c w)).
  rewrite (call_at_rest c d w Hidle Hd), (run_refused _ _ Ha). cbn zeta.
  by erewrite operation_finished; [| reflexivity | reflexivity].
Qed.

(** X11.  An operation on a controller at rest, when the current state
    allows its interim state, the observer returns and the handler
    succeeds.  The call makes the interim transition, tells the observer
    and calls the handler, all at once; when the handler has settled, the
    final transition is made if the graph has the edge, and then the
    observer is told; the promise of the call is resolved and the
    controller is at rest again.  The handler is called once. *)
Theorem operation_at_rest_succeeds
    (o : Lifecycle.handlers) (evs : list Lifecycle.event)
    (c : Lifecycle.call) (d : Lifecycle.descriptor) (r : Lifecycle.result) :
  let w := Lifecycle.exec evs (Lifecycle.new o) in
  let l := Queue.env w in
  let w1 := Lifecycle.exec [Lifecycle.Call c] w in
  let w2 :=
    Lifecycle.exec [Lifecycle.OperationSettles 0 r; Lifecycle.Continue 0]
      w1 in
  let last_edge :=
    Protocol.edge (Lifecycle.interimState d) (Lifecycle.toState d) in
  Queue.idle w →
  Protocol.descriptor_of (Lifecycle.operations l) c = Some d →
  StateMachine.allows (Lifecycle.stateMachine l) (Lifecycle.interimState d)
    = true →
  Protocol.quiet l →
  Lifecycle.operation_result (Lifecycle.operation d) r = Lifecycle.Returns →
  (Lifecycle.state w1 = Lifecycle.interimState d
   ∧ Lifecycle.calls (Queue.env w1)
     = Lifecycle.calls l ++ [Lifecycle.operation d]
   ∧ Lifecycle.notified (Queue.env w1)
     = Lifecycle.notified l ++ [Lifecycle.interimState d]
   ∧ Queue.settled w1 = Queue.settled w)
  ∧ Lifecycle.state w2
    = (if last_edge then Lifecycle.toState d else Lifecycle.interimState d)
  ∧ Lifecycle.calls (Queue.env w2)
    = Lifecycle.calls l ++ [Lifecycle.operation d]
  ∧ Lifecycle.notified (Queue.env w2)
    = Lifecycle.notified l
      ++ Lifecycle.interimState d
         :: (if last_edge then [Lifecycle.toState d] else [])
  ∧ Queue.settled w2 = Queue.settled w ++ [(Queue.next_handle w, Ok)]
  ∧ Queue.idle w2.
Proof.
  intros w l w1 w2 last_edge Hidle Hd Ha Hq Hr.
  destruct (reachable_sound o evs) as ([(Hg & _ & _) _] & _).
  destruct (at_rest_success w c d r Hg Hidle Hd Ha Hq Hr)
    as (H1 & H2 & H3 & H4 & H5 & H6 & _).
  done.
Qed.

(** X12.  When the handler fails, in the same situation: the promise of
    the call is rejected with what the handler threw; the state stays at
    the interim state, the observer having been told of the interim state
    only; and the controller is at rest, parked there. *)
Theorem operation_at_rest_handler_fails
    (o : Lifecycle.handlers) (evs : list Lifecycle.event)
    (c : Lifecycle.call) (d : Lifecycle.descriptor) (r : Lifecycle.result)
    (v : string) :
  let w := Lifecycle.exec evs (Lifecycle.new o) in
  let l := Queue.env w in
  let w2 :=
    Lifecycle.exec [Lifecycle.Call c; Lifecycle.OperationSettles 0 r;
                    Lifecycle.Continue 0] w in
  Queue.idle w →
  Protocol.descriptor_of (Lifecycle.operations l) c = Some d →
  StateMachine.allows (Lifecycle.stateMachine l) (Lifecycle.interimState d)
    = true →
  Lifecycle.onTransition l (Lifecycle.interimState d) = Lifecycle.Returns →
  Lifecycle.operation_result (Lifecycle.operation d) r
    = Lifecycle.Throws v →
  Lifecycle.state w2 = Lifecycle.interimState d
  ∧ Lifecycle.calls (Queue.env w2)
    = Lifecycle.calls l ++ [Lifecycle.operation d]
  ∧ Lifecycle.notified (Queue.env w2)
    = Lifecycle.notified l ++ [Lifecycle.interimState d]
  ∧ Queue.settled w2
    = Queue.settled w ++ [(Queue.next_handle w, Err (Thrown v))]
  ∧ Queue.idle w2.
Proof.
  intros w l w2 Hidle Hd Ha Ho Hr.
  destruct (run_started d l Ha Ho) as (m & h & Ht & Hc & Hgm & Hrun).
  subst w2.
  change (Lifecycle.exec (Lifecycle.Call c :: ?evs') w)
    with (Lifecycle.exec [Lifecycle.OperationSettles 0 r;
                          Lifecycle.Continue 0]
            (Lifecycle.do_call c w)).
  rewrite (call_at_rest c d w Hidle Hd). fold l. rewrite Hrun. cbn zeta.
  erewrite operation_finishes; [| reflexivity | reflexivity].
  cbn [Queue.env Queue.settled Queue.handle Queue.next_handle].
  rewrite (run_resume_failed d r _ v Hr).
  unfold Lifecycle.state, StateMachine.state. cbn. by repeat split.
Qed.

(** X13.  When the observer throws on the interim state, in the same
    situation: the interim transition has been made and stays; the handler
    is not called; the promise of the call is rejected with what the
    observer threw; and the controller is at rest, parked at the interim
    state. *)
Theorem operation_at_rest_observer_throws
    (o : Lifecycle.handlers) (evs : list Lifecycle.event)
    (c : Lifecycle.call) (d : Lifecycle.descriptor) (v : string) :
  let w := Lifecycle.exec evs (Lifecycle.new o) in
  let l := Queue.env w in
  let w2 := Lifecycle.exec [Lifecycle.Call c; Lifecycle.Continue 0] w in
  Queue.idle w →
  Protocol.descriptor_of (Lifecycle.operations l) c = Some d →
  StateMachine.allows (Lifecycle.stateMachine l) (Lifecycle.interimState d)
    = true →
  Lifecycle.onTransition l (Lifecycle.interimState d) = Lifecycle.Throws v →
  Lifecycle.state w2 = Lifecycle.interimState d
  ∧ Lifecycle.calls (Queue.env w2) = Lifecycle.calls l
  ∧ Lifecycle.notified (Queue.env w2)
    = Lifecycle.notified l ++ [Lifecycle.interimState d]
  ∧ Queue.settled w2
    = Queue.settled w ++ [(Queue.next_handle w, Err (Thrown v))]
  ∧ Queue.idle w2.
Proof.
  intros w l w2 Hidle Hd Ha Ho.
  destruct (run_aborted d l v Ha Ho) as (m & h & Ht & Hc & Hrun).
  subst w2.
  change (Lifecycle.exec [Lifecycle.Call c; Lifecycle.Continue 0] w)
    with (Queue.continue Lifecycle.run 0 (Lifecycle.do_call c w)).
  rewrite (call_at_rest c d w Hidle Hd). fold l. rewrite Hrun. cbn zeta.
  erewrite continue_last; [| reflexivity | reflexivity].
  unfold Lifecycle.state, StateMachine.state. cbn. by repeat split.
Qed.

Lemma operation_result_returns (f : Lifecycle.callback) :
  Lifecycle.operation_result f Lifecycle.Returns = Lifecycle.Returns.
Proof. by destruct f. Qed.

(** The effect of a named operation on any controller at rest that has
    the lifecycle graph and is in one of the nine states. *)
Lemma named_effect_at_rest (w : Lifecycle.world) (c : Lifecycle.call) :
  let w2 := Lifecycle.exec (Lifecycle.Call c :: succeeds) w in
  StateMachine.transitions (Lifecycle.stateMachine (Queue.env w))
    = Lifecycle.lifecycle_transitions →
  StateMachine.current (Lifecycle.stateMachine (Queue.env w))
    ∈ Lifecycle.labels →
  c ∈ [Lifecycle.CallOpen; Lifecycle.CallClose; Lifecycle.CallSuspend;
       Lifecycle.CallResume] →
  Queue.idle w →
  Protocol.quiet (Queue.env w) →
  Lifecycle.state w2 = Protocol.effect c (Lifecycle.state w)
  ∧ Queue.settled w2 = Queue.settled w ++ [(Queue.next_handle w, Ok)]
  ∧ Queue.idle w2.
Proof.
  intros w2 Hg Hlab Hc Hidle Hq.
  assert (∃ d, Protocol.descriptor_of
                 (Lifecycle.operations (Queue.env w)) c = Some d
               ∧ (Lifecycle.interimState d, Lifecycle.toState d)
                 ∈ [("opening", "opened"); ("closing", "closed");
                    ("suspending", "suspended"); ("resuming", "resumed")])
    as (d & Hd & Hpair).
  { repeat (apply elem_of_cons in Hc as [-> | Hc]);
      [.. | by apply elem_of_nil in Hc];
      eexists; (split; [reflexivity |]);
      apply list_elem_of_In; cbn; tauto. }
  assert (Protocol.edge (Lifecycle.interimState d) (Lifecycle.toState d)
          = true) as Hlast.
  { repeat (apply elem_of_cons in Hpair as [[= -> ->] | Hpair]);
      [.. | by apply elem_of_nil in Hpair]; vm_compute; reflexivity. }
  assert (Protocol.effect c (Lifecycle.state w)
          = if StateMachine.allows (Lifecycle.stateMachine (Queue.env w))
                 (Lifecycle.interimState d)
            then Lifecycle.toState d else Lifecycle.state w) as Heff.
  { rewrite (allows_edge _ _ Hg).
    unfold Lifecycle.state, StateMachine.state.
    set (s := StateMachine.current _) in *. clearbody s.
    unfold Lifecycle.labels in Hlab.
    repeat (apply elem_of_cons in Hc as [-> | Hc]);
      [.. | by apply elem_of_nil in Hc];
      injection Hd as <-; cbn [Lifecycle.interimState Lifecycle.toState];
      repeat (apply elem_of_cons in Hlab as [-> | Hlab]);
      try (by apply elem_of_nil in Hlab);
      vm_compute; reflexivity. }
  rewrite Heff. subst w2. unfold succeeds.
  destruct (StateMachine.allows _ _) eqn:Ha.
  - destruct (at_rest_success w c d Lifecycle.Returns Hg Hidle Hd Ha Hq
                (operation_result_returns _))
      as (_ & H2 & _ & _ & H5 & H6 & _).
    rewrite Hlast in H2. done.
  - rewrite (at_rest_refused w c d Lifecycle.Returns Hidle Hd Ha).
    by repeat split.
Qed.

(** X14.  What [open()], [close()], [suspend()] and [resume()] do to the
    state, on a controller at rest whose observer returns and whose handler
    succeeds: [open] takes [init] to [opened]; [close] takes [opened],
    [suspending], [suspended] and [resumed] to [closed]; [suspend] takes
    [opened] and [resumed] to [suspended]; [resume] takes [suspended] to
    [resumed]; in every other state the call changes nothing.  In all
    cases the promise of the call is resolved and the controller is at rest
    again. *)
Theorem named_operation_effect
    (o : Lifecycle.handlers) (evs : list Lifecycle.event)
    (c : Lifecycle.call) :
  let w := Lifecycle.exec evs (Lifecycle.new o) in
  let w2 := Lifecycle.exec (Lifecycle.Call c :: succeeds) w in
  c ∈ [Lifecycle.CallOpen; Lifecycle.CallClose; Lifecycle.CallSuspend;
       Lifecycle.CallResume] →
  Queue.idle w →
  Protocol.quiet (Queue.env w) →
  Lifecycle.state w2 = Protocol.effect c (Lifecycle.state w)
  ∧ Queue.settled w2 = Queue.settled w ++ [(Queue.next_handle w, Ok)]
  ∧ Queue.idle w2.
Proof.
  intros w w2 Hc Hidle Hq.
  destruct (reachable_sound o evs) as ([(Hg & Hlab & _) _] & _).
  by apply named_effect_at_rest.
Qed.

Section Graph.

Import Lifecycle.

(** A state that the graph does not list has no edge. *)
Lemma lifecycle_transitions_None (a : string) :
  a ∉ labels → lifecycle_transitions !! a = None.
Proof. intros Ha. by apply not_elem_of_list_to_map_1. Qed.

Lemma edge_closed (x : string) : Protocol.edge "closed" x = false.
Proof.
  unfold Protocol.edge. vm_compute (lifecycle_transitions !! _). cbn.
  apply bool_decide_eq_false, not_elem_of_nil.
Qed.

(** Along an edge the rank does not go down, and it goes up except inside
    the suspend/resume cycle. *)
Lemma edge_rank (a b : string) :
  Protocol.edge a b = true →
  Protocol.rank a ≤ Protocol.rank b
  ∧ (Protocol.rank a = 3 ∨ Protocol.rank a < Protocol.rank b).
Proof.
  unfold Protocol.edge. intros He%bool_decide_eq_true.
  destruct (decide (a ∈ labels)) as [Ha | Ha].
  - unfold labels in Ha.
    repeat (apply elem_of_cons in Ha as [-> | Ha]);
      [.. | by apply elem_of_nil in Ha];
      vm_compute (lifecycle_transitions !! _) in He; cbn in He;
      repeat (apply elem_of_cons in He as [-> | He]);
      try (by apply elem_of_nil in He);
      vm_compute; lia.
  - rewrite (lifecycle_transitions_None a Ha) in He.
    by apply elem_of_nil in He.
Qed.

Lemma walk_snoc (c x : string) (l : list string) :
  Protocol.walk c l →
  Protocol.edge (default c (last l)) x = true →
  Protocol.walk c (l ++ [x]).
Proof.
  revert c. induction l as [| n l IH]; intros c Hw He; cbn in *.
  - done.
  - destruct Hw as [Hn Hw]. split; [done |]. apply IH; [done |].
    destruct l as [| s l]; [done |].
    change (last (n :: s :: l)) with (last (s :: l)) in He.
    destruct (last (s :: l)) eqn:Hl; [done | by apply last_None in Hl].
Qed.

Lemma walk_rank (c : string) (l : list string) :
  Protocol.walk c l →
  Forall (λ x, Protocol.rank c ≤ Protocol.rank x
               ∧ (Protocol.rank c = 3 ∨ Protocol.rank c < Protocol.rank x))
    l.
Proof.
  revert c. induction l as [| n l IH]; intros c Hw; [done |].
  destruct Hw as [Hn Hw]. apply edge_rank in Hn as [Hle Hlt].
  constructor; [done |].
  eapply Forall_impl; [apply (IH n Hw) |]. cbn. intros x [Hle' Hlt']. lia.
Qed.

(** On a walk, a state outside the suspend/resume cycle occurs once at
    most. *)
Lemma walk_once (c x : string) (l : list string) :
  Protocol.walk c l → Protocol.rank x ≠ 3 →
  length (filter (λ s, s = x) l) ≤ 1.
Proof.
  revert c. induction l as [| n l IH]; intros c Hw Hx; [cbn; lia |].
  destruct Hw as [Hn Hw]. rewrite filter_cons. case_decide as Hnx.
  - subst n. pose proof (walk_rank x l Hw) as Hr.
    assert (filter (λ s, s = x) l = []) as ->.
    { clear IH Hw Hn. induction l as [| y l IHl]; [done |].
      apply Forall_cons in Hr as [Hy Hr]. rewrite filter_cons.
      case_decide as Hyx; [subst y; lia | by apply IHl]. }
    done.
  - by apply (IH n).
Qed.

End Graph.

Section WithoutReset.

Import Lifecycle.
Implicit Types (l : Lifecycle.t) (w : Lifecycle.world) (d : descriptor).

(** What [#run] does to the controller: nothing, or the interim
    transition with its notification, and perhaps one call of the
    handler. *)
Lemma run_effect d l :
  (run d l).1 = l
  ∨ StateMachine.allows (stateMachine l) (interimState d) = true
    ∧ StateMachine.current (stateMachine (run d l).1) = interimState d
    ∧ StateMachine.transitions (stateMachine (run d l).1)
      = StateMachine.transitions (stateMachine l)
    ∧ notified (run d l).1 = notified l ++ [interimState d]
    ∧ (calls (run d l).1 = calls l
       ∨ calls (run d l).1 = calls l ++ [operation d]).
Proof.
  destruct (StateMachine.allows (stateMachine l) (interimState d)) eqn:Ha.
  2: { left. by rewrite (run_refused _ _ Ha). }
  right. split; [done |].
  destruct (onTransition l (interimState d)) as [| v] eqn:Ho.
  - destruct (run_started d l Ha Ho) as (m & h & _ & Hc & Hg & ->).
    cbn. repeat split; try done. by right.
  - destruct (run_aborted d l v Ha Ho) as (m & h & Ht & Hc & ->).
    destruct (transition_frame (interimState d) (stateMachine l) (heap l))
      as [Hg _].
    rewrite Ht in Hg. cbn. repeat split; try done. by left.
Qed.

(** What the rest of [#run] does: nothing, or the final transition with
    its notification. *)
Lemma run_resume_effect d r l :
  (run_resume d r l).1 = l
  ∨ StateMachine.allows (stateMachine l) (toState d) = true
    ∧ StateMachine.current (stateMachine (run_resume d r l).1) = toState d
    ∧ StateMachine.transitions (stateMachine (run_resume d r l).1)
      = StateMachine.transitions (stateMachine l)
    ∧ notified (run_resume d r l).1 = notified l ++ [toState d]
    ∧ calls (run_resume d r l).1 = calls l.
Proof.
  unfold run_resume. destruct (operation_result _ _); [| by left].
  destruct (bool_decide _ && StateMachine.allows _ _) eqn:Hc; [| by left].
  apply andb_prop in Hc as [_ Ha]. right. split; [done |].
  destruct (machine_transition_allowed _ _ Ha) as (m & h & Ht & -> & Hm).
  destruct (transition_frame (toState d) (stateMachine l) (heap l))
    as [Hg _].
  rewrite Ht in Hg. unfold notify. cbn.
  by destruct (onTransition l (toState d)).
Qed.

Lemma on_track_exec (o : handlers) (evs : list event) :
  Forall Protocol.no_reset evs →
  Protocol.on_track (Queue.env (exec evs (new o))).
Proof.
  intros Hno.
  apply (preserved_exec Protocol.on_track (λ c, c ≠ CallReset)); try done.
  - intros d l (Hg & Hw & Hc).
    destruct (run_effect d l) as [-> | (Ha & Hc' & Hg' & Hn & _)]; [done |].
    rewrite (allows_edge _ _ Hg), Hc in Ha.
    split; [congruence |]. rewrite Hn, last_snoc. split; [| done].
    by apply walk_snoc.
  - intros d r l (Hg & Hw & Hc).
    destruct (run_resume_effect d r l)
      as [-> | (Ha & Hc' & Hg' & Hn & _)]; [done |].
    rewrite (allows_edge _ _ Hg), Hc in Ha.
    split; [congruence |]. rewrite Hn, last_snoc. split; [| done].
    by apply walk_snoc.
  - intros q w _ (Hg & Hw & Hc). unfold until.
    destruct (until_frame q (stateMachine (Queue.env w))
                (heap (Queue.env w))) as [Hc' Hg'].
    destruct (StateMachine.until _ _ _) as [[p m] h]. cbn in *.
    unfold Protocol.on_track. cbn.
    split; [congruence |]. split; [done | congruence].
  - eapply Forall_impl; [exact Hno |]. intros ev Hev c ->.
    intros ->. by apply Hev.
Qed.

End WithoutReset.

(** X15.  Without [reset()], the observer sees every change of state, in
    order: the states it has been given, one after the other, follow the
    edges of the lifecycle graph from [init], and the current state is the
    last of them ([init] when there is none). *)
Theorem observer_log_follows_the_graph
    (o : Lifecycle.handlers) (evs : list Lifecycle.event) :
  Forall Protocol.no_reset evs →
  let w := Lifecycle.exec evs (Lifecycle.new o) in
  Protocol.walk "init" (Lifecycle.notified (Queue.env w))
  ∧ Lifecycle.state w
    = default "init" (last (Lifecycle.notified (Queue.env w))).
Proof.
  intros Hno w. by destruct (on_track_exec o evs Hno) as (_ & Hw & Hc).
Qed.

(** X16.  Without [reset()], a controller enters each of [opening],
    [opened], [closing] and [closed] once at most, however many calls are
    made and in whatever order: only the states of the suspend/resume
    cycle can come again.  So, of any number of [open()] calls, one at most
    gets past the guard of the runner. *)
Theorem states_outside_the_cycle_come_once
    (o : Lifecycle.handlers) (evs : list Lifecycle.event) (x : string) :
  Forall Protocol.no_reset evs →
  x ∈ ["opening"; "opened"; "closing"; "closed"] →
  length
    (filter (λ s, s = x)
       (Lifecycle.notified (Queue.env (Lifecycle.exec evs (Lifecycle.new o)))))
  ≤ 1.
Proof.
  intros Hno Hx. destruct (on_track_exec o evs Hno) as (_ & Hw & _).
  apply (walk_once "init"); [done |].
  repeat (apply elem_of_cons in Hx as [-> | Hx]);
    [.. | by apply elem_of_nil in Hx]; vm_compute; lia.
Qed.

(** X17.  [closed] is final until [reset()]: once a controller is closed,
    no call of [open], [close], [suspend], [resume], [transition], [until]
    or [on], and nothing that is still in the queue, changes the state,
    calls a handler or tells the observer. *)
Theorem closed_is_final_without_reset
    (o : Lifecycle.handlers) (evs0 evs : list Lifecycle.event) :
  let w := Lifecycle.exec evs0 (Lifecycle.new o) in
  let w' := Lifecycle.exec evs w in
  Lifecycle.state w = "closed" →
  Forall Protocol.no_reset evs →
  Lifecycle.state w' = "closed"
  ∧ Lifecycle.calls (Queue.env w') = Lifecycle.calls (Queue.env w)
  ∧ Lifecycle.notified (Queue.env w') = Lifecycle.notified (Queue.env w).
Proof.
  intros w w' Hs Hno.
  destruct (reachable_sound o evs0) as ([(Hg & _ & _) _] & _). fold w in Hg.
  set (Φ := λ l : Lifecycle.t,
         StateMachine.transitions (Lifecycle.stateMachine l)
         = Lifecycle.lifecycle_transitions
         ∧ StateMachine.current (Lifecycle.stateMachine l) = "closed"
         ∧ Lifecycle.calls l = Lifecycle.calls (Queue.env w)
         ∧ Lifecycle.notified l = Lifecycle.notified (Queue.env w)).
  assert (∀ l x, Φ l →
                 StateMachine.allows (Lifecycle.stateMachine l) x = false)
    as Hno_edge.
  { intros l x (Hgl & Hcl & _). rewrite (allows_edge _ _ Hgl), Hcl.
    apply edge_closed. }
  assert (Φ (Queue.env w')) as (_ & Hc & Hcalls & Hnot); [| done].
  apply (preserved_exec Φ (λ c, c ≠ Lifecycle.CallReset)); try done.
  - intros d l Hl. by rewrite (run_refused _ _ (Hno_edge l _ Hl)).
  - intros d r l Hl.
    destruct (run_resume_effect d r l) as [-> | (Ha & _)]; [done |].
    by rewrite (Hno_edge l _ Hl) in Ha.
  - intros q w0 _ (Hgl & Hcl & Hk & Hn). unfold Lifecycle.until.
    destruct (until_frame q (Lifecycle.stateMachine (Queue.env w0))
                (Lifecycle.heap (Queue.env w0))) as [Hc' Hg'].
    destruct (StateMachine.until _ _ _) as [[p m] h]. cbn in *.
    unfold Φ. cbn. split; [congruence |]. split; [congruence | done].
  - eapply Forall_impl; [exact Hno |]. intros ev Hev c ->.
    intros ->. by apply Hev.
Qed.

(** X18.  [reset()] makes a fresh start possible from any state: on a
    controller at rest whose observer returns, [reset()] brings the state
    to [init], and an [open()] that follows calls the open handler once
    more and, when it succeeds, takes the controller through [opening] to
    [opened]; the handlers, the observer and the promises settled so far
    are as they were. *)
Theorem reset_then_open_starts_again
    (o : Lifecycle.handlers) (evs : list Lifecycle.event)
    (r : Lifecycle.result) :
  let w := Lifecycle.exec evs (Lifecycle.new o) in
  let l := Queue.env w in
  let w1 := Lifecycle.reset w in
  let w2 :=
    Lifecycle.exec [Lifecycle.Call Lifecycle.CallOpen;
                    Lifecycle.OperationSettles 0 r; Lifecycle.Continue 0]
      w1 in
  Queue.idle w →
  Protocol.quiet l →
  Lifecycle.operation_result (Lifecycle.op_open (Lifecycle.operations l)) r
    = Lifecycle.Returns →
  (Lifecycle.state w1 = "init"
   ∧ Lifecycle.operations (Queue.env w1) = Lifecycle.operations l
   ∧ Lifecycle.onTransition (Queue.env w1) = Lifecycle.onTransition l
   ∧ Queue.settled w1 = Queue.settled w)
  ∧ Lifecycle.state w2 = "opened"
  ∧ Lifecycle.calls (Queue.env w2)
    = Lifecycle.calls l ++ [Lifecycle.op_open (Lifecycle.operations l)]
  ∧ Lifecycle.notified (Queue.env w2)
    = Lifecycle.notified l ++ ["opening"; "opened"]
  ∧ Queue.settled w2 = Queue.settled w ++ [(Queue.next_handle w, Ok)]
  ∧ Queue.idle w2.
Proof.
  intros w l w1 w2 Hidle Hq Hr.
  destruct (reachable_sound o evs) as ([_ Hg] & _). fold w l in Hg.
  split; [done |].
  set (d := Lifecycle.Descriptor
              (Lifecycle.op_open (Lifecycle.operations l))
              "opening" "opened").
  assert (StateMachine.transitions
            (Lifecycle.stateMachine (Queue.env w1))
          = Lifecycle.lifecycle_transitions) as Hg1 by exact Hg.
  assert (StateMachine.allows (Lifecycle.stateMachine (Queue.env w1))
            (Lifecycle.interimState d) = true) as Ha.
  { rewrite (allows_edge _ _ Hg1). by vm_compute. }
  destruct (at_rest_success w1 Lifecycle.CallOpen d r Hg1 Hidle eq_refl Ha
              Hq Hr) as (_ & H2 & H3 & H4 & H5 & H6 & _).
  assert (Protocol.edge (Lifecycle.interimState d) (Lifecycle.toState d)
          = true) as He by (by vm_compute).
  rewrite He in H2, H4. done.
Qed.

(** What the suspended processor calls of a queue remember. *)
Section InFlight.

Context {P X K R E : Type}.
Variable processor : P → X → X * (K + outcome E).
Variable processor_resume : K → R → X → X * outcome E.
Variable Ξ : K → Prop.

Implicit Types w : @Queue.world P X K E.

Lemma suspended_drain w :
  (∀ p s, (processor p (Queue.env w)).2 = inl s → Ξ s) →
  Forall (λ a, ∀ s, Queue.awaited a = inl s → Ξ s) (Queue.loops w) →
  Forall (λ a, ∀ s, Queue.awaited a = inl s → Ξ s)
    (Queue.loops (Queue.drain processor w)).
Proof.
  intros Hp Hl. unfold Queue.drain.
  destruct (Queue.items (Queue.queue w)) as [| e rest]; [done |].
  specialize (Hp (Queue.item e)).
  destruct (processor (Queue.item e) (Queue.env w)) as [x a]. cbn in *.
  apply Forall_app. split; [done |]. by apply Forall_singleton.
Qed.

Lemma suspended_step w (ev : @Queue.event P R) :
  (∀ p s, (processor p (Queue.env w)).2 = inl s → Ξ s) →
  Forall (λ a, ∀ s, Queue.awaited a = inl s → Ξ s) (Queue.loops w) →
  Forall (λ a, ∀ s, Queue.awaited a = inl s → Ξ s)
    (Queue.loops (Queue.step processor processor_resume w ev)).
Proof.
  intros Hp Hl. destruct ev as [i | k r | k]; cbn [Queue.step].
  - unfold Queue.enqueue. cbn. destruct (negb _); [| done].
    unfold Queue.processQueue. destruct (_ || _); [done |].
    by apply suspended_drain.
  - unfold Queue.settle.
    destruct (Queue.loops w !! k) as [[e [s | o]] |] eqn:Hk; try done.
    destruct (processor_resume s r (Queue.env w)) as [x o]. cbn.
    by apply Forall_insert.
  - unfold Queue.continue.
    destruct (Queue.loops w !! k) as [[e [s | o]] |] eqn:Hk; try done.
    apply suspended_drain; [done |]. cbn. by apply Forall_delete.
Qed.

End InFlight.

Section Reentrant.

Import Lifecycle.
Implicit Types (l : Lifecycle.t) (w : Lifecycle.world) (d : descriptor).

Lemma no_edge_to_init (a : string) : Protocol.edge a "init" = false.
Proof.
  destruct (Protocol.edge a "init") eqn:He; [| done].
  apply edge_rank in He. vm_compute (Protocol.rank "init") in He. lia.
Qed.

Lemma no_self_edge (a : string) : Protocol.edge a a = false.
Proof.
  destruct (decide (a ∈ labels)) as [Ha | Ha].
  - unfold labels in Ha.
    repeat (apply elem_of_cons in Ha as [-> | Ha]);
      [.. | by apply elem_of_nil in Ha]; by vm_compute.
  - unfold Protocol.edge. rewrite (lifecycle_transitions_None a Ha).
    apply bool_decide_eq_false, not_elem_of_nil.
Qed.

(** The runner suspends on a descriptor only when its interim state was
    allowed, and then it remembers that descriptor. *)
Lemma run_suspends d l d' :
  (run d l).2 = inl d' →
  d' = d
  ∧ StateMachine.allows (stateMachine l) (interimState d) = true.
Proof.
  unfold run. destruct (StateMachine.allows _ _); cbn; [| done].
  unfold machine_transition.
  destruct (StateMachine.transition _ _ _) as [[[e | []] m] h]; [done |].
  cbn. destruct (onTransition l (interimState d)); [| done].
  by intros [= <-].
Qed.

(** The interim state of an operation in flight is not [init]. *)
Lemma in_flight_interim (o : handlers) (evs : list event) :
  Forall (λ a, ∀ d, Queue.awaited a = inl d → interimState d ≠ "init")
    (Queue.loops (exec evs (new o))).
Proof.
  induction evs as [| ev evs IH] using rev_ind; [done |].
  rewrite exec_app. cbn [exec foldl].
  destruct (reachable_sound o evs) as ([(Hg & _ & _) _] & _).
  set (w := exec evs (new o)) in *.
  assert (∀ y, StateMachine.transitions (stateMachine y)
               = lifecycle_transitions →
               ∀ p s, (run p y).2 = inl s → interimState s ≠ "init")
    as Hrun.
  { intros y Hy p s [-> Ha]%run_suspends Hi.
    rewrite (allows_edge _ _ Hy), Hi, no_edge_to_init in Ha. done. }
  destruct ev as [c | k r | k]; cbn [step].
  - assert (∀ f i x,
              Forall (λ a, ∀ d, Queue.awaited a = inl d →
                                interimState d ≠ "init")
                (Queue.loops (enqueue f i x w).2)) as Henq.
    { intros.
      apply (suspended_step run run_resume _ w (Queue.Enqueue _));
        [by apply Hrun | done]. }
    destruct c as [| | | | op i x | q | f |]; cbn [do_call];
      try apply Henq; try done.
    + unfold transition. destruct (lookup_operation _ _) as [f |]; [| done].
      specialize (Henq f i x). by destruct (enqueue f i x w).
    + unfold until. by destruct (StateMachine.until _ _ _) as [[? ?] ?].
  - apply (suspended_step run run_resume _ w (Queue.Settle k r));
      [by apply Hrun | done].
  - apply (suspended_step run run_resume _ w (Queue.Continue k));
      [by apply Hrun | done].
Qed.

End Reentrant.

(** X19.  [reset()] while an operation is in flight: when the handler
    settles, the runner finds the new machine at [init], which is not its
    interim state, and skips the final transition.  The state stays at
    [init], the observer is not told, and the call is still settled with
    the outcome of the handler. *)
Theorem reset_during_an_operation
    (o : Lifecycle.handlers) (evs : list Lifecycle.event)
    (e : @Queue.entry Lifecycle.descriptor) (d : Lifecycle.descriptor)
    (r : Lifecycle.result) :
  let w := Lifecycle.exec evs (Lifecycle.new o) in
  let w' :=
    Lifecycle.exec [Lifecycle.Call Lifecycle.CallReset;
                    Lifecycle.OperationSettles 0 r] w in
  Queue.loops w = [Queue.Activation e (inl d)] →
  Lifecycle.state w' = "init"
  ∧ Lifecycle.notified (Queue.env w') = Lifecycle.notified (Queue.env w)
  ∧ Lifecycle.calls (Queue.env w') = Lifecycle.calls (Queue.env w)
  ∧ Queue.loops w'
    = [Queue.Activation e
         (inr match Lifecycle.operation_result (Lifecycle.operation d) r with
              | Lifecycle.Returns => Ok
              | Lifecycle.Throws v => Err (Thrown v)
              end)].
Proof.
  intros w w' Hl.
  pose proof (in_flight_interim o evs) as Hin. fold w in Hin.
  rewrite Hl in Hin.
  pose proof (proj1 (Forall_singleton _ _) Hin d eq_refl) as Hi.
  cbn in Hi.
  subst w'. cbn [Lifecycle.exec foldl Lifecycle.step Lifecycle.do_call].
  rewrite (settle_pending Lifecycle.run_resume (Lifecycle.reset w) e d r Hl).
  unfold Lifecycle.state. cbn.
  unfold Lifecycle.run_resume, StateMachine.state. cbn.
  destruct (Lifecycle.operation_result _ _); [| done].
  rewrite bool_decide_eq_false_2 by done. done.
Qed.

(** X20.  Waiting for the end of an operation.  On a controller at rest,
    when an operation has started and a caller then asks [until] for its
    final state, the promise is pending while the handler runs and is
    resolved when the handler has succeeded and the runner has made the
    final transition. *)
Theorem until_is_released_by_the_operation
    (o : Lifecycle.handlers) (evs : list Lifecycle.event)
    (c : Lifecycle.call) (d : Lifecycle.descriptor) (r : Lifecycle.result) :
  let w := Lifecycle.exec evs (Lifecycle.new o) in
  let l := Queue.env w in
  let w1 := Lifecycle.exec [Lifecycle.Call c] w in
  let '(p, w1') := Lifecycle.until (Lifecycle.toState d) w1 in
  let w2 :=
    Lifecycle.exec [Lifecycle.OperationSettles 0 r; Lifecycle.Continue 0]
      w1' in
  Queue.idle w →
  Protocol.descriptor_of (Lifecycle.operations l) c = Some d →
  StateMachine.allows (Lifecycle.stateMachine l) (Lifecycle.interimState d)
    = true →
  Protocol.edge (Lifecycle.interimState d) (Lifecycle.toState d) = true →
  Protocol.quiet l →
  Lifecycle.operation_result (Lifecycle.operation d) r = Lifecycle.Returns →
  Lifecycle.state w1' = Lifecycle.interimState d
  ∧ (p ∉ resolved (Lifecycle.heap (Queue.env w1')))
  ∧ Lifecycle.state w2 = Lifecycle.toState d
  ∧ p ∈ resolved (Lifecycle.heap (Queue.env w2))
  ∧ Queue.idle w2.
Proof.
  intros w l w1.
  pose proof (reachable_sound o (evs ++ [Lifecycle.Call c]))
    as ([(Hg1 & _ & Hwf1) _] & _).
  rewrite exec_app in Hg1, Hwf1. fold w in Hg1, Hwf1.
  change (Lifecycle.exec [Lifecycle.Call c] w) with w1 in Hg1, Hwf1.
  unfold Lifecycle.until.
  set (m1 := Lifecycle.stateMachine (Queue.env w1)) in *.
  set (h1 := Lifecycle.heap (Queue.env w1)) in *.
  pose proof (wf_until m1 h1 (Lifecycle.toState d) Hwf1) as Hwf.
  pose proof (until_frame (Lifecycle.toState d) m1 h1) as [Hcur Hgr].
  pose proof (until_registered m1 h1 (Lifecycle.toState d)) as Hreg.
  pose proof (until_fresh m1 h1 (Lifecycle.toState d)) as Hfresh.
  destruct (StateMachine.until (Lifecycle.toState d) m1 h1)
    as [[p m] h]. cbn in Hwf, Hcur, Hgr.
  intros Hidle Hd Ha He Hq Hr.
  destruct (run_started d l Ha (Hq _)) as (m0 & h0 & Ht & Hc & Hgm & Hrun).
  assert (w1
          = (let e := Queue.Entry d (Queue.next_handle w) in
             Queue.World (Queue.mk [e] true)
               (Lifecycle.mk m0 (Lifecycle.operations l)
                  (Lifecycle.transitions l) (Lifecycle.onTransition l) h0
                  (Lifecycle.calls l ++ [Lifecycle.operation d])
                  (Lifecycle.notified l ++ [Lifecycle.interimState d]))
               [Queue.Activation e (inl d)]
               (S (Queue.next_handle w)) (Queue.enqueued w ++ [e])
               (Queue.started w ++ [e]) (Queue.settled w))) as Hw1.
  { subst w1. cbn [Lifecycle.exec foldl Lifecycle.step].
    rewrite (call_at_rest c d w Hidle Hd). fold l. by rewrite Hrun. }
  assert (StateMachine.current m1 = Lifecycle.interimState d) as Hc1.
  { subst m1. by rewrite Hw1. }
  assert (StateMachine.current m1 ≠ Lifecycle.toState d) as Hne.
  { rewrite Hc1. intros Heq. rewrite Heq, no_self_edge in He. done. }
  assert (StateMachine.transitionPromises m !! Lifecycle.toState d = Some p)
    as Hslot.
  { destruct (StateMachine.transitionPromises m1 !! Lifecycle.toState d)
      as [p0 |] eqn:Hp0.
    - specialize (Hreg p0 Hne eq_refl). injection Hreg as Ep Em Eh.
      by rewrite Em, Ep.
    - specialize (Hfresh Hne eq_refl). injection Hfresh as Ep Em Eh.
      rewrite Em, Ep. cbn. apply lookup_insert_eq. }
  destruct (StateMachine.wf_pending _ _ Hwf _ _ Hslot) as (_ & _ & Hpend).
  set (w1' := Queue.set_env _ w1).
  set (l1' := Lifecycle.set_machine m h (Queue.env w1)).
  assert (StateMachine.allows m (Lifecycle.toState d) = true) as Ha2.
  { rewrite allows_edge by congruence. by rewrite Hcur, Hc1. }
  destruct (run_resume_done d r l1' Hr) as (m2 & h2 & Ht2 & Hc2 & Hres).
  { cbn. congruence. }
  { done. }
  { subst l1'. rewrite Hw1. apply Hq. }
  assert (Lifecycle.exec
            [Lifecycle.OperationSettles 0 r; Lifecycle.Continue 0] w1'
          = Queue.World (Queue.mk [] false)
              (Lifecycle.run_resume d r l1').1 []
              (Queue.next_handle w1') (Queue.enqueued w1')
              (Queue.started w1')
              (Queue.settled w1'
               ++ [(Queue.next_handle w,
                    (Lifecycle.run_resume d r l1').2)])) as Hw2.
  { apply (operation_finishes w1'
             (Queue.Entry d (Queue.next_handle w)) d r);
      subst w1'; by rewrite Hw1. }
  rewrite Hw2, Hres. unfold Lifecycle.state, StateMachine.state. cbn.
  split; [congruence |]. split; [done |]. split; [done |].
  split; [| by repeat split].
  cbn in Ht2. rewrite (transition_allowed_wf m h _ Hwf Ha2), Hslot in Ht2.
  injection Ht2 as _ <-. cbn. by apply elem_of_union_l, elem_of_singleton.
Qed.

(** [is] and [not] on a controller, whatever has happened to it:
    [is(s)] holds of the current state and of no other; with the nine
    labels as arguments [is] is true and [not] false; with no argument
    [is] is false and [not] true; and [not] is the negation of [is]. *)
Theorem is_and_not_test_the_current_state
    (o : Lifecycle.handlers) (evs : list Lifecycle.event)
    (s : string) (qs : list string) :
  let w := Lifecycle.exec evs (Lifecycle.new o) in
  (Lifecycle.is_ [s] w = true ↔ Lifecycle.state w = s)
  ∧ (Lifecycle.is_ qs w = true ↔ Lifecycle.state w ∈ qs)
  ∧ Lifecycle.not qs w = negb (Lifecycle.is_ qs w)
  ∧ Lifecycle.is_ Lifecycle.labels w = true
  ∧ Lifecycle.not Lifecycle.labels w = false
  ∧ Lifecycle.is_ [] w = false
  ∧ Lifecycle.not [] w = true.
Proof.
  intros w.
  destruct (reachable_sound o evs) as ([(_ & Hlab & _) _] & _).
  fold w in Hlab. unfold Lifecycle.is_, Lifecycle.not.
  split.
  { rewrite bool_decide_eq_true, list_elem_of_singleton. done. }
  split; [apply bool_decide_eq_true |]. split; [done |].
  rewrite (bool_decide_eq_true_2 _ Hlab).
  rewrite (bool_decide_eq_false_2 (_ ∈ [])) by apply not_elem_of_nil.
  done.
Qed.

(** X3.  A queue on its own runs to the end.  When [n] items have been
    enqueued and the processor has settled for each in turn, every promise
    is settled, the [k]-th with the outcome of the [k]-th processor call,
    failures included; [#items] is empty and the drain loop has ended. *)
Theorem queue_runs_to_completion
    {P E : Type} (items : list P) (rs : list (outcome E)) :
  length rs = length items →
  let w :=
    UserQueue.exec (map Queue.Enqueue items ++ UserQueue.deliveries rs)
      UserQueue.new in
  Queue.settled w = zip (seq 0 (length items)) rs
  ∧ map Queue.item (Queue.started w) = items
  ∧ Queue.items (Queue.queue w) = []
  ∧ Queue.loops w = []
  ∧ Queue.processing (Queue.queue w) = false.
Proof.
  intros Hlen w.
  destruct (user_queue_completes items rs Hlen) as (Hs & Hi & Hl & Hp).
  fold w in Hs, Hi, Hl, Hp.
  split; [done |]. split; [| done].
  (* every item has been started: the started ones are a prefix of the
     enqueued ones, and as many as the settled ones *)
  assert (Queue.inv w) as Hinv by apply inv_exec, inv_new.
  destruct Hinv as [_ _ (fin & He & Hf & Hst)].
  rewrite Hi, app_nil_r in He. rewrite Hl, app_nil_r in Hst.
  rewrite Hst, <- He. clear -w.
  subst w. unfold UserQueue.exec, Queue.exec. rewrite foldl_app.
  assert (∀ (w0 : @UserQueue.world P E) evs,
            (∀ ev, ev ∈ evs → ∀ i, ev ≠ Queue.Enqueue i) →
            Queue.enqueued
              (foldl (Queue.step UserQueue.processor
                        UserQueue.processor_resume) w0 evs)
            = Queue.enqueued w0) as Hkeep.
  { intros w0 evs. revert w0.
    induction evs as [| ev evs IH]; intros w0 Hev; [done |].
    cbn [foldl]. rewrite IH.
    - destruct ev as [i | k r | k]; cbn [Queue.step].
      + by destruct (Hev (Queue.Enqueue i) ltac:(left) i).
      + unfold Queue.settle.
        destruct (Queue.loops w0 !! k) as [[e [s | o0]] |]; try done.
      + unfold Queue.continue.
        destruct (Queue.loops w0 !! k) as [[e [s | o0]] |]; try done.
        by rewrite enqueued_drain.
    - intros ev' Hin. apply Hev. by right. }
  rewrite Hkeep.
  2: { intros ev Hin i ->. unfold UserQueue.deliveries in Hin.
       apply list_elem_of_In, in_flat_map in Hin as (r & _ & Hin).
       cbn in Hin. by destruct Hin as [[=] | [[=] | []]]. }
  assert (∀ (w0 : @UserQueue.world P E) l,
            map Queue.item
              (Queue.enqueued
                 (foldl (Queue.step UserQueue.processor
                           UserQueue.processor_resume) w0
                    (map Queue.Enqueue l)))
            = map Queue.item (Queue.enqueued w0) ++ l) as Hall.
  { intros w0 l. revert w0.
    induction l as [| i l IH]; intros w0; [by rewrite app_nil_r |].
    cbn [map foldl Queue.step]. rewrite IH, enqueued_enqueue, map_app.
    cbn. by rewrite <- app_assoc. }
  by rewrite Hall.
Qed.

(** An item that arrives while the queue is busy. *)
Section Arrival.

Context {P X K R E : Type}.
Variable processor : P → X → X * (K + outcome E).
Variable processor_resume : K → R → X → X * outcome E.

Implicit Types w : @Queue.world P X K E.

Lemma enqueue_commutes w (i : P) (ev : @Queue.event P R) :
  Queue.busy w →
  (∀ j, ev ≠ Queue.Enqueue j) →
  Queue.step processor processor_resume (Queue.enqueue processor i w).2 ev
  = (Queue.enqueue processor i
       (Queue.step processor processor_resume w ev)).2
  ∧ (Queue.enqueue processor i
       (Queue.step processor processor_resume w ev)).1
    = (Queue.enqueue processor i w).1.
Proof.
  intros (e & a & rest & Hl & Hp & Hi) Hev.
  destruct w as [[its pr] x ls nh enq st se]. cbn in Hl, Hp, Hi. subst.
  destruct ev as [j | k r | k]; [by destruct (Hev j) | |].
  - destruct k as [| k]; [| done].
    destruct a as [s | o0]; [| done].
    cbn. unfold Queue.settle. cbn.
    by destruct (processor_resume s r x) as [x' o0].
  - destruct k as [| k]; [| done].
    destruct a as [s | o0]; [done |].
    cbn. unfold Queue.continue, Queue.enqueue, Queue.processQueue. cbn.
    destruct rest as [| e2 rest]; cbn.
    + by destruct (processor i x).
    + by destruct (processor (Queue.item e2) x) as [x' a2].
Qed.

End Arrival.

(** X21.  The moment at which an item arrives does not matter to a busy
    queue: enqueueing an item and then letting the processor settle, or the
    drain loop move on, gives the same queue, the same calls of the
    processor and the same promise for the item as letting that happen
    first and enqueueing afterwards. *)
Theorem arrival_time_does_not_matter
    {P X K R E : Type}
    (processor : P → X → X * (K + outcome E))
    (processor_resume : K → R → X → X * outcome E)
    (x : X) (evs : list (@Queue.event P R)) (i : P)
    (ev : @Queue.event P R) :
  let w := Queue.exec processor processor_resume evs (Queue.new x) in
  Queue.processing (Queue.queue w) = true →
  (∀ j, ev ≠ Queue.Enqueue j) →
  Queue.step processor processor_resume (Queue.enqueue processor i w).2 ev
  = (Queue.enqueue processor i
       (Queue.step processor processor_resume w ev)).2
  ∧ (Queue.enqueue processor i
       (Queue.step processor processor_resume w ev)).1
    = (Queue.enqueue processor i w).1.
Proof.
  intros w Hp Hev.
  assert (Queue.inv w) as [Hs _ _] by apply inv_exec, inv_new.
  destruct Hs as [(_ & Hp' & _) | Hbusy]; [congruence |].
  by apply enqueue_commutes.
Qed.

Section BackToBack.

Import Lifecycle.
Implicit Types (l : Lifecycle.t) (w : Lifecycle.world) (d : descriptor).

(** The settling of a handler and the resumption of the drain loop keep
    the table of the handlers. *)
Lemma progress_keeps_operations w (ev : event) :
  (∀ c, ev ≠ Call c) →
  operations (Queue.env (step w ev)) = operations (Queue.env w).
Proof.
  intros Hev.
  apply (preserved_step (λ l, operations l = operations (Queue.env w))
           (λ _, False)); try done.
  - intros d l Hl. by rewrite (proj1 (run_frame d l)).
  - intros d r l Hl. by rewrite (proj1 (run_resume_frame d r l)).
Qed.

(** A call that enqueues, made while the controller is busy, can as well
    be made after the next step of the operation in progress. *)
Lemma call_commutes (c : call) d w (ev : event) :
  Queue.busy w →
  (∀ c', ev ≠ Call c') →
  Protocol.descriptor_of (operations (Queue.env w)) c = Some d →
  step (do_call c w) ev = do_call c (step w ev).
Proof.
  intros Hbusy Hev Hd.
  rewrite (do_call_enqueues c d w Hd).
  rewrite (do_call_enqueues c d (step w ev)).
  2: { destruct c as [| | | | op i x | q | f |]; cbn in *; try done;
         by rewrite (progress_keeps_operations w ev Hev). }
  destruct ev as [c' | k r | k]; cbn [step].
  - by destruct (Hev c').
  - by apply (enqueue_commutes run run_resume w d (Queue.Settle k r)).
  - apply (enqueue_commutes run run_resume w d (Queue.Continue k) Hbusy).
    done.
Qed.

(** The observer stays as long as [on] is not called. *)
Lemma observer_fixed (evs : list event) w :
  Forall (λ ev, ∀ f, ev ≠ Call (CallOn f)) evs →
  onTransition (Queue.env (exec evs w)) = onTransition (Queue.env w).
Proof.
  intros Hno.
  apply (preserved_exec
           (λ l, onTransition l = onTransition (Queue.env w))
           (λ c, ∀ f, c ≠ CallOn f)); try done.
  - intros d l Hl. by rewrite (proj2 (proj2 (run_frame d l))).
  - intros d r l Hl. by rewrite (proj2 (proj2 (run_resume_frame d r l))).
  - intros q w0 _ Hl. unfold until.
    by destruct (StateMachine.until _ _ _) as [[? ?] ?].
  - intros f w0 Hf. by destruct (Hf f).
  - eapply Forall_impl; [exact Hno |]. intros ev Hev c -> f ->.
    by apply (Hev f).
Qed.

End BackToBack.

(** X22.  Calls that are not awaited behave as if they were.  On a
    controller at rest, two of [open()], [close()], [suspend()],
    [resume()] called one right after the other leave the controller, once
    both handlers have succeeded, exactly as the first call, awaited, then
    the second call, awaited: the second operation sees the state the first
    one left. *)
Theorem back_to_back_calls_compose
    (o : Lifecycle.handlers) (evs : list Lifecycle.event)
    (c1 c2 : Lifecycle.call) :
  let w := Lifecycle.exec evs (Lifecycle.new o) in
  let named :=
    [Lifecycle.CallOpen; Lifecycle.CallClose; Lifecycle.CallSuspend;
     Lifecycle.CallResume] in
  let together :=
    Lifecycle.exec
      (Lifecycle.Call c1 :: Lifecycle.Call c2 :: succeeds ++ succeeds) w in
  let in_turn :=
    Lifecycle.exec (Lifecycle.Call c2 :: succeeds)
      (Lifecycle.exec (Lifecycle.Call c1 :: succeeds) w) in
  c1 ∈ named → c2 ∈ named →
  Queue.idle w →
  Protocol.quiet (Queue.env w) →
  together = in_turn
  ∧ Lifecycle.state together
    = Protocol.effect c2 (Protocol.effect c1 (Lifecycle.state w))
  ∧ Queue.settled together
    = Queue.settled w
      ++ [(Queue.next_handle w, Ok); (S (Queue.next_handle w), Ok)]
  ∧ Queue.idle together.
Proof.
  intros w named together in_turn Hc1 Hc2 Hidle Hq.
  assert (∃ d1, Protocol.descriptor_of
                  (Lifecycle.operations (Queue.env w)) c1 = Some d1)
    as [d1 Hd1].
  { subst named. repeat (apply elem_of_cons in Hc1 as [-> | Hc1]);
      [.. | by apply elem_of_nil in Hc1]; by eexists. }
  assert (∀ w0 : Lifecycle.world, ∃ d2, Protocol.descriptor_of
                        (Lifecycle.operations (Queue.env w0)) c2 = Some d2)
    as Hd2.
  { intros w0. subst named.
    repeat (apply elem_of_cons in Hc2 as [-> | Hc2]);
      [.. | by apply elem_of_nil in Hc2]; by eexists. }
  (* the world after the first call is busy, and stays so until its drain
     loop resumes *)
  set (wa := Lifecycle.do_call c1 w).
  assert (Queue.busy wa) as Hba.
  { subst wa. rewrite (call_at_rest c1 d1 w Hidle Hd1). cbn.
    by eexists _, _, []. }
  set (wb := Lifecycle.step wa
               (Lifecycle.OperationSettles 0 Lifecycle.Returns)).
  assert (Queue.busy wb) as Hbb.
  { subst wb wa. rewrite (call_at_rest c1 d1 w Hidle Hd1). cbn.
    unfold Queue.settle. cbn.
    destruct (Lifecycle.run d1 (Queue.env w)) as [l1 [s | o1]]; cbn.
    - destruct (Lifecycle.run_resume s Lifecycle.Returns l1). cbn.
      by eexists _, _, [].
    - by eexists _, _, []. }
  assert (together = in_turn) as Heq.
  { subst together in_turn. unfold succeeds. cbn [app].
    cbn [Lifecycle.exec foldl]. fold wa.
    change (Lifecycle.step w (Lifecycle.Call c1)) with wa.
    change (Lifecycle.step wa (Lifecycle.Call c2))
      with (Lifecycle.do_call c2 wa).
    destruct (Hd2 wa) as [d2 Hd2a]. destruct (Hd2 wb) as [d2' Hd2b].
    rewrite (call_commutes c2 d2 wa
               (Lifecycle.OperationSettles 0 Lifecycle.Returns) Hba);
      [| done | done].
    fold wb.
    by rewrite (call_commutes c2 d2' wb (Lifecycle.Continue 0) Hbb). }
  split; [done |]. rewrite Heq. subst in_turn.
  set (wm := Lifecycle.exec (Lifecycle.Call c1 :: succeeds) w).
  destruct (reachable_sound o evs) as ([(Hg & Hlab & _) _] & _).
  fold w in Hg, Hlab.
  destruct (named_effect_at_rest w c1 Hg Hlab Hc1 Hidle Hq)
    as (Hs1 & Hset1 & Hidle1).
  fold wm in Hs1, Hset1, Hidle1.
  destruct (reachable_sound o (evs ++ Lifecycle.Call c1 :: succeeds))
    as ([(Hgm & Hlabm & _) _] & _).
  rewrite exec_app in Hgm, Hlabm. fold w wm in Hgm, Hlabm.
  assert (Protocol.quiet (Queue.env wm)) as Hqm.
  { intros s. subst wm. rewrite observer_fixed; [apply Hq |].
    subst named. unfold succeeds.
    repeat (apply elem_of_cons in Hc1 as [-> | Hc1]);
      [.. | by apply elem_of_nil in Hc1];
      repeat constructor; done. }
  destruct (named_effect_at_rest wm c2 Hgm Hlabm Hc2 Hidle1 Hqm)
    as (Hs2 & Hset2 & Hidle2).
  rewrite Hs2, Hs1. split; [done |]. split; [| done].
  rewrite Hset2, Hset1, <- app_assoc. cbn. repeat f_equal.
  (* the handle of the second call *)
  subst wm. unfold succeeds.
  change (Lifecycle.exec (Lifecycle.Call c1 :: ?rest) w)
    with (Lifecycle.exec
            [Lifecycle.OperationSettles 0 Lifecycle.Returns;
             Lifecycle.Continue 0] (Lifecycle.do_call c1 w)).
  rewrite (call_at_rest c1 d1 w Hidle Hd1). cbn zeta.
  destruct (Lifecycle.run d1 (Queue.env w)) as [l1 [s | o1]].
  - unfold Queue.settle. cbn.
    by destruct (Lifecycle.run_resume s Lifecycle.Returns l1).
  - done.
Qed.

(** ** The further properties at concrete inputs *)

Lemma queue_runs_to_completion_witness :
  let w :=
    UserQueue.exec
      (map Queue.Enqueue ["a"; "b"]
       ++ UserQueue.deliveries [Ok; Err "boom"]) UserQueue.new in
  length [@Ok string; Err "boom"] = length ["a"; "b"]
  ∧ Queue.settled w = [(0, Ok); (1, Err "boom")]
  ∧ map Queue.item (Queue.started w) = ["a"; "b"]
  ∧ Queue.loops w = [].
Proof.
  intros w.
  destruct (queue_runs_to_completion ["a"; "b"] [@Ok string; Err "boom"]
              eq_refl) as (Hs & Hi & _ & Hl & _).
  split; [reflexivity |]. split; [exact Hs |]. split; [exact Hi | exact Hl].
Defined.

Lemma call_starts_runner_iff_idle_witness :
  let w :=
    Lifecycle.exec [Lifecycle.Call Lifecycle.CallOpen]
      (Lifecycle.new sample_handlers) in
  let d := Lifecycle.Descriptor Lifecycle.noop "closing" "closed" in
  let w' := Lifecycle.do_call Lifecycle.CallClose w in
  Protocol.descriptor_of (Lifecycle.operations (Queue.env w))
    Lifecycle.CallClose = Some d
  ∧ Queue.processing (Queue.queue w) = true
  ∧ Queue.enqueued w'
    = Queue.enqueued w ++ [Queue.Entry d (Queue.next_handle w)]
  ∧ Queue.settled w' = Queue.settled w
  ∧ Queue.loops w' = Queue.loops w.
Proof.
  intros w d w'.
  assert (Protocol.descriptor_of (Lifecycle.operations (Queue.env w))
            Lifecycle.CallClose = Some d) as Hd by (vm_compute; reflexivity).
  assert (Queue.processing (Queue.queue w) = true) as Hp
    by (vm_compute; reflexivity).
  destruct (call_starts_runner_iff_idle sample_handlers
              [Lifecycle.Call Lifecycle.CallOpen] Lifecycle.CallClose d Hd)
    as (_ & He & Hs & _ & H).
  fold w in H. rewrite Hp in H. destruct H as (_ & _ & Hl & _).
  split; [exact Hd |]. split; [exact Hp |]. split; [exact He |].
  split; [exact Hs | exact Hl].
Defined.

Lemma queue_outcomes_are_the_processor_s_witness :
  let processor :=
    λ (p : string) (y : nat), (S y, @inr unit (outcome string) Ok) in
  let processor_resume :=
    λ (s : unit) (r : unit) (y : nat), (y, @Ok string) in
  let w :=
    Queue.exec processor processor_resume
      [Queue.Enqueue "a"; Queue.Continue 0] (Queue.new 0) in
  Queue.settled w = [(0, Ok)] ∧ Forall (λ s, s.2 = Ok) (Queue.settled w).
Proof.
  intros processor processor_resume w.
  split; [reflexivity |].
  apply Forall_forall. intros [h o] Hin.
  apply (queue_outcomes_are_the_processor_s processor processor_resume
           (λ o, o = Ok) 0 [Queue.Enqueue "a"; Queue.Continue 0]) with h.
  - intros p y o' [=]. done.
  - done.
  - exact Hin.
Defined.

Lemma dead_end_state_is_final_witness :
  let s :=
    StateMachine.exec
      [StateMachine.Transition "started"; StateMachine.Transition "stopped"]
      (StateMachine.new sample_transitions, empty_heap) in
  let '(m', h') :=
    StateMachine.exec
      [StateMachine.Transition "init"; StateMachine.Until "started";
       StateMachine.Transition "started"] (s.1, s.2) in
  (StateMachine.current s.1 ∉ object_prototype_names)
  ∧ default [] (StateMachine.transitions s.1 !! StateMachine.current s.1)
    = []
  ∧ StateMachine.current m' = "stopped"
  ∧ StateMachine.transition "init" m' h'
    = (inl (InvalidTransition "stopped" "init"), m', h').
Proof.
  intros s.
  assert (StateMachine.current s.1 ∉ object_prototype_names) as Hown
    by (apply (bool_decide_unpack _); vm_compute; exact I).
  assert (default []
            (StateMachine.transitions s.1 !! StateMachine.current s.1)
          = []) as Hd by (vm_compute; reflexivity).
  pose proof (dead_end_state_is_final s.1 s.2
                [StateMachine.Transition "init"; StateMachine.Until "started";
                 StateMachine.Transition "started"] "init" Hown Hd) as H.
  destruct (StateMachine.exec _ (s.1, s.2)) as [m' h'].
  destruct H as (Hc & _ & Ht).
  split; [exact Hown |]. split; [exact Hd |].
  split; [vm_compute in Hc |- *; exact Hc |].
  rewrite Ht. by repeat f_equal.
Defined.

Lemma waiter_after_reentry_witness :
  let m := StateMachine.new processing_transitions in
  let '(p, m1, h1) := StateMachine.until "error" m empty_heap in
  let '(r, m2, h2) := StateMachine.transition "error" m1 h1 in
  let '(m3, h3) :=
    StateMachine.exec [StateMachine.Transition "init"] (m2, h2) in
  let '(p', m4, h4) := StateMachine.until "error" m3 h3 in
  ("error" ∉ object_prototype_names)
  ∧ StateMachine.current m ≠ "error"
  ∧ StateMachine.allows m1 "error" = true
  ∧ StateMachine.current m3 ≠ "error"
  ∧ p ∈ resolved h4
  ∧ p' ≠ p
  ∧ (p' ∉ resolved h4)
  ∧ StateMachine.transitionPromises m4 !! "error" = Some p'.
Proof.
  intros m.
  pose proof (waiter_after_reentry processing_transitions []
                [StateMachine.Transition "init"] "error") as H.
  change (StateMachine.exec [] (StateMachine.new processing_transitions,
                                empty_heap))
    with (m, empty_heap) in H.
  cbv iota beta in H.
  destruct (StateMachine.until "error" m empty_heap) as [[p m1] h1] eqn:Hu.
  destruct (StateMachine.transition "error" m1 h1) as [[r m2] h2] eqn:Ht.
  destruct (StateMachine.exec [StateMachine.Transition "init"] (m2, h2))
    as [m3 h3] eqn:He.
  destruct (StateMachine.until "error" m3 h3) as [[p' m4] h4].
  assert ("error" ∉ object_prototype_names) as H0
    by (apply (bool_decide_unpack _); vm_compute; exact I).
  assert (StateMachine.current m ≠ "error") as H1 by done.
  assert (StateMachine.allows m1 "error" = true) as H2.
  { vm_compute in Hu. injection Hu as <- <- <-. vm_compute. reflexivity. }
  assert (StateMachine.current m3 ≠ "error") as H3.
  { vm_compute in Hu. injection Hu as <- <- <-.
    vm_compute in Ht. injection Ht as <- <- <-.
    vm_compute in He. injection He as <- <-. done. }
  destruct (H H0 H1 H2 H3) as (_ & Hr & Hne & Hpend & Hslot).
  by repeat split.
Defined.

Lemma generic_transition_operator_lookup_witness :
  let w :=
    Lifecycle.exec [Lifecycle.Call Lifecycle.CallOpen]
      (Lifecycle.new sample_handlers) in
  ("restart" ∉ object_prototype_names)
  ∧ Lifecycle.transition "restart" "opening" "opened" w
    = (inl (UnknownOperator "restart"), w)
  ∧ message (UnknownOperator "restart") = "Unknown operator name: restart".
Proof.
  intros w.
  assert ("restart" ∉ object_prototype_names) as Hown
    by (apply (bool_decide_unpack _); vm_compute; exact I).
  destruct (generic_transition_operator_lookup sample_handlers
              [Lifecycle.Call Lifecycle.CallOpen] "restart" "opening"
              "opened" Hown) as [H _].
  rewrite bool_decide_eq_false_2 in H
    by (apply (bool_decide_unpack _); vm_compute; exact I).
  destruct H as [Ht Hm].
  split; [exact Hown |]. split; [exact Ht | exact Hm].
Defined.

Lemma operation_at_rest_succeeds_witness :
  let w := Lifecycle.exec [] (Lifecycle.new sample_handlers) in
  let d := Lifecycle.Descriptor (Lifecycle.user "f") "opening" "opened" in
  let w1 := Lifecycle.exec [Lifecycle.Call Lifecycle.CallOpen] w in
  let w2 :=
    Lifecycle.exec
      [Lifecycle.OperationSettles 0 Lifecycle.Returns; Lifecycle.Continue 0]
      w1 in
  Queue.idle w
  ∧ Protocol.descriptor_of (Lifecycle.operations (Queue.env w))
      Lifecycle.CallOpen = Some d
  ∧ Lifecycle.state w2 = "opened"
  ∧ Lifecycle.calls (Queue.env w2) = [Lifecycle.user "f"]
  ∧ Lifecycle.notified (Queue.env w2) = ["opening"; "opened"]
  ∧ Queue.settled w2 = [(0, Ok)].
Proof.
  intros w d w1 w2.
  assert (Queue.idle w) as Hidle by (by vm_compute).
  assert (Protocol.descriptor_of (Lifecycle.operations (Queue.env w))
            Lifecycle.CallOpen = Some d) as Hd by (vm_compute; reflexivity).
  destruct (operation_at_rest_succeeds sample_handlers []
              Lifecycle.CallOpen d Lifecycle.Returns Hidle Hd)
    as (_ & Hs & Hc & Hn & Hset & _); [by vm_compute .. |].
  split; [exact Hidle |]. split; [exact Hd |].
  split; [exact (eq_trans Hs eq_refl) |].
  split; [exact (eq_trans Hc eq_refl) |].
  split; [exact (eq_trans Hn eq_refl) |].
  exact (eq_trans Hset eq_refl).
Defined.

Lemma operation_at_rest_handler_fails_witness :
  let w := Lifecycle.new sample_handlers in
  let d := Lifecycle.Descriptor (Lifecycle.user "f") "opening" "opened" in
  let w2 :=
    Lifecycle.exec
      [Lifecycle.Call Lifecycle.CallOpen;
       Lifecycle.OperationSettles 0 (Lifecycle.Throws "boom");
       Lifecycle.Continue 0] w in
  Queue.idle w
  ∧ Lifecycle.operation_result (Lifecycle.operation d)
      (Lifecycle.Throws "boom") = Lifecycle.Throws "boom"
  ∧ Lifecycle.state w2 = "opening"
  ∧ Lifecycle.notified (Queue.env w2) = ["opening"]
  ∧ Queue.settled w2 = [(0, Err (Thrown "boom"))].
Proof.
  intros w d w2.
  assert (Queue.idle w) as Hidle by (by vm_compute).
  assert (Lifecycle.operation_result (Lifecycle.operation d)
            (Lifecycle.Throws "boom") = Lifecycle.Throws "boom") as Hr
    by (vm_compute; reflexivity).
  destruct (operation_at_rest_handler_fails sample_handlers []
              Lifecycle.CallOpen d (Lifecycle.Throws "boom") "boom" Hidle)
    as (Hs & _ & Hn & Hset & _); [by vm_compute .. |].
  split; [exact Hidle |]. split; [exact Hr |].
  split; [vm_compute in Hs |- *; exact Hs |].
  split; [vm_compute in Hn |- *; exact Hn |].
  vm_compute in Hset |- *; exact Hset.
Defined.

Lemma operation_at_rest_observer_throws_witness :
  let w :=
    Lifecycle.exec
      [Lifecycle.Call (Lifecycle.CallOn (λ _, Lifecycle.Throws "no"))]
      (Lifecycle.new sample_handlers) in
  let d := Lifecycle.Descriptor (Lifecycle.user "f") "opening" "opened" in
  let w2 :=
    Lifecycle.exec
      [Lifecycle.Call Lifecycle.CallOpen; Lifecycle.Continue 0] w in
  Queue.idle w
  ∧ Lifecycle.onTransition (Queue.env w) (Lifecycle.interimState d)
    = Lifecycle.Throws "no"
  ∧ Lifecycle.state w2 = "opening"
  ∧ Lifecycle.calls (Queue.env w2) = []
  ∧ Queue.settled w2 = [(0, Err (Thrown "no"))].
Proof.
  intros w d w2.
  assert (Queue.idle w) as Hidle by (by vm_compute).
  assert (Lifecycle.onTransition (Queue.env w) (Lifecycle.interimState d)
          = Lifecycle.Throws "no") as Ho by (vm_compute; reflexivity).
  destruct (operation_at_rest_observer_throws sample_handlers
              [Lifecycle.Call (Lifecycle.CallOn (λ _, Lifecycle.Throws "no"))]
              Lifecycle.CallOpen d "no" Hidle)
    as (Hs & Hc & _ & Hset & _); [by vm_compute .. |].
  split; [exact Hidle |]. split; [exact Ho |].
  split; [vm_compute in Hs |- *; exact Hs |].
  split; [vm_compute in Hc |- *; exact Hc |].
  vm_compute in Hset |- *; exact Hset.
Defined.

Lemma named_operation_effect_witness :
  let w :=
    Lifecycle.exec (Lifecycle.Call Lifecycle.CallOpen :: succeeds)
      (Lifecycle.new sample_handlers) in
  let w2 :=
    Lifecycle.exec (Lifecycle.Call Lifecycle.CallSuspend :: succeeds) w in
  Queue.idle w
  ∧ Protocol.quiet (Queue.env w)
  ∧ Lifecycle.state w = "opened"
  ∧ Lifecycle.state w2 = "suspended"
  ∧ Queue.settled w2 = [(0, Ok); (1, Ok)].
Proof.
  intros w w2.
  assert (Queue.idle w) as Hidle by (by vm_compute).
  assert (Protocol.quiet (Queue.env w)) as Hq by (by vm_compute).
  destruct (named_operation_effect sample_handlers
              (Lifecycle.Call Lifecycle.CallOpen :: succeeds)
              Lifecycle.CallSuspend) as (Hs & Hset & _);
    [by apply (list_elem_of_lookup_2 _ 2) | exact Hidle | exact Hq |].
  split; [exact Hidle |]. split; [exact Hq |].
  split; [vm_compute; reflexivity |].
  split; [vm_compute in Hs |- *; exact Hs |].
  vm_compute in Hset |- *; exact Hset.
Defined.

Lemma observer_log_follows_the_graph_witness :
  let evs :=
    Lifecycle.Call Lifecycle.CallOpen :: succeeds
    ++ Lifecycle.Call Lifecycle.CallClose :: succeeds in
  let w := Lifecycle.exec evs (Lifecycle.new open_close_handlers) in
  Forall Protocol.no_reset evs
  ∧ Lifecycle.notified (Queue.env w)
    = ["opening"; "opened"; "closing"; "closed"]
  ∧ Protocol.walk "init" (Lifecycle.notified (Queue.env w))
  ∧ Lifecycle.state w = "closed".
Proof.
  intros evs w.
  assert (Forall Protocol.no_reset evs) as Hno by (by repeat constructor).
  destruct (observer_log_follows_the_graph open_close_handlers evs Hno)
    as [Hw Hs].
  split; [exact Hno |]. split; [vm_compute; reflexivity |].
  split; [exact Hw |]. vm_compute in Hs |- *. exact Hs.
Defined.

Lemma states_outside_the_cycle_come_once_witness :
  let evs :=
    Lifecycle.Call Lifecycle.CallOpen :: Lifecycle.Call Lifecycle.CallOpen
    :: succeeds ++ succeeds in
  let w := Lifecycle.exec evs (Lifecycle.new sample_handlers) in
  Forall Protocol.no_reset evs
  ∧ Lifecycle.calls (Queue.env w) = [Lifecycle.user "f"]
  ∧ length (filter (λ s, s = "opening") (Lifecycle.notified (Queue.env w)))
    ≤ 1.
Proof.
  intros evs w.
  assert (Forall Protocol.no_reset evs) as Hno by (by repeat constructor).
  split; [exact Hno |]. split; [vm_compute; reflexivity |].
  apply (states_outside_the_cycle_come_once sample_handlers evs "opening"
           Hno).
  by apply (list_elem_of_lookup_2 _ 0).
Defined.

Lemma closed_is_final_without_reset_witness :
  let evs0 :=
    Lifecycle.Call Lifecycle.CallOpen :: succeeds
    ++ Lifecycle.Call Lifecycle.CallClose :: succeeds in
  let evs :=
    Lifecycle.Call Lifecycle.CallOpen :: succeeds
    ++ [Lifecycle.Call (Lifecycle.CallTransition "resume" "resuming"
                          "resumed")] in
  let w := Lifecycle.exec evs0 (Lifecycle.new open_close_handlers) in
  let w' := Lifecycle.exec evs w in
  Lifecycle.state w = "closed"
  ∧ Forall Protocol.no_reset evs
  ∧ Lifecycle.state w' = "closed"
  ∧ Lifecycle.calls (Queue.env w') = Lifecycle.calls (Queue.env w).
Proof.
  intros evs0 evs w w'.
  assert (Lifecycle.state w = "closed") as Hc by (vm_compute; reflexivity).
  assert (Forall Protocol.no_reset evs) as Hno by (by repeat constructor).
  destruct (closed_is_final_without_reset open_close_handlers evs0 evs Hc
              Hno) as (Hs & Hcalls & _).
  split; [exact Hc |]. split; [exact Hno |].
  split; [exact Hs | exact Hcalls].
Defined.

Lemma reset_then_open_starts_again_witness :
  let w :=
    Lifecycle.exec (Lifecycle.Call Lifecycle.CallOpen :: succeeds)
      (Lifecycle.new sample_handlers) in
  let w2 :=
    Lifecycle.exec [Lifecycle.Call Lifecycle.CallOpen;
                    Lifecycle.OperationSettles 0 Lifecycle.Returns;
                    Lifecycle.Continue 0] (Lifecycle.reset w) in
  Queue.idle w
  ∧ Protocol.quiet (Queue.env w)
  ∧ Lifecycle.state w = "opened"
  ∧ Lifecycle.state w2 = "opened"
  ∧ Lifecycle.calls (Queue.env w2)
    = [Lifecycle.user "f"; Lifecycle.user "f"]
  ∧ Lifecycle.notified (Queue.env w2)
    = ["opening"; "opened"; "opening"; "opened"].
Proof.
  intros w w2.
  assert (Queue.idle w) as Hidle by (by vm_compute).
  assert (Protocol.quiet (Queue.env w)) as Hq by (by vm_compute).
  destruct (reset_then_open_starts_again sample_handlers
              (Lifecycle.Call Lifecycle.CallOpen :: succeeds)
              Lifecycle.Returns Hidle Hq)
    as (_ & Hs & Hc & Hn & _); [by vm_compute |].
  split; [exact Hidle |]. split; [exact Hq |].
  split; [vm_compute; reflexivity |]. split; [exact Hs |].
  split; [vm_compute in Hc |- *; exact Hc |].
  vm_compute in Hn |- *; exact Hn.
Defined.

Lemma reset_during_an_operation_witness :
  let d := Lifecycle.Descriptor (Lifecycle.user "f") "opening" "opened" in
  let w :=
    Lifecycle.exec [Lifecycle.Call Lifecycle.CallOpen]
      (Lifecycle.new sample_handlers) in
  let w' :=
    Lifecycle.exec [Lifecycle.Call Lifecycle.CallReset;
                    Lifecycle.OperationSettles 0 Lifecycle.Returns] w in
  Queue.loops w = [Queue.Activation (Queue.Entry d 0) (inl d)]
  ∧ Lifecycle.state w = "opening"
  ∧ Lifecycle.state w' = "init"
  ∧ Lifecycle.notified (Queue.env w') = ["opening"]
  ∧ Queue.loops w' = [Queue.Activation (Queue.Entry d 0) (inr Ok)].
Proof.
  intros d w w'.
  assert (Queue.loops w = [Queue.Activation (Queue.Entry d 0) (inl d)])
    as Hl by (vm_compute; reflexivity).
  destruct (reset_during_an_operation sample_handlers
              [Lifecycle.Call Lifecycle.CallOpen] (Queue.Entry d 0) d
              Lifecycle.Returns Hl) as (Hs & Hn & _ & Hl').
  split; [exact Hl |]. split; [vm_compute; reflexivity |].
  split; [exact Hs |].
  split; [vm_compute in Hn |- *; exact Hn |].
  vm_compute in Hl' |- *; exact Hl'.
Defined.

Lemma until_is_released_by_the_operation_witness :
  let d := Lifecycle.Descriptor (Lifecycle.user "f") "opening" "opened" in
  let w := Lifecycle.exec [] (Lifecycle.new sample_handlers) in
  let w1 := Lifecycle.exec [Lifecycle.Call Lifecycle.CallOpen] w in
  let '(p, w1') := Lifecycle.until (Lifecycle.toState d) w1 in
  let w2 :=
    Lifecycle.exec
      [Lifecycle.OperationSettles 0 Lifecycle.Returns; Lifecycle.Continue 0]
      w1' in
  Queue.idle w
  ∧ Protocol.edge (Lifecycle.interimState d) (Lifecycle.toState d) = true
  ∧ Lifecycle.state w1' = "opening"
  ∧ (p ∉ resolved (Lifecycle.heap (Queue.env w1')))
  ∧ Lifecycle.state w2 = "opened"
  ∧ p ∈ resolved (Lifecycle.heap (Queue.env w2)).
Proof.
  intros d w w1.
  assert (Queue.idle w) as Hidle by (by vm_compute).
  assert (Protocol.edge (Lifecycle.interimState d) (Lifecycle.toState d)
          = true) as He by (vm_compute; reflexivity).
  pose proof (until_is_released_by_the_operation sample_handlers []
                Lifecycle.CallOpen d Lifecycle.Returns) as H.
  cbv zeta in H. fold w in H. fold w1 in H.
  destruct (Lifecycle.until (Lifecycle.toState d) w1) as [p w1'].
  destruct (H Hidle) as (Hs1 & Hp1 & Hs2 & Hp2 & _);
    [by vm_compute .. |].
  split; [exact Hidle |]. split; [exact He |].
  split; [exact Hs1 |]. split; [exact Hp1 |].
  split; [exact Hs2 | exact Hp2].
Defined.

Lemma arrival_time_does_not_matter_witness :
  let processor := @UserQueue.processor string string in
  let processor_resume := @UserQueue.processor_resume string in
  let w :=
    Queue.exec processor processor_resume [Queue.Enqueue "a"]
      (Queue.new ()) in
  let ev := Queue.Settle 0 (Err "boom") in
  Queue.processing (Queue.queue w) = true
  ∧ Queue.step processor processor_resume
      (Queue.enqueue processor "b" w).2 ev
    = (Queue.enqueue processor "b"
         (Queue.step processor processor_resume w ev)).2
  ∧ (Queue.enqueue processor "b"
       (Queue.step processor processor_resume w ev)).1 = 1.
Proof.
  intros processor processor_resume w ev.
  assert (Queue.processing (Queue.queue w) = true) as Hp
    by (vm_compute; reflexivity).
  destruct (arrival_time_does_not_matter processor processor_resume ()
              [Queue.Enqueue "a"] "b" ev Hp) as [Hw Hh]; [done |].
  split; [exact Hp |]. split; [exact Hw |].
  vm_compute in Hh |- *. exact Hh.
Defined.

Lemma back_to_back_calls_compose_witness :
  let w := Lifecycle.new open_close_handlers in
  let together :=
    Lifecycle.exec
      (Lifecycle.Call Lifecycle.CallOpen :: Lifecycle.Call Lifecycle.CallClose
       :: succeeds ++ succeeds) w in
  let in_turn :=
    Lifecycle.exec (Lifecycle.Call Lifecycle.CallClose :: succeeds)
      (Lifecycle.exec (Lifecycle.Call Lifecycle.CallOpen :: succeeds) w) in
  Queue.idle w
  ∧ Protocol.quiet (Queue.env w)
  ∧ together = in_turn
  ∧ Lifecycle.state together = "closed"
  ∧ Queue.settled together = [(0, Ok); (1, Ok)].
Proof.
  intros w together in_turn.
  assert (Queue.idle w) as Hidle by (by vm_compute).
  assert (Protocol.quiet (Queue.env w)) as Hq by (by vm_compute).
  destruct (back_to_back_calls_compose open_close_handlers []
              Lifecycle.CallOpen Lifecycle.CallClose)
    as (Heq & Hs & Hset & _);
    [by apply (list_elem_of_lookup_2 _ 0)
    | by apply (list_elem_of_lookup_2 _ 1) | exact Hidle | exact Hq |].
  split; [exact Hidle |]. split; [exact Hq |]. split; [exact Heq |].
  split; [vm_compute in Hs |- *; exact Hs |].
  vm_compute in Hset |- *; exact Hset.
Defined.
